(** * The track generator of the multi-track car-racing environment

    A shallow embedding of [gym/envs/box2d/car_racing.py]: the configuration
    setter, the checkpoint sampler, the path walker, the loop extractor, the
    intersection resolver ([_remove_roads]), the annotator ([_create_info],
    [_set_lanes]), the border flags and the random point query.

    Conventions of the embedding.
    - A Python float is a rational number ([Q]) and arithmetic on it is exact;
      comparisons are the boolean ones of [Q].  The functions of the [math]
      and [numpy] libraries that are not rational ([cos], [sin], [atan2],
      [sqrt]) are the fields of the class [MathLib]; the theorems are stated
      for an arbitrary instance of it, the sample runs use [series_math].
    - A Python list or numpy array is a [list]; indexing follows Python
      (a negative index counts from the end, an index out of range raises).
    - A method of the environment object threads the fields it reads and
      writes ([Env]); the two random sources, [self.np_random] and the
      process-wide [np.random], are two separate generator states.
    - A [while] loop without a syntactic bound takes fuel; a run that uses it
      up is [Timeout], a Python exception is [Raised]. *)

From Stdlib Require Import ZArith QArith Qround Qabs Qminmax Lia Lqa.
From stdpp Require Import base list.

(** ** Outcomes of a call *)

Inductive outcome (A : Type) : Type :=
| Done (a : A)   (* the call returned [a] *)
| Raised         (* an uncaught Python exception (IndexError, ValueError, ...) *)
| Timeout.       (* the model ran out of fuel *)
Arguments Done {A} a.
Arguments Raised {A}.
Arguments Timeout {A}.

#[export] Instance outcome_ret : MRet outcome := fun A a => Done a.
#[export] Instance outcome_bind : MBind outcome := fun A B f m =>
  match m with
  | Done a => f a
  | Raised => Raised
  | Timeout => Timeout
  end.

(** An [option] read as "the value or an exception". *)
Definition or_raise {A : Type} (o : option A) : outcome A :=
  match o with
  | Some a => Done a
  | None => Raised
  end.

(** ** Python sequences *)

(** The position a Python index [i] denotes in a sequence of length [n]:
    [0 <= i < n] is itself, [-n <= i < 0] counts from the end, anything else
    is an IndexError. *)
Definition py_index (n : nat) (i : Z) : option nat :=
  if ((0 <=? i) && (i <? Z.of_nat n))%Z then Some (Z.to_nat i)
  else if ((i <? 0) && (- Z.of_nat n <=? i))%Z then Some (Z.to_nat (i + Z.of_nat n))
  else None.

(** [l[i]] *)
Definition py_get {A : Type} (l : list A) (i : Z) : option A :=
  k ← py_index (length l) i; l !! k.

(** [l[i] = x] *)
Definition py_set {A : Type} (l : list A) (i : Z) (x : A) : option (list A) :=
  k ← py_index (length l) i; Some (<[k:=x]> l).

(** The bound a slice index denotes: negative indices count from the end and
    everything is clamped to [0..n]. *)
Definition py_slice_bound (n : nat) (i : Z) : nat :=
  Z.to_nat (Z.min (Z.of_nat n) (if (i <? 0)%Z then Z.max 0 (i + Z.of_nat n) else i)).

(** [l[a:b]] *)
Definition py_slice {A : Type} (l : list A) (a b : Z) : list A :=
  drop (py_slice_bound (length l) a) (take (py_slice_bound (length l) b) l).

(** ** Numbers *)

Local Open Scope Q_scope.

Definition Qltb (a b : Q) : bool := negb (Qle_bool b a).
Definition Qgtb (a b : Q) : bool := Qltb b a.
Definition Qgeb (a b : Q) : bool := Qle_bool b a.

(** [math.pi], the double nearest to pi, as the rational it is. *)
Definition pi : Q := 884279719003555 # 281474976710656.

(** [np.sign] *)
Definition np_sign (a : Q) : Q :=
  if Qltb 0 a then 1 else if Qltb a 0 then -1 else 0.

(** [np.square] *)
Definition np_square (a : Q) : Q := a * a.

(** The transcendental functions the program calls. *)
Class MathLib : Type := {
  math_cos : Q -> Q;
  math_sin : Q -> Q;
  math_atan2 : Q -> Q -> Q;
  np_sqrt : Q -> Q
}.

(** ** Module constants *)

Definition SCALE : Q := 6.0.
Definition TRACK_RAD : Q := 900 / SCALE.
Definition TRACK_DETAIL_STEP : Q := 21 / SCALE.
Definition TRACK_TURN_RATE : Q := 0.31.
Definition TRACK_WIDTH : Q := 40 / SCALE.
Definition BORDER : Q := 8 / SCALE.
Definition BORDER_MIN_COUNT : nat := 4.

(** ** Random sources

    A generator is the stream of raw words it will produce; a draw takes the
    first word and leaves the rest.  How a word becomes a sample is fixed
    here once: a unit sample keeps 53 bits, an integer in [lo, hi) reduces
    the word modulo the width of the range. *)

Definition RandomState : Type := nat -> N.

Definition next_word (g : RandomState) : N * RandomState :=
  (g 0%nat, fun n => g (S n)).

(** [random_sample()]: a float in [0, 1). *)
Definition random_sample (g : RandomState) : Q * RandomState :=
  let '(w, g') := next_word g in
  (Z.of_N (w mod 2 ^ 53) # 2 ^ 53, g').

(** [uniform(low, high)] *)
Definition uniform (g : RandomState) (low high : Q) : Q * RandomState :=
  let '(u, g') := random_sample g in
  (low + (high - low) * u, g').

(** [randint(low, high)]; a ValueError when the range is empty. *)
Definition randint (g : RandomState) (low high : Z) : outcome (Z * RandomState) :=
  if (high <=? low)%Z then Raised
  else let '(w, g') := next_word g in
       Done ((low + Z.of_N w mod (high - low))%Z, g').

(** [randint(low, high, size)] *)
Fixpoint randint_size (g : RandomState) (low high : Z) (size : nat)
  : outcome (list Z * RandomState) :=
  match size with
  | O => if (high <=? low)%Z then Raised else Done ([], g)
  | S size' =>
      '(v, g') ← randint g low high;
      '(vs, g'') ← randint_size g' low high size';
      Done (v :: vs, g'')
  end.

(** [binomial(1, p)]: a ValueError when [p] is not in [0, 1]; otherwise
    one unit sample is inverted, from the side of the smaller of [p] and
    [1 - p]. *)
Definition binomial1 (g : RandomState) (p : Q) : outcome (Z * RandomState) :=
  if Qltb p 0 || Qgtb p 1 then Raised
  else
    let '(u, g') := random_sample g in
    let x := if Qle_bool p 0.5 then Qgtb u (1 - p) else Qle_bool u p in
    Done ((if x then 1 else 0)%Z, g').

(** ** Data model *)

(** A track point, the tuple [(alpha, beta, x, y)]. *)
Record TrackPoint : Type := mkPoint {
  tp_alpha : Q;
  tp_beta : Q;
  tp_x : Q;
  tp_y : Q
}.

(** A segment [[previous point, current point]]. *)
Abbreviation Segment := (TrackPoint * TrackPoint)%type.
Abbreviation Track := (list Segment).

(** A checkpoint, the tuple [(alpha, x, y)]. *)
Record Checkpoint : Type := mkCheckpoint {
  cp_alpha : Q;
  cp_x : Q;
  cp_y : Q
}.

(** One row of the structured array [info]. *)
Record SegmentInfo : Type := mkInfo {
  i_track : Z;
  i_end : bool;
  i_begining : bool;
  i_intersection : bool;
  i_start : bool;
  i_lanes : list bool;
  i_obstacles : Z
}.

(** The fields of the environment object the generator reads and writes. *)
Record Env : Type := mkEnv {
  num_lanes_changes : Z;
  num_tracks : Z;
  num_lanes : Z;
  prob_obstacle : Q;
  np_random : RandomState;
  start_alpha : Q;
  tracks : list Track;
  track : Track;
  info : list SegmentInfo;
  intersections : list ((Q * Q) * (Q * Q))
}.

(** ** [set_config] *)

Definition set_config (self : Env)
    (num_tracks' num_lanes' num_lanes_changes' : Z) (prob_obstacle' : Q) : Env :=
  let nl := if ((0 <? num_lanes') && (num_lanes' <=? 2))%Z
            then num_lanes' else num_lanes self in
  let nt := if ((0 <? num_tracks') && (num_tracks' <=? 2))%Z
            then num_tracks' else num_tracks self in
  let po := if Qgeb prob_obstacle' 0 && Qle_bool prob_obstacle' 1
            then prob_obstacle' else prob_obstacle self in
  let nc := if (0 <=? num_lanes_changes')%Z
            then num_lanes_changes' else num_lanes_changes self in
  {| num_lanes_changes := nc; num_tracks := nt; num_lanes := nl;
     prob_obstacle := po; np_random := np_random self;
     start_alpha := start_alpha self; tracks := tracks self;
     track := track self; info := info self;
     intersections := intersections self |}.

(** [seed]: the seeded source of the environment is replaced by the generator
    [g] that the seeding utility derives from the seed; nothing else is. *)
Definition seed (self : Env) (g : RandomState) : Env :=
  {| num_lanes_changes := num_lanes_changes self; num_tracks := num_tracks self;
     num_lanes := num_lanes self; prob_obstacle := prob_obstacle self;
     np_random := g;
     start_alpha := start_alpha self; tracks := tracks self;
     track := track self; info := info self;
     intersections := intersections self |}.

(** ** [_get_track] *)

(** A [while cond: s = body(s)] loop. *)
Fixpoint while_loop {S : Type} (fuel : nat) (cond : S -> bool) (body : S -> S) (s : S)
  : outcome S :=
  match fuel with
  | O => Timeout
  | Datatypes.S fuel' =>
      if cond s then while_loop fuel' cond body (body s) else Done s
  end.

Section GetTrack.
Context {M : MathLib}.

Definition CHECKPOINTS : nat := 12.

(** One round of [for c in range(CHECKPOINTS)]: the state is the list built
    so far, the seeded source and [self.start_alpha]. *)
Definition create_checkpoint (rad0 : Q)
    (st : list Checkpoint * RandomState * Q) (c : nat)
  : list Checkpoint * RandomState * Q :=
  let '(checkpoints, g, sa) := st in
  let '(jitter, g) := uniform g 0 (2 * pi * 1 / inject_Z (Z.of_nat CHECKPOINTS)) in
  let alpha := 2 * pi * inject_Z (Z.of_nat c) / inject_Z (Z.of_nat CHECKPOINTS) + jitter in
  let '(rad, g) := uniform g (rad0 / 3) rad0 in
  let '(alpha, rad) := if (c =? 0)%nat then (0, 1.5 * rad0) else (alpha, rad) in
  let '(alpha, sa, rad) :=
    if (c =? CHECKPOINTS - 1)%nat
    then (2 * pi * inject_Z (Z.of_nat c) / inject_Z (Z.of_nat CHECKPOINTS),
          2 * pi * (-0.5) / inject_Z (Z.of_nat CHECKPOINTS),
          1.5 * rad0)
    else (alpha, sa, rad) in
  (checkpoints ++ [mkCheckpoint alpha (rad * math_cos alpha) (rad * math_sin alpha)], g, sa).

Definition create_checkpoints (rad0 : Q) (g : RandomState) (sa : Q)
  : list Checkpoint * RandomState * Q :=
  foldl (create_checkpoint rad0) ([], g, sa) (seq 0 CHECKPOINTS).

(** The innermost [while True] of the destination search: the cursor [dest_i]
    moves forward until [alpha <= dest_alpha] (not failed) or until it wraps
    to a multiple of the number of checkpoints (failed).  The result is
    [(failed, dest_i, destination)]. *)
Fixpoint scan_checkpoints (fuel : nat) (checkpoints : list Checkpoint) (alpha : Q)
    (dest_i : nat) : outcome (bool * nat * Checkpoint) :=
  match fuel with
  | O => Timeout
  | S fuel' =>
      dest ← or_raise (checkpoints !! (dest_i mod length checkpoints)%nat);
      if Qle_bool alpha (cp_alpha dest) then Done (false, dest_i, dest)
      else
        let dest_i := S dest_i in
        if (dest_i mod length checkpoints =? 0)%nat then Done (true, dest_i, dest)
        else scan_checkpoints fuel' checkpoints alpha dest_i
  end.

(** The enclosing [while True]: a failed scan takes a turn off [alpha] and
    scans again.  The result is [(alpha, dest_i, destination)]. *)
Fixpoint find_destination (fuel : nat) (checkpoints : list Checkpoint) (alpha : Q)
    (dest_i : nat) : outcome (Q * nat * Checkpoint) :=
  match fuel with
  | O => Timeout
  | S fuel' =>
      '(failed, dest_i, dest) ← scan_checkpoints (S fuel') checkpoints alpha dest_i;
      if negb failed then Done (alpha, dest_i, dest)
      else find_destination fuel' checkpoints (alpha - 2 * pi) dest_i
  end.

(** The local variables of the walk that live across iterations. *)
Record Walker : Type := mkWalker {
  w_x : Q;
  w_y : Q;
  w_beta : Q;
  w_dest_i : nat;
  w_laps : Z;
  w_visited_other_side : bool
}.

(** One iteration of the outer [while 1], up to and including
    [track.append]: the new locals and the point appended. *)
Definition walk_step (fuel : nat) (checkpoints : list Checkpoint) (s : Walker)
  : outcome (Walker * TrackPoint) :=
  let x := w_x s in
  let y := w_y s in
  let beta := w_beta s in
  let alpha := math_atan2 y x in
  let '(laps, visited_other_side) :=
    if w_visited_other_side s && Qgtb alpha 0
    then ((w_laps s + 1)%Z, false) else (w_laps s, w_visited_other_side s) in
  let '(visited_other_side, alpha) :=
    if Qltb alpha 0 then (true, alpha + 2 * pi) else (visited_other_side, alpha) in
  '(alpha, dest_i, dest) ← find_destination fuel checkpoints alpha (w_dest_i s);
  let r1x := math_cos beta in
  let r1y := math_sin beta in
  let p1x := - r1y in
  let p1y := r1x in
  let dest_dx := cp_x dest - x in
  let dest_dy := cp_y dest - y in
  let proj := r1x * dest_dx + r1y * dest_dy in
  beta ← while_loop fuel (fun beta => Qgtb (beta - alpha) (1.5 * pi))
                         (fun beta => beta - 2 * pi) beta;
  beta ← while_loop fuel (fun beta => Qltb (beta - alpha) (-1.5 * pi))
                         (fun beta => beta + 2 * pi) beta;
  let prev_beta := beta in
  let proj := proj * SCALE in
  let beta := if Qgtb proj 0.3
              then beta - Qmin TRACK_TURN_RATE (Qabs (0.001 * proj)) else beta in
  let beta := if Qltb proj (-0.3)
              then beta + Qmin TRACK_TURN_RATE (Qabs (0.001 * proj)) else beta in
  let x := x + p1x * TRACK_DETAIL_STEP in
  let y := y + p1y * TRACK_DETAIL_STEP in
  Done (mkWalker x y beta dest_i laps visited_other_side,
        mkPoint alpha (prev_beta * 0.5 + beta * 0.5) x y).

(** The outer [while 1]: [no_freeze] is the remaining budget, decremented
    after every iteration that did not end on [laps > 4]; the loop ends when
    it reaches zero.  The result is the track, the final locals and the
    budget left. *)
Fixpoint walk_loop (fuel : nat) (no_freeze : nat) (checkpoints : list Checkpoint)
    (s : Walker) (track : list TrackPoint) : outcome (list TrackPoint * Walker * nat) :=
  match no_freeze with
  | O => Timeout
  | S no_freeze' =>
      '(s, point) ← walk_step fuel checkpoints s;
      let track := track ++ [point] in
      if (4 <? w_laps s)%Z then Done (track, s, no_freeze)
      else if (no_freeze' =? 0)%nat then Done (track, s, no_freeze')
      else walk_loop fuel no_freeze' checkpoints s track
  end.

Definition walker_start (rad0 : Q) : Walker :=
  mkWalker (1.5 * rad0) 0 0 0 0 false.

Definition NO_FREEZE : nat := 2500.

(** The path walker: lines 206-250. *)
Definition walk_track (fuel : nat) (rad0 : Q) (checkpoints : list Checkpoint)
  : outcome (list TrackPoint) :=
  '(track, _, _) ← walk_loop fuel NO_FREEZE checkpoints (walker_start rad0) [];
  Done track.

(** [pass_through_start] at index [i]. *)
Definition pass_through_start (track : list TrackPoint) (sa : Q) (i : nat) : option bool :=
  p ← py_get track (Z.of_nat i);
  q ← py_get track (Z.of_nat i - 1);
  Some (Qgtb (tp_alpha p) sa && Qle_bool (tp_alpha q) sa).

(** The backward scan for the closed loop range, lines 254-264.  [i] is the
    value of the loop variable before [i -= 1], [i2] the crossing found so
    far or [-1]; [Done None] is [return False], [Done (Some (i1, i2))] is
    the [break]. *)
Fixpoint find_loop_range (track : list TrackPoint) (sa : Q) (i : nat) (i2 : Z)
  : outcome (option (Z * Z)) :=
  match i with
  | O =>
      (* [i] becomes -1: only for an empty track, where [track[-1]] raises *)
      Raised
  | S i' =>
      if (i' =? 0)%nat then Done None
      else
        pass ← or_raise (pass_through_start track sa i');
        if pass && (i2 =? -1)%Z then find_loop_range track sa i' (Z.of_nat i')
        else if pass then Done (Some (Z.of_nat i', i2))
        else find_loop_range track sa i' i2
  end.

(** [well_glued_together], lines 271-277. *)
Definition well_glued_together (track : list TrackPoint) : option Q :=
  first ← py_get track 0;
  last ← py_get track (-1);
  let first_beta := tp_beta first in
  let first_perp_x := math_cos first_beta in
  let first_perp_y := math_sin first_beta in
  Some (np_sqrt (np_square (first_perp_x * (tp_x first - tp_x last)) +
                 np_square (first_perp_y * (tp_y first - tp_y last)))).

(** [[[track[i-1], track[i]] for i in range(len(track))]] *)
Definition to_segments (track : list TrackPoint) : option Track :=
  mapM (fun i : nat =>
          a ← py_get track (Z.of_nat i - 1);
          b ← py_get track (Z.of_nat i);
          Some (a, b))
       (seq 0 (length track)).

(** The loop extractor, lines 253-282, on the raw walk: [Done None] is
    [return False]. *)
Definition extract_range (track : list TrackPoint) (sa : Q)
  : outcome (option (list TrackPoint)) :=
  r ← find_loop_range track sa (length track) (-1);
  match r with
  | None => Done None
  | Some (i1, i2) => Done (Some (py_slice track i1 (i2 - 1)))
  end.

Definition close_loop (track : list TrackPoint) : outcome (option Track) :=
  gap ← or_raise (well_glued_together track);
  if Qgtb gap TRACK_DETAIL_STEP then Done None
  else segs ← or_raise (to_segments track); Done (Some segs).

Definition extract_loop (track : list TrackPoint) (sa : Q) : outcome (option Track) :=
  r ← extract_range track sa;
  match r with
  | None => Done None
  | Some loop => close_loop loop
  end.

(** [_get_track(CHECKPOINTS, TRACK_RAD)]: the track or [None] for [False],
    and the environment with the seeded source advanced and
    [self.start_alpha] set. *)
Definition _get_track (fuel : nat) (rad0 : Q) (self : Env)
  : outcome (option Track * Env) :=
  let '(checkpoints, g, sa) := create_checkpoints rad0 (np_random self) (start_alpha self) in
  let self :=
    {| num_lanes_changes := num_lanes_changes self; num_tracks := num_tracks self;
       num_lanes := num_lanes self; prob_obstacle := prob_obstacle self;
       np_random := g; start_alpha := sa; tracks := tracks self;
       track := track self; info := info self;
       intersections := intersections self |} in
  raw ← walk_track fuel rad0 checkpoints;
  r ← extract_loop raw sa;
  Done (r, self).

End GetTrack.

(** ** Small numpy helpers *)

(** A monadic left fold: a [for] loop whose body may raise. *)
Fixpoint for_each {S A : Type} (body : S -> A -> outcome S) (l : list A) (s : S)
  : outcome S :=
  match l with
  | [] => Done s
  | a :: l' => s' ← body s a; for_each body l' s'
  end.

Abbreviation XY := (Q * Q)%type.

Definition xy (p : TrackPoint) : XY := (tp_x p, tp_y p).

(** A row of [track[:,:,[2,3]]]: the two end points of a segment. *)
Definition seg_xy (s : Segment) : XY * XY := (xy (fst s), xy (snd s)).

Definition xy_sub (a b : XY) : XY := (fst a - fst b, snd a - snd b).

(** [np.array_equal] on two points of the plane, and on two track points. *)
Definition xy_equal (a b : XY) : bool :=
  Qeq_bool (fst a) (fst b) && Qeq_bool (snd a) (snd b).

Definition point_equal (p q : TrackPoint) : bool :=
  Qeq_bool (tp_alpha p) (tp_alpha q) && Qeq_bool (tp_beta p) (tp_beta q) &&
  Qeq_bool (tp_x p) (tp_x q) && Qeq_bool (tp_y p) (tp_y q).

(** [min()] of an array; a ValueError when it is empty. *)
Definition np_min (l : list Q) : option Q :=
  match l with
  | [] => None
  | a :: l' => Some (foldl (fun m b => if Qltb b m then b else m) a l')
  end.

(** [np.argmin]: the first position of the minimum. *)
Fixpoint argmin_from (l : list Q) (k : nat) (best : nat) (m : Q) : nat :=
  match l with
  | [] => best
  | a :: l' => if Qltb a m then argmin_from l' (S k) k a else argmin_from l' (S k) best m
  end.

Definition np_argmin (l : list Q) : option nat :=
  match l with
  | [] => None
  | a :: l' => Some (argmin_from l' 1 0 a)
  end.

(** [np.delete(a, idx, axis=0)]: the rows whose position is not in [idx]. *)
Fixpoint np_delete_from {A : Type} (k : nat) (l : list A) (idx : list nat) : list A :=
  match l with
  | [] => []
  | a :: l' =>
      if existsb (Nat.eqb k) idx then np_delete_from (S k) l' idx
      else a :: np_delete_from (S k) l' idx
  end.

Definition np_delete {A : Type} (l : list A) (idx : list nat) : list A :=
  np_delete_from 0 l idx.

(** The positions of the rows satisfying [f]: [np.where(mask)[0]]. *)
Fixpoint np_where_from {A : Type} (f : A -> bool) (k : nat) (l : list A) : list nat :=
  match l with
  | [] => []
  | a :: l' => if f a then k :: np_where_from f (S k) l' else np_where_from f (S k) l'
  end.

Definition np_where {A : Type} (f : A -> bool) (l : list A) : list nat :=
  np_where_from f 0 l.

Definition with_tracks (self : Env) (ts : list Track) (inter : list (XY * XY)) : Env :=
  {| num_lanes_changes := num_lanes_changes self; num_tracks := num_tracks self;
     num_lanes := num_lanes self; prob_obstacle := prob_obstacle self;
     np_random := np_random self; start_alpha := start_alpha self; tracks := ts;
     track := track self; info := info self; intersections := inter |}.

Definition with_track (self : Env) (t : Track) : Env :=
  {| num_lanes_changes := num_lanes_changes self; num_tracks := num_tracks self;
     num_lanes := num_lanes self; prob_obstacle := prob_obstacle self;
     np_random := np_random self; start_alpha := start_alpha self;
     tracks := tracks self; track := t; info := info self;
     intersections := intersections self |}.

Definition with_info (self : Env) (i : list SegmentInfo) : Env :=
  {| num_lanes_changes := num_lanes_changes self; num_tracks := num_tracks self;
     num_lanes := num_lanes self; prob_obstacle := prob_obstacle self;
     np_random := np_random self; start_alpha := start_alpha self;
     tracks := tracks self; track := track self; info := i;
     intersections := intersections self |}.

Definition with_np_random (self : Env) (g : RandomState) : Env :=
  {| num_lanes_changes := num_lanes_changes self; num_tracks := num_tracks self;
     num_lanes := num_lanes self; prob_obstacle := prob_obstacle self;
     np_random := g; start_alpha := start_alpha self;
     tracks := tracks self; track := track self; info := info self;
     intersections := intersections self |}.

(** ** [_remove_roads] *)

Section RemoveRoads.
Context {M : MathLib}.

(** [np.linalg.norm] of a vector of the plane. *)
Definition np_linalg_norm (v : XY) : Q :=
  np_sqrt (fst v * fst v + snd v * snd v).

(** The loop of the inner function [_get_section]: [k] iterations remain
    before [pos / track.shape[0] >= 2]. *)
Fixpoint get_section_loop (k : nat) (first last : XY) (track : Track)
    (pos : nat) (found : bool) (sec : list (XY * XY)) : outcome (list (XY * XY)) :=
  match k with
  | O => Done sec
  | S k' =>
      s ← or_raise (track !! (pos mod length track)%nat);
      let point := seg_xy s in
      let found :=
        if Qle_bool (np_linalg_norm (xy_sub (snd point) first)) (TRACK_WIDTH / 2)
        then true else found in
      if found then
        let sec := sec ++ [point] in
        if Qle_bool (np_linalg_norm (xy_sub (snd point) last)) (TRACK_WIDTH / 2)
        then Done sec
        else get_section_loop k' first last track (S pos) found sec
      else get_section_loop k' first last track (S pos) found sec
  end.

(** [_get_section(first, last, track)]; [None] is [False]. *)
Definition _get_section (first last : XY) (track : Track)
  : outcome (option (list (XY * XY))) :=
  if (length track =? 0)%nat then Raised
  else
    sec ← get_section_loop (2 * length track) first last track 0 false [];
    match sec with
    | [] => Done None
    | _ => Done (Some sec)
    end.

(** The candidate overlap points [inter2]. *)
Definition overlap_candidates (points1 points2 : list (XY * XY)) : list (XY * XY) :=
  List.filter
    (fun x =>
       (1 <=? length (List.filter
                        (fun p1 => Qle_bool (np_linalg_norm (xy_sub p1 (snd x)))
                                            (TRACK_WIDTH / 3.5))
                        (map snd points1)))%nat)
    points2.

(** The candidates whose run is broken before or after them. *)
Definition true_intersections (inter2 : list (XY * XY)) : outcome (list (XY * XY)) :=
  for_each
    (fun acc i =>
       prev ← or_raise (py_get inter2 (Z.of_nat i - 1));
       cur ← or_raise (py_get inter2 (Z.of_nat i));
       next ← or_raise (inter2 !! (S i mod length inter2)%nat);
       if negb (xy_equal (snd prev) (fst cur)) || negb (xy_equal (snd cur) (fst next))
       then Done (acc ++ [cur]) else Done acc)
    (seq 0 (length inter2)) [].

(** [max_min_d] of two sections. *)
Definition max_min_distance (sec1 sec2 : list (XY * XY)) : outcome Q :=
  for_each
    (fun max_min_d point =>
       dist ← or_raise (np_min (map (fun q => np_linalg_norm (xy_sub q point))
                                    (map snd sec2)));
       Done (if Qltb max_min_d dist then dist else max_min_d))
    (map snd sec1) 0.

Definition seg_xy_equal (a b : XY * XY) : bool :=
  xy_equal (fst a) (fst b) && xy_equal (snd a) (snd b).

(** The body of [for i in range(intersections.shape[0])]. *)
Definition mark_removed (track1 track2 : Track) (inters : list (XY * XY))
    (removed_idx : list nat) (i : nat) : outcome (list nat) :=
  prev ← or_raise (py_get inters (Z.of_nat i - 1));
  cur ← or_raise (py_get inters (Z.of_nat i));
  let first := snd prev in
  let last := fst cur in
  sec1 ← _get_section first last track1;
  sec2 ← _get_section first last track2;
  match sec1, sec2 with
  | Some sec1, Some sec2 =>
      max_min_d ← max_min_distance sec1 sec2;
      let THRESHOLD := TRACK_WIDTH * 2 in
      if Qltb max_min_d (THRESHOLD * 2) then
        Done (foldl (fun acc point =>
                       acc ++ np_where (fun s => seg_xy_equal (seg_xy s) point) track2)
                    removed_idx sec2)
      else Done removed_idx
  | _, _ => Done removed_idx
  end.

Definition _remove_roads (self : Env) : outcome Env :=
  if (1 <? num_tracks self)%Z then
    track1 ← or_raise (py_get (tracks self) 0);
    track2 ← or_raise (py_get (tracks self) 1);
    if ((length track1 =? 0) || (length track2 =? 0))%nat then Raised
    else
      let points1 := map seg_xy track1 in
      let points2 := map seg_xy track2 in
      let inter2 := overlap_candidates points1 points2 in
      inters ← true_intersections inter2;
      removed_idx ← for_each (mark_removed track1 track2 inters)
                             (seq 0 (length inters)) [];
      let track2 := np_delete track2 removed_idx in
      ts ← or_raise (py_set (tracks self) 0 track1);
      ts ← or_raise (py_set ts 1 track2);
      Done (with_tracks self ts inters)
  else Done self.

End RemoveRoads.

(** ** [_create_info] *)

Definition set_i_track (v : Z) (r : SegmentInfo) : SegmentInfo :=
  mkInfo v (i_end r) (i_begining r) (i_intersection r) (i_start r) (i_lanes r) (i_obstacles r).
Definition set_i_end (v : bool) (r : SegmentInfo) : SegmentInfo :=
  mkInfo (i_track r) v (i_begining r) (i_intersection r) (i_start r) (i_lanes r) (i_obstacles r).
Definition set_i_start (v : bool) (r : SegmentInfo) : SegmentInfo :=
  mkInfo (i_track r) (i_end r) (i_begining r) (i_intersection r) v (i_lanes r) (i_obstacles r).
Definition set_i_intersection (v : bool) (r : SegmentInfo) : SegmentInfo :=
  mkInfo (i_track r) (i_end r) (i_begining r) v (i_start r) (i_lanes r) (i_obstacles r).
Definition set_i_lanes (v : list bool) (r : SegmentInfo) : SegmentInfo :=
  mkInfo (i_track r) (i_end r) (i_begining r) (i_intersection r) (i_start r) v (i_obstacles r).

(** [a[i] = f(a[i])] *)
Definition py_update {A : Type} (l : list A) (i : Z) (f : A -> A) : option (list A) :=
  x ← py_get l i; py_set l i (f x).

(** [a[lo:hi] = f(a[lo:hi])], row by row. *)
Definition slice_update {A : Type} (l : list A) (lo hi : Z) (f : A -> A) : list A :=
  imap (fun k x =>
          if ((py_slice_bound (length l) lo <=? k) && (k <? py_slice_bound (length l) hi))%nat
          then f x else x) l.

(** A row of [np.zeros], with [lanes] set by the first loop. *)
Definition info_zero : SegmentInfo := mkInfo 0 false false false false [true; true] 0.

(** The body of [for j in range(len(track))] for the track [i]. *)
Definition mark_ends (offset : nat) (track : Track) (info : list SegmentInfo) (j : nat)
  : outcome (list SegmentInfo) :=
  let pos := Z.of_nat (j + offset) in
  p ← or_raise (py_get track (Z.of_nat j));
  next_p ← or_raise (track !! (S j mod length track)%nat);
  last_p ← or_raise (py_get track (Z.of_nat j - 1));
  if negb (point_equal (snd p) (fst next_p))
  then or_raise (py_update info pos (set_i_end true))
  else if negb (point_equal (fst p) (snd last_p))
  then or_raise (py_update info pos (set_i_start true))
  else Done info.

(** The body of [for i in range(1, len(self.tracks))]. *)
Definition annotate_track (tracks : list Track) (info : list SegmentInfo) (i : nat)
  : outcome (list SegmentInfo) :=
  track ← or_raise (py_get tracks (Z.of_nat i));
  prev ← or_raise (py_get tracks (Z.of_nat i - 1));
  let info := slice_update info (Z.of_nat (length prev) - 1)
                           (Z.of_nat (length prev) + Z.of_nat (length track))
                           (set_i_track (Z.of_nat i)) in
  for_each (mark_ends (length prev) track) (seq 0 (length track)) info.

Section CreateInfo.
Context {M : MathLib}.

(** The positions in the principal track nearest to each end or start; the
    boolean mask over [self.track] must have its length. *)
Definition nearest_in_principal (tracks : list Track) (track : Track)
    (info : list SegmentInfo) : outcome (list nat) :=
  if negb (length track =? length info)%nat then Raised
  else
    let flagged :=
      map (fun si => xy (snd (fst si)))
          (List.filter (fun si => i_end (snd si) || i_start (snd si)) (zip track info)) in
    for_each
      (fun acc point =>
         principal ← or_raise (py_get tracks 0);
         k ← or_raise (np_argmin (map (fun s => np_linalg_norm (xy_sub (xy (snd s)) point))
                                      principal));
         Done (acc ++ [k]))
      flagged [].

Definition _create_info (self : Env) : outcome Env :=
  let n := sum_list (map length (tracks self)) in
  let info := replicate n info_zero in
  info ← for_each (annotate_track (tracks self)) (seq 1 (length (tracks self) - 1)) info;
  idx ← nearest_in_principal (tracks self) (track self) info;
  info ← for_each (fun info k => or_raise (py_update info (Z.of_nat k) (set_i_intersection true)))
                  idx info;
  Done (with_info self info).

End CreateInfo.

(** ** [_set_lanes] *)

(** The body of [for i, point in enumerate(self.track)]: the state is
    [(rm_lane, lane, info, np.random)]. *)
Definition set_lane (changes : list Z) (st : Z * Z * list SegmentInfo * RandomState)
    (i : nat) : outcome (Z * Z * list SegmentInfo * RandomState) :=
  let '(rm_lane, lane, info, gl) := st in
  let change := existsb (Z.eqb (Z.of_nat i)) changes in
  let rm_lane := ((rm_lane + (if change then 1 else 0)) mod 2)%Z in
  '(lane, gl) ← (if change && (rm_lane =? 1)%Z then randint gl 0 2 else Done (lane, gl));
  row ← or_raise (py_get info (Z.of_nat i));
  info ← (if (rm_lane =? 0)%Z then Done info
          else lanes ← or_raise (py_set (i_lanes row) lane false);
               or_raise (py_set info (Z.of_nat i) (set_i_lanes lanes row)));
  row ← or_raise (py_get info (Z.of_nat i));
  let rm_lane := if i_end row || i_start row then 0%Z else rm_lane in
  Done (rm_lane, lane, info, gl).

(** [_set_lanes]: [gl] is the process-wide source [np.random]. *)
Definition _set_lanes (self : Env) (gl : RandomState) : outcome (Env * RandomState) :=
  if ((0 <? num_lanes_changes self) && (1 <? num_lanes self))%Z then
    '(changes, g) ← randint_size (np_random self) 0 (Z.of_nat (length (track self)))
                                 (Z.to_nat (num_lanes_changes self));
    '(_, _, info, gl) ← for_each (set_lane changes) (seq 0 (length (track self)))
                                 (0%Z, 0%Z, info self, gl);
    Done (with_info (with_np_random self g) info, gl)
  else Done (self, gl).

(** ** Border flags (in [_create_track]) *)

(** The test of the first loop at index [i]: the last [BORDER_MIN_COUNT]
    segments all turn by more than [TRACK_TURN_RATE*0.2], to the same side. *)
Definition border_window (track : Track) (i : nat) : outcome bool :=
  '(good, oneside) ←
    for_each
      (fun st neg =>
         let '(good, oneside) := st in
         s ← or_raise (py_get track (Z.of_nat i - Z.of_nat neg));
         let beta1 := tp_beta (snd s) in
         let beta2 := tp_beta (fst s) in
         Done (good && Qgtb (Qabs (beta1 - beta2)) (TRACK_TURN_RATE * 0.2),
               oneside + np_sign (beta1 - beta2)))
      (seq 0 BORDER_MIN_COUNT) (true, 0);
  Done (good && Qeq_bool (Qabs oneside) (inject_Z (Z.of_nat BORDER_MIN_COUNT))).

(** The first loop, [for i in range(1, len(track))]. *)
Definition border_detect (track : Track) : outcome (list bool) :=
  for_each
    (fun border i =>
       good ← border_window track i;
       or_raise (py_set border (Z.of_nat i) good))
    (seq 1 (length track - 1)) (replicate (length track) false).

(** [border[i-neg] |= border[i]] *)
Definition border_spread (i : nat) (border : list bool) (neg : nat) : outcome (list bool) :=
  old ← or_raise (py_get border (Z.of_nat i - Z.of_nat neg));
  flag ← or_raise (py_get border (Z.of_nat i));
  or_raise (py_set border (Z.of_nat i - Z.of_nat neg) (old || flag)).

(** The second loop, [for i in range(len(track))]. *)
Definition border_extend (border : list bool) : outcome (list bool) :=
  for_each (fun border i => for_each (border_spread i) (seq 0 BORDER_MIN_COUNT) border)
           (seq 0 (length border)) border.

(** The border flags of one track. *)
Definition track_border (track : Track) : outcome (list bool) :=
  border ← border_detect track;
  border_extend border.

(** ** [_create_track] *)

(** What [_create_track] computes besides the fields of the environment: the
    border flags of each track and the obstacle draw of each tile. *)
Record Decoration : Type := mkDecoration {
  d_borders : list (list bool);
  d_obstacles : list Z
}.

Section CreateTrack.
Context {M : MathLib}.

(** [for _ in range(self.num_tracks)]: [None] when a track came out falsy. *)
Fixpoint build_tracks (fuel : nat) (count : nat) (self : Env) (acc : list Track)
  : outcome (option (list Track) * Env) :=
  match count with
  | O => Done (Some acc, self)
  | S count' =>
      '(t, self) ← _get_track fuel (900 / SCALE) self;
      match t with
      | None | Some [] => Done (None, self)
      | Some t => build_tracks fuel count' self (acc ++ [t])
      end
  end.

(** The obstacle draws of the tile loop, one per segment, from [np.random]. *)
Definition draw_obstacles (p : Q) (n : nat) (gl : RandomState)
  : outcome (list Z * RandomState) :=
  for_each (fun (st : list Z * RandomState) (_ : nat) =>
              let '(acc, gl) := st in
              '(o, gl) ← binomial1 gl p; Done (acc ++ [o], gl))
           (seq 0 n) ([], gl).

(** [_create_track]: the success flag, the environment, [np.random] and the
    decoration. *)
Definition _create_track (fuel : nat) (self : Env) (gl : RandomState)
  : outcome (bool * Env * RandomState * Decoration) :=
  '(ts, self) ← build_tracks fuel (Z.to_nat (num_tracks self)) self [];
  match ts with
  | None => Done (false, self, gl, mkDecoration [] [])
  | Some ts =>
      let self := with_tracks self ts (intersections self) in
      self ← _remove_roads self;
      let self := with_track self (concat (tracks self)) in
      self ← _create_info self;
      '(self, gl) ← _set_lanes self gl;
      borders ← for_each (fun acc t => b ← track_border t; Done (acc ++ [b]))
                         (tracks self) [];
      '(obstacles, gl) ← draw_obstacles (prob_obstacle self) (length (track self)) gl;
      Done (true, self, gl, mkDecoration borders obstacles)
  end.

(** ** [get_rnd_point_in_track] *)

Definition bool_Q (b : bool) : Q := if b then 1 else 0.

Definition x_from (alpha : Q) (border l : bool) : Q :=
  - TRACK_WIDTH * bool_Q l + math_cos alpha * bool_Q border * TRACK_WIDTH / 3.5.

Definition x_to (alpha : Q) (border r : bool) : Q :=
  TRACK_WIDTH * bool_Q r - math_sin alpha * bool_Q border * TRACK_WIDTH / 3.5.

(** The result [[beta, x, y]], with the lateral offset that was added to [x],
    the segment chosen and the two sources after their draws. *)
Definition get_rnd_point_in_track (self : Env) (gl : RandomState) (border : bool)
  : outcome ((Q * Q * Q) * Q * nat * Env * RandomState) :=
  '(idx, g) ← randint (np_random self) 0 (Z.of_nat (length (track self)));
  s ← or_raise (py_get (track self) idx);
  let p := snd s in
  row ← or_raise (py_get (info self) idx);
  match i_lanes row with
  | [r; l] =>
      let '(offset, gl) := uniform gl (x_from (tp_alpha p) border l)
                                      (x_to (tp_alpha p) border r) in
      Done ((tp_beta p, tp_x p + offset, tp_y p), offset, Z.to_nat idx,
            with_np_random self g, gl)
  | _ => Raised
  end.

End CreateTrack.

(** * The contact listener, [step] and the tiles

    The physics engine is outside of the file: what [world.Step] does to the
    environment is the sequence of contacts it reports to the listener, and
    the position it leaves the hull at; both are inputs of [step]. *)

Definition PLAYFIELD : Q := 2000 / SCALE.
Definition FPS : Q := 50.
Definition ROAD_COLOR : list Q := [0.4; 0.4; 0.4].

(** ** [FrictionDetector] *)

(** An object that a body carries as [userData].  [road_friction] and
    [tiles] are [None] when the object has no such attribute; [tiles] is the
    set of the tiles under the object, by their identity. *)
Record UserData : Type := mkUserData {
  road_friction : option Q;
  road_visited : bool;
  color : list Q;
  tiles : option (list nat)
}.

(** The fields of the environment the listener and [step] read and write,
    and the objects of the world, an object being known by its position in
    [objects]. *)
Record Game : Type := mkGame {
  env : Env;
  objects : list UserData;
  reward : Q;
  prev_reward : Q;
  tile_visited_count : Z;
  t : Q
}.

Definition with_objects (s : Game) (objs : list UserData) : Game :=
  mkGame (env s) objs (reward s) (prev_reward s) (tile_visited_count s) (t s).

Definition set_color (c : list Q) (o : UserData) : UserData :=
  mkUserData (road_friction o) (road_visited o) c (tiles o).
Definition set_road_visited (v : bool) (o : UserData) : UserData :=
  mkUserData (road_friction o) v (color o) (tiles o).
Definition set_tiles (ts : list nat) (o : UserData) : UserData :=
  mkUserData (road_friction o) (road_visited o) (color o) (Some ts).

(** [u and "road_friction" in u.__dict__], [u] being [None] or an object. *)
Definition has_road_friction (objs : list UserData) (u : option nat) : outcome bool :=
  match u with
  | None => Done false
  | Some k => o ← or_raise (objs !! k); Done (bool_decide (is_Some (road_friction o)))
  end.

(** [set.add] and [set.remove], the latter a KeyError on a missing element. *)
Definition set_add (k : nat) (ts : list nat) : list nat :=
  if bool_decide (k ∈ ts) then ts else k :: ts.

Definition set_remove (k : nat) (ts : list nat) : option (list nat) :=
  if bool_decide (k ∈ ts) then Some (List.filter (fun j => negb (j =? k)%nat) ts) else None.

(** [tile.color[i] = ROAD_COLOR[i]] for [i] in 0, 1, 2. *)
Definition road_colored (c : list Q) : option (list Q) :=
  c ← py_set c 0 0.4; c ← py_set c 1 0.4; py_set c 2 0.4.

(** [_contact(contact, begin)]: [u1] and [u2] are the [userData] of the two
    bodies of the contact. *)
Definition _contact (s : Game) (u1 u2 : option nat) (begin : bool) : outcome Game :=
  f1 ← has_road_friction (objects s) u1;
  f2 ← has_road_friction (objects s) u2;
  let '(tile, obj) := if (f1 : bool) then (u1, u2) else (None, None) in
  let '(tile, obj) := if (f2 : bool) then (u2, u1) else (tile, obj) in
  match tile with
  | None => Done s
  | Some k =>
      tl ← or_raise (objects s !! k);
      c ← or_raise (road_colored (color tl));
      let s := with_objects s (<[k := set_color c tl]> (objects s)) in
      match obj with
      | None => Done s
      | Some o =>
          ob ← or_raise (objects s !! o);
          match tiles ob with
          | None => Done s
          | Some ts =>
              if begin then
                let s := with_objects s (<[o := set_tiles (set_add k ts) ob]> (objects s)) in
                tl ← or_raise (objects s !! k);
                if negb (road_visited tl) then
                  if (length (track (env s)) =? 0)%nat then Raised
                  else
                    Done (mkGame (env s) (<[k := set_road_visited true tl]> (objects s))
                                 (reward s + 1000.0 / inject_Z (Z.of_nat (length (track (env s)))))
                                 (prev_reward s) (tile_visited_count s + 1) (t s))
                else Done s
              else
                ts ← or_raise (set_remove k ts);
                Done (with_objects s (<[o := set_tiles ts ob]> (objects s)))
          end
      end
  end.

Definition BeginContact (s : Game) (u1 u2 : option nat) : outcome Game := _contact s u1 u2 true.
Definition EndContact (s : Game) (u1 u2 : option nat) : outcome Game := _contact s u1 u2 false.

(** ** [step] *)

(** What the engine does in one [world.Step]: the contacts it reports, in
    order, a contact being the two [userData] and whether it begins, and the
    position of the hull afterwards. *)
Record WorldStep : Type := mkWorldStep {
  contacts : list (option nat * option nat * bool);
  hull_position : Q * Q
}.

Definition report (s : Game) (c : option nat * option nat * bool) : outcome Game :=
  let '(u1, u2, begin) := c in
  if begin then BeginContact s u1 u2 else EndContact s u1 u2.

(** [step(action)]: the result is the environment, [step_reward] and
    [done]. *)
Definition step (s : Game) (action : option (Q * Q * Q)) (w : WorldStep)
  : outcome (Game * Q * bool) :=
  s ← for_each report (contacts w) s;
  let s := mkGame (env s) (objects s) (reward s) (prev_reward s) (tile_visited_count s)
                  (t s + 1.0 / FPS) in
  let step_reward := 0 in
  let done := false in
  match action with
  | None => Done (s, step_reward, done)
  | Some _ =>
      let s := mkGame (env s) (objects s) (reward s - 0.1) (prev_reward s)
                      (tile_visited_count s) (t s) in
      let step_reward := reward s - prev_reward s in
      let s := mkGame (env s) (objects s) (reward s) (reward s)
                      (tile_visited_count s) (t s) in
      let done := if (tile_visited_count s =? Z.of_nat (length (track (env s))))%Z
                  then true else done in
      let '(x, y) := hull_position w in
      if Qgtb (Qabs x) PLAYFIELD || Qgtb (Qabs y) PLAYFIELD
      then Done (s, -100, true)
      else Done (s, step_reward, done)
  end.

(** The inner loop of the main program: [frames] is what the engine does
    frame after frame while [restart] stays unset; the result is the
    environment, [total_reward], [steps] and whether the loop left on
    [done]. *)
Fixpoint play (s : Game) (a : Q * Q * Q) (frames : list WorldStep) (total_reward : Q)
    (steps : nat) : outcome (Game * Q * nat * bool) :=
  match frames with
  | [] => Done (s, total_reward, steps, false)
  | w :: frames' =>
      '(s, r, done) ← step s (Some a) w;
      let total_reward := total_reward + r in
      let steps := S steps in
      if (done : bool) then Done (s, total_reward, steps, true)
      else play s a frames' total_reward steps
  end.

(** ** The tiles (in [_create_track]) *)

(** A polygon by its vertices, and the four corners [road1_l], [road1_r],
    [road2_l], [road2_r] of the tile being built. *)
Abbreviation Polygon := (list XY).
Abbreviation Quad := (XY * XY * XY * XY)%type.

(** What the tile loop builds: [self.road_poly]; [self.road], a tile being
    its attributes, the polygon of its fixture and its [obstacle]; and the
    four corners, which are locals of [_create_track] and unbound until a
    round assigns them. *)
Record Tiles : Type := mkTiles {
  road_poly : list (Polygon * list Q);
  road : list (UserData * Polygon * Z);
  corners : option Quad
}.

(** [np.where(self.info['track'] == track_id)[0]] *)
Definition rows_of_track (info : list SegmentInfo) (track_id : Z) : list nat :=
  np_where (fun row => (i_track row =? track_id)%Z) info.

(** Whether the tile of [lane] on the row [j] is the first of its lane:
    lines 421-429. *)
Definition first_of_lane (info : list SegmentInfo) (j lane : nat) : outcome bool :=
  row ← or_raise (py_get info (Z.of_nat j));
  prev ← or_raise (py_get info (Z.of_nat j - 1));
  if (i_track prev =? i_track row)%Z then
    present ← or_raise (py_get (i_lanes prev) (Z.of_nat lane));
    Done (negb present)
  else
    let rows := rows_of_track info (i_track row) in
    lowest ← or_raise (head rows);
    if (lowest =? j)%nat then
      k ← or_raise (last rows);
      closing ← or_raise (info !! k);
      present ← or_raise (py_get (i_lanes closing) (Z.of_nat lane));
      Done (negb present)
    else Done false.

(** Whether it is the last of its lane: lines 430-438. *)
Definition last_of_lane (info : list SegmentInfo) (j lane : nat) : outcome bool :=
  row ← or_raise (py_get info (Z.of_nat j));
  if (length info =? 0)%nat then Raised
  else
    next ← or_raise (info !! (S j mod length info)%nat);
    if (i_track next =? i_track row)%Z then
      present ← or_raise (py_get (i_lanes next) (Z.of_nat lane));
      Done (negb present)
    else
      let rows := rows_of_track info (i_track row) in
      highest ← or_raise (last rows);
      if (highest =? j)%nat then
        k ← or_raise (head rows);
        opening ← or_raise (info !! k);
        present ← or_raise (py_get (i_lanes opening) (Z.of_nat lane));
        Done (negb present)
      else Done false.

(** Box2D is not among the sources.  What the tile loop needs of it is
    whether [polygonShape(vertices = ...)] builds a shape of the vertices it
    is given, or raises, as it does for vertices that span no polygon. *)
Class Box2D : Type := {
  polygonShape : Polygon -> bool
}.

(** The four corners of lines 440-443, [p1] being [track[j][1]] and [p2]
    [track[j][0]]. *)
Section Tiles.
Context {M : MathLib} {B : Box2D}.

Definition tile_corners (r l : Z) (first last : bool) (p1 p2 : TrackPoint) : Quad :=
  let r := inject_Z r in
  let l := inject_Z l in
  let road1_l := (tp_x p1 - (1 - bool_Q last) * l * TRACK_WIDTH * math_cos (tp_beta p1),
                  tp_y p1 - (1 - bool_Q last) * l * TRACK_WIDTH * math_sin (tp_beta p1)) in
  let road1_r := (tp_x p1 + (1 - bool_Q last) * r * TRACK_WIDTH * math_cos (tp_beta p1),
                  tp_y p1 + (1 - bool_Q last) * r * TRACK_WIDTH * math_sin (tp_beta p1)) in
  let road2_l := (tp_x p2 - (1 - bool_Q first) * l * TRACK_WIDTH * math_cos (tp_beta p2),
                  tp_y p2 - (1 - bool_Q first) * l * TRACK_WIDTH * math_sin (tp_beta p2)) in
  let road2_r := (tp_x p2 + (1 - bool_Q first) * r * TRACK_WIDTH * math_cos (tp_beta p2),
                  tp_y p2 + (1 - bool_Q first) * r * TRACK_WIDTH * math_sin (tp_beta p2)) in
  (road1_l, road1_r, road2_l, road2_r).

(** The two polygons of an obstacle, lines 493-507. *)
Definition obstacle_polys (p1 p2 : TrackPoint) : list (Polygon * list Q) :=
  let x := (tp_x p1 + tp_x p2) / 2 in
  let y := (tp_y p1 + tp_y p2) / 2 + TRACK_WIDTH * math_sin (tp_beta p1) / 2 in
  [([(x + 0.1, y + 0.4); (x - 0.1, y + 0.4); (x - 0.4, y - 0.4); (x + 0.4, y - 0.4)],
    [1; 0.5; 0.3]);
   ([(x + 0.5, y - 0.4); (x - 0.5, y - 0.4); (x - 0.5, y - 0.6); (x + 0.5, y - 0.6)],
    [1; 0.5; 0.3])].

(** One round of [for lane in range(self.num_lanes)] on the row [j].  The
    corners are assigned on a row that is neither an end nor a start
    (the other branch is [elif False]) and read in every case, for the
    vertices of the shape Box2D is asked to build; the loop variable [i] of
    the border loops, read for [c], is bound when some track has a
    segment. *)
Definition lane_tile (self : Env) (j : nat) (obstacle : Z) (p1 p2 : TrackPoint)
    (st : Tiles) (lane : nat) : outcome Tiles :=
  row ← or_raise (py_get (info self) (Z.of_nat j));
  present ← or_raise (py_get (i_lanes row) (Z.of_nat lane));
  if negb present then Done st
  else
    let r := (1 - (Z.of_nat lane + 1) mod num_lanes self)%Z in
    let l := (1 - (Z.of_nat lane + 2) mod num_lanes self)%Z in
    q ← (if negb (i_end row) && negb (i_start row) then
           first ← first_of_lane (info self) j lane;
           last ← last_of_lane (info self) j lane;
           Done (Some (tile_corners r l first last p1 p2))
         else Done (corners st));
    '(road1_l, road1_r, road2_l, road2_r) ← or_raise q;
    let poly := [road1_l; road1_r; road2_r; road2_l] in
    if negb (polygonShape poly) then Raised
    else if negb (existsb (fun t : Track => negb (length t =? 0)%nat) (tracks self)) then Raised
    else
      let t := mkUserData (Some 1.0) false [0.4; 0.4; 0.4] None in
      let polys := road_poly st ++ [(poly, color t)] in
      let polys := if (obstacle =? 1)%Z then polys ++ obstacle_polys p1 p2 else polys in
      Done (mkTiles polys (road st ++ [(t, poly, obstacle)]) q).

(** One round of [for j in range(len(self.track))]; [obstacles] holds the
    draw of each row (see [draw_obstacles]). *)
Definition row_tiles (self : Env) (obstacles : list Z) (st : Tiles) (j : nat)
  : outcome Tiles :=
  obstacle ← or_raise (obstacles !! j);
  s ← or_raise (py_get (track self) (Z.of_nat j));
  for_each (lane_tile self j obstacle (snd s) (fst s)) (seq 0 (Z.to_nat (num_lanes self))) st.

(** The tile loop, lines 405-507, entered with the border polygons in
    [self.road_poly], an empty [self.road] and the corners unbound. *)
Definition create_tiles (self : Env) (obstacles : list Z) (border_polys : list (Polygon * list Q))
  : outcome Tiles :=
  for_each (row_tiles self obstacles) (seq 0 (length (track self)))
           (mkTiles border_polys [] None).

End Tiles.

(** ** [render] *)

Definition ZOOM : Q := 2.7.

(** The scale [render] gives the view at the time [t] of the environment:
    the zoom is animated over the first second. *)
Definition render_zoom (t : Q) : Q :=
  0.1 * SCALE * Qmax (1 - t) 0 + ZOOM * SCALE * Qmin t 1.
(** * Vocabulary of the statements *)

(** ** Crossings of the start angle *)

(** The walk crosses the start angle at index [i]: [alpha] is above
    [start_alpha] at [i] and not above it at [i-1]. *)
Definition crossing (track : list TrackPoint) (sa : Q) (i : nat) : bool :=
  match track !! i, track !! (i - 1)%nat with
  | Some p, Some q => (1 <=? i)%nat && Qgtb (tp_alpha p) sa && Qle_bool (tp_alpha q) sa
  | _, _ => false
  end.

(** The crossing indices below [i], in increasing order. *)
Definition crossings_below (track : list TrackPoint) (sa : Q) (i : nat) : list nat :=
  List.filter (crossing track sa) (seq 1 (i - 1)).

Definition crossings (track : list TrackPoint) (sa : Q) : list nat :=
  crossings_below track sa (length track).

(** The two last entries of a list of indices. *)
Definition last_two (cs : list nat) : option (Z * Z) :=
  match reverse cs with
  | i2 :: i1 :: _ => Some (Z.of_nat i1, Z.of_nat i2)
  | _ => None
  end.


(** ** The closure of a loop *)

Section ClosureVocabulary.
Context {M : MathLib}.


End ClosureVocabulary.

(** ** Lane presence *)

(** The three states of the [lanes] list of a segment in which a lane is
    present. *)
Definition lanes_ok (row : SegmentInfo) : Prop :=
  i_lanes row = [true; true] \/ i_lanes row = [false; true] \/ i_lanes row = [true; false].

(** The invariant of the loop of [_set_lanes] before the round [i]: the lane
    to drop is 0 or 1, the rows already visited have a lane left, the rows
    still to come are untouched. *)
Definition lanes_invariant (i : nat) (st : Z * Z * list SegmentInfo * RandomState) : Prop :=
  let '(_, lane, info, _) := st in
  (lane = 0 \/ lane = 1)%Z /\
  forall (k : nat) (row : SegmentInfo), info !! k = Some row ->
    ((k < i)%nat -> lanes_ok row) /\ ((i <= k)%nat -> i_lanes row = [true; true]).

(** ** Border flags *)

(** A list of flags [b'] keeps every flag that is set in [b]. *)
Definition keeps_flags (b b' : list bool) : Prop :=
  length b' = length b /\
  forall k : nat, b !! k = Some true -> b' !! k = Some true.

(** The flags are closed under the extend-backward rule: with a flag, the
    flags of the [BORDER_MIN_COUNT - 1] segments before it are set. *)
Definition extend_backward_closed (border : list bool) : Prop :=
  forall i : nat, border !! i = Some true ->
    forall neg : nat, (neg < BORDER_MIN_COUNT)%nat ->
      py_get border (Z.of_nat i - Z.of_nat neg) = Some true.

(** ** What a call returned *)

(** The [info] array of an environment a call returned, empty when it did
    not return. *)
Definition info_of (o : outcome Env) : list SegmentInfo :=
  match o with
  | Done self => info self
  | _ => []
  end.

(** The [lanes] column a call of [_set_lanes] left, empty when it did not
    return. *)
Definition lanes_of (o : outcome (Env * RandomState)) : list (list bool) :=
  match o with
  | Done (self, _) => i_lanes <$> info self
  | _ => []
  end.

(** The lateral offset a call of [get_rnd_point_in_track] added to [x]. *)
Definition offset_of (o : outcome ((Q * Q * Q) * Q * nat * Env * RandomState)) : option Q :=
  match o with
  | Done (_, offset, _, _, _) => Some offset
  | _ => None
  end.

(** Two offsets were returned and are different numbers. *)
Definition offsets_differ (o1 o2 : option Q) : bool :=
  match o1, o2 with
  | Some a, Some b => negb (Qeq_bool a b)
  | _, _ => false
  end.

(** An offset was returned and lies strictly below [bound]. *)
Definition offsets_below (o : option Q) (bound : Q) : bool :=
  match o with
  | Some a => Qltb a bound
  | None => false
  end.

(** ** The path walker *)

Section WalkerVocabulary.
Context {M : MathLib}.

(** The locals of the walk after [k] iterations of the outer loop. *)
Fixpoint walker_after (fuel : nat) (checkpoints : list Checkpoint) (k : nat) (s : Walker)
  : outcome Walker :=
  match k with
  | O => Done s
  | S k' => '(s', _) ← walk_step fuel checkpoints s; walker_after fuel checkpoints k' s'
  end.

End WalkerVocabulary.

(** * Vocabulary of the further properties *)

(** ** The checkpoint sampler *)

Section SamplerVocabulary.
Context {M : MathLib}.

(** The checkpoint [cp] is a legitimate [k]-th checkpoint for the nominal
    radius [rad0]: its angle lies in the [k]-th twelfth of the turn, at [0]
    for the first checkpoint and at [2*pi*11/12] for the last, and it sits
    at that angle on a circle of radius [1.5*rad0] for these two pinned
    checkpoints, of a radius between [rad0/3] and [rad0] for the others. *)
Definition checkpoint_ok (rad0 : Q) (k : nat) (cp : Checkpoint) : Prop :=
  2 * pi * inject_Z (Z.of_nat k) / 12 <= cp_alpha cp /\
  cp_alpha cp < 2 * pi * (inject_Z (Z.of_nat k) + 1) / 12 /\
  (k = 0%nat -> cp_alpha cp = 0) /\
  (k = 11%nat -> cp_alpha cp = 2 * pi * 11 / 12) /\
  exists rad : Q,
    cp_x cp = rad * math_cos (cp_alpha cp) /\
    cp_y cp = rad * math_sin (cp_alpha cp) /\
    ((k = 0 \/ k = 11)%nat -> rad = 1.5 * rad0) /\
    ((0 < k < 11)%nat -> 0 <= rad0 -> rad0 / 3 <= rad /\ rad <= rad0).

End SamplerVocabulary.


(** A track is a closed ring when it has a segment and every segment starts
    at the point where the segment before it ends, the one before the first
    being the last. *)
Definition closed_ring (t : Track) : Prop :=
  t <> [] /\
  forall (i : nat) (s : Segment), t !! i = Some s ->
    exists s0 : Segment,
      t !! ((i + length t - 1) mod length t)%nat = Some s0 /\ snd s0 = fst s.

(** The fields of the environment that track generation leaves alone. *)
Definition same_layout (self self' : Env) : Prop :=
  num_lanes_changes self' = num_lanes_changes self /\
  num_tracks self' = num_tracks self /\
  num_lanes self' = num_lanes self /\
  prob_obstacle self' = prob_obstacle self /\
  tracks self' = tracks self /\ track self' = track self /\
  info self' = info self /\ intersections self' = intersections self.

(** The tests of [_create_info] on the segment [j] of a track: it does not
    end where the next one starts; failing that, it does not start where
    the one before it ends. *)
Definition is_end (t : Track) (j : nat) : bool :=
  match t !! j, t !! (S j mod length t)%nat with
  | Some p, Some next_p => negb (point_equal (snd p) (fst next_p))
  | _, _ => false
  end.

Definition is_start (t : Track) (j : nat) : bool :=
  match t !! j, t !! ((j + length t - 1) mod length t)%nat with
  | Some p, Some last_p => negb (is_end t j) && negb (point_equal (fst p) (snd last_p))
  | _, _ => false
  end.

(** ** Lanes *)

(** The rows of [info'] are those of [info] but for their [lanes] field. *)
Definition lanes_only (info info' : list SegmentInfo) : Prop :=
  length info' = length info /\
  forall (k : nat) (row row' : SegmentInfo),
    info !! k = Some row -> info' !! k = Some row' ->
    row' = set_i_lanes (i_lanes row') row.

(** A row the lanes pass has no reason to touch: its index is not drawn,
    and either every drawn index comes after it or the row before it is an
    end or a start. *)
Definition quiet (changes : list Z) (info : list SegmentInfo) (k : nat) : Prop :=
  ~ In (Z.of_nat k) changes /\
  ((forall c : Z, In c changes -> (Z.of_nat k < c)%Z) \/
   exists r : SegmentInfo,
     (0 < k)%nat /\ info !! (k - 1)%nat = Some r /\ i_end r || i_start r = true).

(** The invariant of the loop of [_set_lanes] before the round [i], for the
    frame of the pass: what it may have written, what it has not reached,
    when no lane is being removed, and how far the process-wide source
    went. *)
Definition lanes_frame (changes : list Z) (info : list SegmentInfo) (gl : RandomState)
    (i : nat) (st : Z * Z * list SegmentInfo * RandomState) : Prop :=
  let '(rm_lane, _, info', gl') := st in
  lanes_only info info' /\
  (forall k : nat, (i <= k)%nat -> info' !! k = info !! k) /\
  ((forall c : Z, In c changes -> (Z.of_nat i <= c)%Z) -> rm_lane = 0%Z) /\
  (forall r : SegmentInfo,
     (0 < i)%nat -> info !! (i - 1)%nat = Some r -> i_end r || i_start r = true ->
     rm_lane = 0%Z) /\
  (forall k : nat, (k < i)%nat -> quiet changes info k -> info' !! k = info !! k) /\
  exists m : nat, (m <= i)%nat /\ forall n : nat, gl' n = gl (m + n)%nat.

(** ** Scoring *)

(** The number of objects marked as visited. *)
Definition visited_tiles (s : Game) : nat :=
  length (List.filter road_visited (objects s)).

(** The hull is beyond the playfield after the frame. *)
Definition outside (w : WorldStep) : bool :=
  Qgtb (Qabs (fst (hull_position w))) PLAYFIELD ||
  Qgtb (Qabs (snd (hull_position w))) PLAYFIELD.

(** The reward of one tile. *)
Definition tile_reward (s : Game) : Q :=
  1000.0 / inject_Z (Z.of_nat (length (track (env s)))).

(** ** Tiles *)

(** The number of lanes a row has among the first [n]. *)
Definition lanes_present (n : nat) (row : SegmentInfo) : nat :=
  length (List.filter id (take n (i_lanes row))).

(** The polygon of four corners, in the order of the vertices. *)
Definition corners_polygon (q : Quad) : Polygon :=
  let '(road1_l, road1_r, road2_l, road2_r) := q in [road1_l; road1_r; road2_r; road2_l].

(** The attributes of a tile just created. *)
Definition fresh_tile : UserData := mkUserData (Some 1.0) false [0.4; 0.4; 0.4] None.

(** The invariant of the tile loop: the corners are those of the last tile
    made, and unbound while there is none. *)
Definition corners_of_last (st : Tiles) : Prop :=
  match last (road st) with
  | None => corners st = None
  | Some tile => exists q : Quad, corners st = Some q /\ snd (fst tile) = corners_polygon q
  end.

Section TileVocabulary.
Context {M : MathLib} {B : Box2D}.

(** The corners, when bound, are those of a shape Box2D has built. *)
Definition corners_built (st : Tiles) : Prop :=
  forall q : Quad, corners st = Some q -> polygonShape (corners_polygon q) = true.

(** Box2D refuses the shape of a tile of the track: the quad of some
    segment, for a lane of the configuration and some values of [first] and
    [last]. *)
Definition refused_tile (self : Env) : Prop :=
  exists (j lane : nat) (s : Segment) (first last : bool),
    track self !! j = Some s /\ (lane < Z.to_nat (num_lanes self))%nat /\
    polygonShape
      (corners_polygon
         (tile_corners (1 - (Z.of_nat lane + 1) mod num_lanes self)
                       (1 - (Z.of_nat lane + 2) mod num_lanes self)
                       first last (snd s) (fst s))) = false.

End TileVocabulary.

(** The unit sample [u] draws an obstacle at the probability [p]: the
    sample is compared with the smaller of [p] and [1 - p]. *)
Definition draws_obstacle (p u : Q) : Prop :=
  (p <= 0.5 /\ 1 - p < u) \/ (0.5 < p /\ u <= p).

(** ** Configuration *)

(** The ranges [set_config] accepts, which [__init__] starts in. *)
Definition valid_config (self : Env) : Prop :=
  (num_tracks self = 1 \/ num_tracks self = 2)%Z /\
  (num_lanes self = 1 \/ num_lanes self = 2)%Z /\
  (0 <= num_lanes_changes self)%Z /\
  0 <= prob_obstacle self /\ prob_obstacle self <= 1.

(** The [lanes] of a row that lost the lane [lane]. *)
Definition without_lane (lane : Z) : list bool :=
  if (lane =? 0)%Z then [false; true] else [true; false].

(** The invariant of the loop of [_set_lanes] before the round [i], for the
    side of the lane removed: while a lane is being removed the row before
    has lost the lane [lane], and a row that was not drawn and has lost a
    lane has lost the one the row before it lost. *)
Definition lanes_side (changes : list Z) (info : list SegmentInfo) (i : nat)
    (st : Z * Z * list SegmentInfo * RandomState) : Prop :=
  let '(rm_lane, lane, info', _) := st in
  (rm_lane = 0 \/ rm_lane = 1)%Z /\ (lane = 0 \/ lane = 1)%Z /\
  (forall k : nat, (i <= k)%nat -> info' !! k = info !! k) /\
  (rm_lane = 1%Z ->
   exists row : SegmentInfo,
     (0 < i)%nat /\ info' !! (i - 1)%nat = Some row /\ i_lanes row = without_lane lane) /\
  (forall (k : nat) (row row' : SegmentInfo),
     (S k < i)%nat -> ~ In (Z.of_nat (S k)) changes ->
     info' !! k = Some row -> info' !! S k = Some row' ->
     i_lanes row' <> [true; true] -> i_lanes row' = i_lanes row).
(** * Sample inputs *)

(** The value [_get_track] stores in [self.start_alpha]. *)
Definition sample_start_alpha : Q := 2 * pi * (-0.5) / 12.

(** A raw walk of six points that passes the start angle twice, at the
    indices 1 and 4. *)
Definition q0 : TrackPoint := mkPoint (-0.5) 0 10 (-5).
Definition q1 : TrackPoint := mkPoint 0.5 0.1 10 5.
Definition q2 : TrackPoint := mkPoint 2 0.2 (-4) 9.
Definition q3 : TrackPoint := mkPoint (-0.4) 0.3 9 (-4).
Definition q4 : TrackPoint := mkPoint 0.6 0.4 9 6.
Definition q5 : TrackPoint := mkPoint 2.1 0.5 (-5) 8.

(** A small rational math library, to run the model on concrete inputs:
    [cos] and [sin] by their Taylor polynomials, [atan2] by the rational
    approximation [t / (1 + 0.28 t^2)] of the arc tangent on each octant,
    [sqrt] by five rounds of Heron's iteration. *)
Definition series_cos (x : Q) : Q :=
  1 - x^2 / 2 + x^4 / 24 - x^6 / 720 + x^8 / 40320 - x^10 / 3628800
  + x^12 / 479001600.

Definition series_sin (x : Q) : Q :=
  x - x^3 / 6 + x^5 / 120 - x^7 / 5040 + x^9 / 362880 - x^11 / 39916800
  + x^13 / 6227020800.

Definition octant_atan (t : Q) : Q := t / (1 + 0.28 * t * t).

Definition octant_atan2 (y x : Q) : Q :=
  if Qeq_bool x 0 && Qeq_bool y 0 then 0
  else if Qle_bool (Qabs y) (Qabs x) then
    if Qltb 0 x then octant_atan (y / x)
    else if Qle_bool 0 y then octant_atan (y / x) + pi
    else octant_atan (y / x) - pi
  else
    if Qltb 0 y then pi / 2 - octant_atan (x / y)
    else - (pi / 2) - octant_atan (x / y).

Fixpoint heron (rounds : nat) (a x : Q) : Q :=
  match rounds with
  | O => x
  | S rounds' => heron rounds' a (Qred ((x + a / x) / 2))
  end.

Definition heron_sqrt (a : Q) : Q :=
  if Qle_bool a 0 then 0 else heron 5 a (if Qle_bool a 1 then 1 else Qred (a / 2)).

Definition series_math : MathLib :=
  {| math_cos := series_cos; math_sin := series_sin;
     math_atan2 := octant_atan2; np_sqrt := heron_sqrt |}.


(** Two closed tracks, of two and three segments, and an environment that
    holds them: the configuration is the one [__init__] sets. *)
Definition sample_track0 : Track := [(q2, q1); (q1, q2)].
Definition sample_track1 : Track := [(q5, q3); (q3, q4); (q4, q5)].

(** Two generators: one keeps producing the word 0, the other the odd word
    2^52 + 1, whose unit sample is just above one half. *)
Definition zero_source : RandomState := fun _ => 0%N.
Definition odd_source : RandomState := fun _ => (2 ^ 52 + 1)%N.

Definition sample_env : Env :=
  {| num_lanes_changes := 3; num_tracks := 2; num_lanes := 2; prob_obstacle := 0.1;
     np_random := zero_source; start_alpha := sample_start_alpha;
     tracks := [sample_track0; sample_track1];
     track := sample_track0 ++ sample_track1;
     info := []; intersections := [] |}.

(** The sample environment after [_create_info], and after [_set_lanes]
    with the odd generator as the process-wide source. *)
Definition sample_info_env : Env :=
  match _create_info (M := series_math) sample_env with
  | Done self => self
  | _ => sample_env
  end.

Definition sample_lanes_env : Env :=
  match _set_lanes sample_info_env odd_source with
  | Done (self, _) => self
  | _ => sample_env
  end.

(** A closed track of six segments whose heading turns by 0.1, to the same
    side, on the segments 2 to 5, and not at all on segment 1. *)
Definition b0 : TrackPoint := mkPoint 0 0 10 0.
Definition b1 : TrackPoint := mkPoint 1 0 8 6.
Definition b2 : TrackPoint := mkPoint 2 0.1 0 10.
Definition b3 : TrackPoint := mkPoint 3 0.2 (-8) 6.
Definition b4 : TrackPoint := mkPoint 4 0.3 (-8) (-6).
Definition b5 : TrackPoint := mkPoint 5 0.4 0 (-10).
Definition border_track : Track :=
  [(b5, b0); (b0, b1); (b1, b2); (b2, b3); (b3, b4); (b4, b5)].

(** The twelve checkpoints the sampler draws from the generator that keeps
    producing 0, with the sample math library. *)
Definition sample_checkpoints : list Checkpoint :=
  (create_checkpoints (M := series_math) TRACK_RAD zero_source 0).1.1.

(** * Further sample inputs *)

(** A generator that keeps producing the word 3, and the sample environment
    after [_create_info] seeded with it. *)
Definition three_source : RandomState := fun _ => 3%N.

Definition sample_three_env : Env := seed sample_info_env three_source.

(** A game on the first sample track: two tiles and a wheel over no tile,
    and two frames in the playfield in which the wheel reaches the first
    tile, then leaves it for the second. *)
Definition sample_tile : UserData := mkUserData (Some 1.0) false [0.4; 0.4; 0.4] None.
Definition sample_wheel : UserData := mkUserData None false [0; 0; 0] (Some []).

Definition sample_game : Game :=
  mkGame (with_track sample_env sample_track0) [sample_tile; sample_tile; sample_wheel]
         0 0 0 0.

Definition sample_frames : list WorldStep :=
  [mkWorldStep [(Some 0%nat, Some 2%nat, true)] (1, 2);
   mkWorldStep [(Some 2%nat, Some 0%nat, false); (Some 2%nat, Some 1%nat, true)] (3, 4)].

(** A sample of Box2D's test of the vertices of a shape: a polygon is
    refused when the area its vertices enclose, by the shoelace sum, is
    zero. *)
Definition cross_xy (a b : XY) : Q := fst a * snd b - fst b * snd a.

Fixpoint shoelace_from (first : XY) (poly : Polygon) : Q :=
  match poly with
  | [] => 0
  | p :: rest =>
      match rest with
      | [] => cross_xy p first
      | q :: _ => cross_xy p q + shoelace_from first rest
      end
  end.

Definition shoelace (poly : Polygon) : Q :=
  match poly with
  | [] => 0
  | first :: _ => shoelace_from first poly
  end.

Definition sample_box2d : Box2D :=
  {| polygonShape := fun poly => negb (Qeq_bool (shoelace poly) 0) |}.

(** The sample tracks with the secondary one cut open: its two segments are
    a start and an end.  The environment after [_create_info], and the
    tiles of its first two rows. *)
Definition sample_cut_env : Env :=
  match _create_info (M := series_math)
          (with_track (with_tracks sample_env [sample_track0; [(q5, q3); (q3, q4)]] [])
                      (sample_track0 ++ [(q5, q3); (q3, q4)])) with
  | Done self => self
  | _ => sample_env
  end.

Definition sample_cut_tiles : Tiles :=
  match for_each (row_tiles (M := series_math) (B := sample_box2d) sample_cut_env
                            [0; 1; 0; 0]%Z)
                 (seq 0 2)
                 (mkTiles [] [] None) with
  | Done st => st
  | _ => mkTiles [] [] None
  end.

(** The sample game with three tiles counted, one more than its track has
    segments. *)
Definition sample_game_past : Game :=
  mkGame (env sample_game) (objects sample_game) 1500 1500 3 0.
(** * Properties *)

(** ** Python sequences *)

Lemma py_index_spec (n : nat) (i : Z) :
  py_index n i =
  if decide (0 <= i < Z.of_nat n)%Z then Some (Z.to_nat i)
  else if decide (- Z.of_nat n <= i < 0)%Z then Some (Z.to_nat (i + Z.of_nat n))
  else None.
Proof.
  unfold py_index.
  destruct (Z.leb_spec 0 i), (Z.ltb_spec i (Z.of_nat n)), (Z.ltb_spec i 0),
    (Z.leb_spec (- Z.of_nat n) i); simpl; repeat case_decide; try lia; done.
Qed.

Lemma py_index_nat (n i : nat) :
  (i < n)%nat -> py_index n (Z.of_nat i) = Some i.
Proof.
  intros Hi. rewrite py_index_spec. case_decide; [|lia]. by rewrite Nat2Z.id.
Qed.

Lemma py_index_pred (n i : nat) :
  (i < n)%nat -> py_index n (Z.of_nat i - 1) = Some ((i + n - 1) mod n)%nat.
Proof.
  intros Hi. rewrite py_index_spec. destruct i as [|i].
  - case_decide; [lia|]. case_decide; [|lia]. f_equal.
    replace (0 + n - 1)%nat with (n - 1)%nat by lia.
    rewrite Nat.mod_small by lia. lia.
  - case_decide; [|lia]. f_equal.
    replace (S i + n - 1)%nat with (i + 1 * n)%nat by lia.
    rewrite Nat.Div0.mod_add. rewrite Nat.mod_small; lia.
Qed.

Lemma py_index_lt (n : nat) (i : Z) (k : nat) :
  py_index n i = Some k -> (k < n)%nat.
Proof.
  rewrite py_index_spec. repeat case_decide; intros [= <-]; lia.
Qed.

Lemma py_get_nat {A : Type} (l : list A) (i : nat) :
  (i < length l)%nat -> py_get l (Z.of_nat i) = l !! i.
Proof. intros Hi. unfold py_get. by rewrite py_index_nat. Qed.

Lemma py_get_pred {A : Type} (l : list A) (i : nat) :
  (i < length l)%nat ->
  py_get l (Z.of_nat i - 1) = l !! ((i + length l - 1) mod length l)%nat.
Proof. intros Hi. unfold py_get. by rewrite py_index_pred. Qed.

Lemma py_set_length {A : Type} (l l' : list A) (i : Z) (x : A) :
  py_set l i x = Some l' -> length l' = length l.
Proof.
  unfold py_set. destruct (py_index (length l) i); simpl; [|done].
  intros [= <-]. apply length_insert.
Qed.

(** ** [set_config] *)

(** C10: [set_config] stores an argument exactly when it is in range
    ([num_lanes], [num_tracks] in {1, 2}; [prob_obstacle] in [0, 1];
    [num_lanes_changes >= 0]), keeps the previous value of the field
    otherwise, and touches no other field of the environment. *)
Theorem set_config_in_range_or_kept (self : Env) (nt nl nc : Z) (po : Q) :
  let self' := set_config self nt nl nc po in
  ((nl = 1 \/ nl = 2)%Z -> num_lanes self' = nl) /\
  (~ (nl = 1 \/ nl = 2)%Z -> num_lanes self' = num_lanes self) /\
  ((nt = 1 \/ nt = 2)%Z -> num_tracks self' = nt) /\
  (~ (nt = 1 \/ nt = 2)%Z -> num_tracks self' = num_tracks self) /\
  (0 <= po /\ po <= 1 -> prob_obstacle self' = po) /\
  (~ (0 <= po /\ po <= 1) -> prob_obstacle self' = prob_obstacle self) /\
  ((0 <= nc)%Z -> num_lanes_changes self' = nc) /\
  (~ (0 <= nc)%Z -> num_lanes_changes self' = num_lanes_changes self) /\
  np_random self' = np_random self /\
  start_alpha self' = start_alpha self /\
  tracks self' = tracks self /\
  track self' = track self /\
  info self' = info self /\
  intersections self' = intersections self.
Proof.
  simpl. repeat split; try reflexivity.
  - intros Hr. replace ((0 <? nl)%Z && (nl <=? 2)%Z) with true; [done|].
    symmetry. apply andb_true_intro. split; [apply Z.ltb_lt | apply Z.leb_le]; lia.
  - intros Hr. destruct ((0 <? nl)%Z && (nl <=? 2)%Z) eqn:E; [|done].
    apply andb_prop in E as [?%Z.ltb_lt ?%Z.leb_le]. exfalso. apply Hr. lia.
  - intros Hr. replace ((0 <? nt)%Z && (nt <=? 2)%Z) with true; [done|].
    symmetry. apply andb_true_intro. split; [apply Z.ltb_lt | apply Z.leb_le]; lia.
  - intros Hr. destruct ((0 <? nt)%Z && (nt <=? 2)%Z) eqn:E; [|done].
    apply andb_prop in E as [?%Z.ltb_lt ?%Z.leb_le]. exfalso. apply Hr. lia.
  - intros [H0 H1]. unfold Qgeb.
    apply Qle_bool_iff in H0, H1. by rewrite H0, H1.
  - intros Hr. unfold Qgeb.
    destruct (Qle_bool 0 po && Qle_bool po 1) eqn:E; [|done].
    apply andb_prop in E as [?%Qle_bool_iff ?%Qle_bool_iff]. exfalso. by apply Hr.
  - intros Hr. by replace (0 <=? nc)%Z with true by (symmetry; apply Z.leb_le; lia).
  - intros Hr. destruct (0 <=? nc)%Z eqn:E; [|done].
    apply Z.leb_le in E. lia.
Qed.

(** ** The loop extractor *)

Lemma pass_through_start_crossing (track : list TrackPoint) (sa : Q) (i : nat) :
  (1 <= i < length track)%nat ->
  pass_through_start track sa i = Some (crossing track sa i).
Proof.
  intros Hi. unfold pass_through_start, crossing.
  rewrite py_get_nat by lia.
  replace (Z.of_nat i - 1)%Z with (Z.of_nat (i - 1)) by lia.
  rewrite py_get_nat by lia.
  destruct (lookup_lt_is_Some_2 track i) as [p Hp]; [lia|].
  destruct (lookup_lt_is_Some_2 track (i - 1)) as [q Hq]; [lia|].
  rewrite Hp, Hq. simpl. by destruct i; [lia|].
Qed.

Lemma crossings_below_S (track : list TrackPoint) (sa : Q) (i : nat) :
  (1 <= i)%nat ->
  crossings_below track sa (S i) =
  crossings_below track sa i ++ (if crossing track sa i then [i] else []).
Proof.
  intros Hi. unfold crossings_below.
  replace (S i - 1)%nat with (S (i - 1)) by lia.
  rewrite seq_S, List.filter_app.
  replace (1 + (i - 1))%nat with i by lia. done.
Qed.

(** Once [i2] is known, the scan stops at the next crossing below [i]. *)
Lemma find_loop_range_second (track : list TrackPoint) (sa : Q) (i : nat) (i2 : Z) :
  (1 <= i <= length track)%nat -> i2 <> (-1)%Z ->
  find_loop_range track sa i i2 =
  Done (match reverse (crossings_below track sa i) with
        | i1 :: _ => Some (Z.of_nat i1, i2)
        | [] => None
        end).
Proof.
  intros Hi Hi2. induction i as [|i IH]; [lia|]. simpl.
  destruct (Nat.eqb_spec i 0) as [->|Hne]; [done|].
  rewrite pass_through_start_crossing by lia. simpl.
  rewrite crossings_below_S by lia.
  replace (i2 =? -1)%Z with false by (symmetry; apply Z.eqb_neq; done).
  rewrite andb_false_r.
  destruct (crossing track sa i).
  - by rewrite reverse_snoc.
  - rewrite app_nil_r. apply IH. lia.
Qed.

(** Before any crossing is known, the scan returns the last two crossings
    below [i], or [False] when there are fewer than two. *)
Lemma find_loop_range_first (track : list TrackPoint) (sa : Q) (i : nat) :
  (1 <= i <= length track)%nat ->
  find_loop_range track sa i (-1) = Done (last_two (crossings_below track sa i)).
Proof.
  intros Hi. induction i as [|i IH]; [lia|]. simpl.
  destruct (Nat.eqb_spec i 0) as [->|Hne]; [done|].
  rewrite pass_through_start_crossing by lia. simpl.
  rewrite crossings_below_S by lia. unfold last_two.
  destruct (crossing track sa i).
  - simpl. rewrite find_loop_range_second by lia.
    rewrite reverse_snoc. by destruct (reverse (crossings_below track sa i)).
  - simpl. rewrite app_nil_r. apply IH. lia.
Qed.
Lemma crossings_below_In (track : list TrackPoint) (sa : Q) (n i : nat) :
  In i (crossings_below track sa n) ->
  (1 <= i < n)%nat /\ crossing track sa i = true.
Proof.
  unfold crossings_below. rewrite List.filter_In, in_seq. intros [? ?]. split; [lia|done].
Qed.

Lemma crossings_below_last_two (track : list TrackPoint) (sa : Q) (n : nat)
    (pre : list nat) (i1 i2 : nat) :
  crossings_below track sa n = pre ++ [i1; i2] ->
  (1 <= i1 < i2)%nat /\ (i2 < n)%nat /\
  crossing track sa i1 = true /\ crossing track sa i2 = true.
Proof.
  induction n as [|n IH]; [by destruct pre|].
  destruct (Nat.eq_dec n 0%nat) as [->|Hn]; [by destruct pre|].
  rewrite crossings_below_S by lia.
  destruct (crossing track sa n) eqn:Hc.
  - intros Heq.
    replace (pre ++ [i1; i2]) with ((pre ++ [i1]) ++ [i2]) in Heq
      by (by rewrite <- app_assoc).
    apply app_inj_tail in Heq as [Hpre <-].
    assert (Hin : In i1 (crossings_below track sa n)).
    { rewrite Hpre. apply in_or_app. right. by left. }
    apply crossings_below_In in Hin as [? ?]. repeat split; try done; lia.
  - rewrite app_nil_r. intros Heq. apply IH in Heq. intuition lia.
Qed.

(** No two crossings are adjacent: at a crossing [alpha] is above the start
    angle, just before one it is not. *)
Lemma crossing_not_adjacent (track : list TrackPoint) (sa : Q) (i : nat) :
  crossing track sa i = true -> crossing track sa (S i) = false.
Proof.
  unfold crossing. replace (S i - 1)%nat with i by lia.
  destruct (track !! i) as [p|]; [|by destruct (track !! S i)].
  destruct (track !! (i - 1)%nat) as [q|]; [|done].
  intros [[_ Hp]%andb_prop _]%andb_prop.
  destruct (track !! S i) as [r|]; [|done].
  unfold Qgtb, Qltb in *. apply negb_true_iff in Hp. rewrite Hp.
  by rewrite andb_false_r.
Qed.

Lemma py_slice_nat {A : Type} (l : list A) (a b : nat) :
  (a <= length l)%nat -> (b <= length l)%nat ->
  py_slice l (Z.of_nat a) (Z.of_nat b) = drop a (take b l).
Proof.
  intros Ha Hb. unfold py_slice, py_slice_bound.
  destruct (Z.ltb_spec (Z.of_nat a) 0); [lia|].
  destruct (Z.ltb_spec (Z.of_nat b) 0); [lia|].
  rewrite !Z.min_r by lia. by rewrite !Nat2Z.id.
Qed.






Lemma last_two_Some (cs : list nat) (a b : Z) :
  last_two cs = Some (a, b) ->
  exists (pre : list nat) (i1 i2 : nat),
    cs = pre ++ [i1; i2] /\ a = Z.of_nat i1 /\ b = Z.of_nat i2.
Proof.
  unfold last_two. destruct (reverse cs) as [|i2 [|i1 r]] eqn:E; try done.
  intros [= <- <-]. exists (reverse r), i1, i2. split; [|done].
  apply (f_equal reverse) in E. rewrite reverse_involutive in E. rewrite E.
  rewrite !reverse_cons. by rewrite <- app_assoc.
Qed.

(** A loop that was extracted has a point: the two crossings that bound it
    are at least two indices apart. *)
Lemma extract_range_nonempty (track : list TrackPoint) (sa : Q) (loop : list TrackPoint) :
  extract_range track sa = Done (Some loop) -> loop <> [].
Proof.
  intros Hex.
  assert (Hne : track <> []) by (by intros ->).
  assert (Hlen : (1 <= length track)%nat) by (destruct track; simpl; [done|lia]).
  pose proof (find_loop_range_first track sa (length track) ltac:(lia)) as Hr.
  fold (crossings track sa) in Hr.
  unfold extract_range in Hex. rewrite Hr in Hex. simpl in Hex.
  destruct (last_two (crossings track sa)) as [[a b]|] eqn:E; [|done].
  apply last_two_Some in E as (pre & i1 & i2 & Hcs & -> & ->).
  destruct (crossings_below_last_two _ _ _ _ _ _ Hcs) as (Hi1 & Hi2 & Hc1 & Hc2).
  assert (Hadj : i2 <> S i1).
  { intros ->. apply crossing_not_adjacent in Hc1. congruence. }
  injection Hex as <-.
  replace (Z.of_nat i2 - 1)%Z with (Z.of_nat (i2 - 1)) by lia.
  rewrite py_slice_nat by lia.
  intros Hnil. apply (f_equal length) in Hnil.
  rewrite length_drop, length_take in Hnil. simpl in Hnil. lia.
Qed.

Lemma to_segments_ring (loop : list TrackPoint) :
  exists segs : Track,
    to_segments loop = Some segs /\ length segs = length loop /\
    forall i : nat, (i < length loop)%nat ->
      exists a b : TrackPoint,
        loop !! ((i + length loop - 1) mod length loop)%nat = Some a /\
        loop !! i = Some b /\ segs !! i = Some (a, b).
Proof.
  assert (Hstep : forall i : nat, (i < length loop)%nat ->
            exists a b : TrackPoint,
              loop !! ((i + length loop - 1) mod length loop)%nat = Some a /\
              loop !! i = Some b /\
              (a ← py_get loop (Z.of_nat i - 1);
               b ← py_get loop (Z.of_nat i); Some (a, b)) = Some (a, b)).
  { intros i Hi.
    destruct (lookup_lt_is_Some_2 loop ((i + length loop - 1) mod length loop))
      as [a Ha]; [apply Nat.mod_upper_bound; lia|].
    destruct (lookup_lt_is_Some_2 loop i) as [b Hb]; [done|].
    exists a, b. repeat split; try done.
    rewrite py_get_pred, py_get_nat by done. rewrite Ha, Hb. done. }
  destruct (mapM_is_Some_2
              (fun i : nat => a ← py_get loop (Z.of_nat i - 1);
                              b ← py_get loop (Z.of_nat i); Some (a, b))
              (seq 0 (length loop))) as [segs Hsegs].
  { apply Forall_forall. intros i Hi%list_elem_of_In%in_seq.
    destruct (Hstep i) as (a & b & _ & _ & Hf); [lia|]. simpl. by rewrite Hf. }
  exists segs. split; [done|].
  apply mapM_Some_1 in Hsegs.
  pose proof (Forall2_length _ _ _ Hsegs) as Hlen. rewrite length_seq in Hlen.
  split; [done|].
  intros i Hi. destruct (Hstep i Hi) as (a & b & Ha & Hb & Hf).
  exists a, b. repeat split; try done.
  destruct (Forall2_lookup_l _ _ _ i i Hsegs) as (y & Hy & Hfy).
  { apply lookup_seq. lia. }
  rewrite Hf in Hfy. by injection Hfy as <-.
Qed.

Section ClosureCheck.
Context {M : MathLib}.

Lemma well_glued_together_Some (loop : list TrackPoint) :
  loop <> [] ->
  exists first last : TrackPoint,
    loop !! 0%nat = Some first /\ loop !! (length loop - 1)%nat = Some last /\
    well_glued_together loop =
    Some (np_sqrt (np_square (math_cos (tp_beta first) * (tp_x first - tp_x last)) +
                   np_square (math_sin (tp_beta first) * (tp_y first - tp_y last)))).
Proof.
  intros Hne.
  assert (Hlen : (1 <= length loop)%nat) by (destruct loop; simpl; [done|lia]).
  destruct (lookup_lt_is_Some_2 loop 0) as [first Hf]; [lia|].
  destruct (lookup_lt_is_Some_2 loop (length loop - 1)) as [last Hl]; [lia|].
  exists first, last. repeat split; try done.
  unfold well_glued_together.
  change 0%Z with (Z.of_nat 0). rewrite py_get_nat by lia. rewrite Hf. simpl.
  change (-1)%Z with (Z.of_nat 0 - 1)%Z. rewrite py_get_pred by lia.
  replace ((0 + length loop - 1) mod length loop)%nat with (length loop - 1)%nat
    by (rewrite Nat.mod_small; lia).
  rewrite Hl. done.
Qed.



End ClosureCheck.


(** ** Reasoning on outcomes and loops *)

Lemma bind_Done {A B : Type} (m : outcome A) (f : A -> outcome B) (b : B) :
  m ≫= f = Done b -> exists a : A, m = Done a /\ f a = Done b.
Proof. destruct m as [a| |]; simpl; [|done..]. intros H. by exists a. Qed.

Lemma or_raise_Done {A : Type} (o : option A) (a : A) :
  or_raise o = Done a -> o = Some a.
Proof. destruct o; simpl; [|done]. by intros [= ->]. Qed.

(** Splits a hypothesis [m ≫= f = Done b] into its two steps. *)
Ltac inv_bind H :=
  let a := fresh "r" in
  let H1 := fresh "Hstep" in
  apply bind_Done in H as (a & H1 & H);
  try (apply or_raise_Done in H1).

(** An invariant of a [for] loop over [range(start, start + len)]. *)
Lemma for_each_seq_invariant {S : Type} (P : nat -> S -> Prop)
    (body : S -> nat -> outcome S) (start len : nat) (s s' : S) :
  P start s ->
  (forall (i : nat) (t t' : S), (start <= i < start + len)%nat ->
      P i t -> body t i = Done t' -> P (Datatypes.S i) t') ->
  for_each body (seq start len) s = Done s' ->
  P (start + len)%nat s'.
Proof.
  revert start s. induction len as [|len IH]; intros start s Hs Hbody; simpl.
  - intros [= <-]. by rewrite Nat.add_0_r.
  - intros H. inv_bind H.
    replace (start + Datatypes.S len)%nat with (Datatypes.S start + len)%nat by lia.
    apply (IH (Datatypes.S start) r); [|intros; eapply Hbody; [lia|done..] | done].
    eapply Hbody; [lia|done..].
Qed.

(** An invariant of a [for] loop over a list. *)
Lemma for_each_invariant {S A : Type} (P : S -> Prop)
    (body : S -> A -> outcome S) (l : list A) (s s' : S) :
  P s ->
  (forall (a : A) (t t' : S), P t -> body t a = Done t' -> P t') ->
  for_each body l s = Done s' ->
  P s'.
Proof.
  intros Hs Hbody. revert s Hs. induction l as [|a l IH]; intros s Hs; simpl.
  - by intros [= <-].
  - intros H. inv_bind H. eapply IH; [|done]. by eapply Hbody.
Qed.

Lemma py_get_Some {A : Type} (l : list A) (i : Z) (x : A) :
  py_get l i = Some x ->
  exists k : nat, py_index (length l) i = Some k /\ l !! k = Some x.
Proof.
  unfold py_get. destruct (py_index (length l) i) as [k|]; simpl; [|done].
  intros H. by exists k.
Qed.

Lemma py_set_Some {A : Type} (l l' : list A) (i : Z) (x : A) :
  py_set l i x = Some l' ->
  exists k : nat, py_index (length l) i = Some k /\ l' = <[k:=x]> l.
Proof.
  unfold py_set. destruct (py_index (length l) i) as [k|]; simpl; [|done].
  intros [= <-]. by exists k.
Qed.

Lemma py_update_Some {A : Type} (l l' : list A) (i : Z) (f : A -> A) :
  py_update l i f = Some l' ->
  exists (k : nat) (x : A), l !! k = Some x /\ l' = <[k:=f x]> l.
Proof.
  unfold py_update. intros H.
  destruct (py_get l i) as [x|] eqn:Hx; simpl in H; [|done].
  apply py_get_Some in Hx as (k & Hk & Hx).
  apply py_set_Some in H as (k' & Hk' & ->).
  exists k, x. split; [done|]. congruence.
Qed.

(** An update that leaves a field alone leaves the column of that field
    alone. *)
Lemma py_update_column {A B : Type} (g : A -> B) (f : A -> A) (l l' : list A) (i : Z) :
  (forall x : A, g (f x) = g x) ->
  py_update l i f = Some l' -> g <$> l' = g <$> l.
Proof.
  intros Hg (k & x & Hx & ->)%py_update_Some.
  rewrite list_fmap_insert, Hg. apply list_insert_id.
  by rewrite list_lookup_fmap, Hx.
Qed.

(** ** [_create_info] *)

Lemma slice_update_length {A : Type} (l : list A) (lo hi : Z) (f : A -> A) :
  length (slice_update l lo hi f) = length l.
Proof. unfold slice_update. apply length_imap. Qed.

Lemma mark_ends_column {B : Type} (g : SegmentInfo -> B) (offset : nat) (t : Track)
    (info info' : list SegmentInfo) (j : nat) :
  (forall (v : bool) (r : SegmentInfo), g (set_i_end v r) = g r) ->
  (forall (v : bool) (r : SegmentInfo), g (set_i_start v r) = g r) ->
  mark_ends offset t info j = Done info' -> g <$> info' = g <$> info.
Proof.
  intros Hend Hstart H. unfold mark_ends in H.
  inv_bind H. inv_bind H. inv_bind H.
  destruct (negb (point_equal r.2 r0.1)).
  - apply or_raise_Done in H. eapply py_update_column; [|done]. apply Hend.
  - destruct (negb (point_equal r.1 r1.2)).
    + apply or_raise_Done in H. eapply py_update_column; [|done]. apply Hstart.
    + by injection H as <-.
Qed.

Lemma annotate_track_column {B : Type} (g : SegmentInfo -> B) (ts : list Track)
    (info info' : list SegmentInfo) (i : nat) :
  (forall (v : bool) (r : SegmentInfo), g (set_i_end v r) = g r) ->
  (forall (v : bool) (r : SegmentInfo), g (set_i_start v r) = g r) ->
  (1 <= i)%nat ->
  annotate_track ts info i = Done info' ->
  exists t prev : Track,
    ts !! i = Some t /\ ts !! (i - 1)%nat = Some prev /\
    g <$> info' =
    g <$> slice_update info (Z.of_nat (length prev) - 1)
            (Z.of_nat (length prev) + Z.of_nat (length t)) (set_i_track (Z.of_nat i)).
Proof.
  intros Hend Hstart Hi H. unfold annotate_track in H.
  inv_bind H. inv_bind H.
  apply py_get_Some in Hstep as (k & Hk & Ht).
  apply py_get_Some in Hstep0 as (k0 & Hk0 & Hprev).
  assert (Hlt : (k < length ts)%nat) by (by eapply lookup_lt_Some).
  rewrite py_index_spec in Hk, Hk0.
  repeat case_decide; try lia; try done.
  injection Hk as <-. injection Hk0 as <-.
  exists r, r0. rewrite Nat2Z.id in Ht.
  replace (Z.to_nat (Z.of_nat i - 1)) with (i - 1)%nat in Hprev by lia.
  repeat split; try done.
  eapply (for_each_invariant (fun x => g <$> x = g <$> _)); [reflexivity| |exact H].
  intros a t t' Hinv Hb. rewrite <- Hinv. by eapply mark_ends_column.
Qed.

Section TrackIds.
Context {M : MathLib}.

Lemma _create_info_column {B : Type} (g : SegmentInfo -> B) (self self' : Env)
    (t0 t1 : Track) :
  (forall (v : bool) (r : SegmentInfo), g (set_i_end v r) = g r) ->
  (forall (v : bool) (r : SegmentInfo), g (set_i_start v r) = g r) ->
  (forall (v : bool) (r : SegmentInfo), g (set_i_intersection v r) = g r) ->
  tracks self = [t0; t1] ->
  _create_info self = Done self' ->
  g <$> info self' =
  g <$> slice_update (replicate (length t0 + length t1) info_zero)
          (Z.of_nat (length t0) - 1) (Z.of_nat (length t0) + Z.of_nat (length t1))
          (set_i_track 1).
Proof.
  intros Hend Hstart Hinter Hts H. unfold _create_info in H. rewrite Hts in H.
  inv_bind H. inv_bind H. inv_bind H. injection H as <-. simpl in *.
  inv_bind Hstep. injection Hstep as <-.
  apply annotate_track_column with (g := g) in Hstep2 as (t & prev & Ht & Hprev & Hcol);
    [|done|done|lia].
  simpl in Ht, Hprev. injection Ht as <-. injection Hprev as <-.
  replace (length t0 + (length t1 + 0))%nat with (length t0 + length t1)%nat in Hcol by lia.
  change (Z.of_nat 1) with 1%Z in Hcol. rewrite <- Hcol.
  match goal with
  | |- _ = g <$> ?y =>
      eapply (for_each_invariant (fun x => g <$> x = g <$> y)); [reflexivity| |exact Hstep1]
  end.
  intros a t t' Hinv Hb. rewrite <- Hinv.
  apply or_raise_Done in Hb. eapply py_update_column; [|done]. apply Hinter.
Qed.

(** C7, as the code has it: with two tracks, the [track] field is 1 from the
    last segment of track 0 on, and 0 before it.  The last segment of
    track 0 carries the identifier of track 1. *)
Theorem last_principal_segment_labelled_secondary (self self' : Env) (t0 t1 : Track) :
  tracks self = [t0; t1] -> t0 <> [] ->
  _create_info self = Done self' ->
  length (info self') = (length t0 + length t1)%nat /\
  (forall (k : nat) (row : SegmentInfo),
      info self' !! k = Some row ->
      i_track row = if decide (length t0 - 1 <= k)%nat then 1%Z else 0%Z) /\
  exists row : SegmentInfo,
    info self' !! (length t0 - 1)%nat = Some row /\ i_track row = 1%Z.
Proof.
  intros Hts Hne H.
  assert (Hlen0 : (1 <= length t0)%nat) by (destruct t0; simpl; [done|lia]).
  pose proof (_create_info_column i_track self self' t0 t1
                ltac:(done) ltac:(done) ltac:(done) Hts H) as Hcol.
  assert (Hlen : length (info self') = (length t0 + length t1)%nat).
  { apply (f_equal length) in Hcol.
    by rewrite !length_fmap, slice_update_length, length_replicate in Hcol. }
  assert (Hrows : forall (k : nat) (row : SegmentInfo),
             info self' !! k = Some row ->
             i_track row = if decide (length t0 - 1 <= k)%nat then 1%Z else 0%Z).
  { intros k row Hrow.
    assert (Hk : (k < length t0 + length t1)%nat)
      by (rewrite <- Hlen; by eapply lookup_lt_Some).
    apply (f_equal (fun l => l !! k)) in Hcol.
    rewrite !list_lookup_fmap, Hrow in Hcol. simpl in Hcol.
    unfold slice_update in Hcol. rewrite list_lookup_imap in Hcol.
    rewrite lookup_replicate_2 in Hcol by done. simpl in Hcol.
    injection Hcol as ->. rewrite length_replicate.
    unfold py_slice_bound.
    destruct (Z.ltb_spec (Z.of_nat (length t0) - 1) 0); [lia|].
    destruct (Z.ltb_spec (Z.of_nat (length t0) + Z.of_nat (length t1)) 0); [lia|].
    rewrite !Z.min_r by lia.
    case_decide.
    - replace (Z.to_nat (Z.of_nat (length t0) - 1) <=? k)%nat with true
        by (symmetry; apply Nat.leb_le; lia).
      replace (k <? Z.to_nat (Z.of_nat (length t0) + Z.of_nat (length t1)))%nat with true
        by (symmetry; apply Nat.ltb_lt; lia).
      done.
    - replace (Z.to_nat (Z.of_nat (length t0) - 1) <=? k)%nat with false
        by (symmetry; apply Nat.leb_gt; lia).
      done. }
  split; [done|]. split; [done|].
  destruct (lookup_lt_is_Some_2 (info self') (length t0 - 1)) as [row Hrow]; [lia|].
  exists row. split; [done|]. rewrite (Hrows _ _ Hrow). case_decide; [done|lia].
Qed.

End TrackIds.

Lemma last_principal_segment_labelled_secondary_witness :
  exists row : SegmentInfo,
    info_of (_create_info (M := series_math) sample_env) !! 1%nat = Some row /\
    i_track row = 1%Z.
Proof.
  destruct (_create_info (M := series_math) sample_env) as [self'| |] eqn:E;
    [|vm_compute in E; discriminate..].
  destruct (last_principal_segment_labelled_secondary (M := series_math)
              sample_env self' sample_track0 sample_track1)
    as (_ & _ & row & Hrow & Htrack); [reflexivity|discriminate|exact E|].
  exists row. split; [exact Hrow|exact Htrack].
Defined.

(** The identifiers on the sample tracks, of two and three segments. *)
Example sample_track_ids :
  i_track <$> info_of (_create_info (M := series_math) sample_env) = [0; 1; 1; 1; 1]%Z.
Proof. vm_compute. reflexivity. Qed.

(** ** [_set_lanes] *)

Lemma slice_update_column {A B : Type} (g : A -> B) (f : A -> A) (l : list A) (lo hi : Z) :
  (forall x : A, g (f x) = g x) ->
  g <$> slice_update l lo hi f = g <$> l.
Proof.
  intros Hg. apply list_eq. intros k. unfold slice_update.
  rewrite !list_lookup_fmap, list_lookup_imap.
  destruct (l !! k) as [x|]; simpl; [|done].
  by destruct (_ && _); rewrite ?Hg.
Qed.

Section Lanes.
Context {M : MathLib}.

(** [_create_info] leaves every [lanes] list as the first loop set it. *)
Lemma _create_info_lanes (self self' : Env) :
  _create_info self = Done self' ->
  Forall (fun row => i_lanes row = [true; true]) (info self').
Proof.
  intros H. unfold _create_info in H.
  inv_bind H. inv_bind H. inv_bind H. injection H as <-. simpl.
  assert (Hcol : i_lanes <$> r1 =
                 i_lanes <$> replicate (sum_list (map length (tracks self))) info_zero).
  { transitivity (i_lanes <$> r).
    - match goal with
      | |- _ = i_lanes <$> ?y =>
          eapply (for_each_invariant (fun x => i_lanes <$> x = i_lanes <$> y));
            [reflexivity| |exact Hstep1]
      end.
      intros a t t' Hinv Hb. rewrite <- Hinv.
      apply or_raise_Done in Hb. eapply py_update_column; [|exact Hb]. done.
    - match goal with
      | |- _ = i_lanes <$> ?y =>
          eapply (for_each_seq_invariant (fun _ x => i_lanes <$> x = i_lanes <$> y));
            [reflexivity| |exact Hstep]
      end.
      intros i t t' Hi Hinv Hb. rewrite <- Hinv.
      apply annotate_track_column with (g := i_lanes) in Hb
        as (? & ? & _ & _ & ->); [|done|done|lia].
      by apply slice_update_column. }
  apply Forall_forall. intros row [k Hk]%list_elem_of_lookup.
  apply (f_equal (fun l => l !! k)) in Hcol.
  rewrite !list_lookup_fmap, Hk in Hcol. simpl in Hcol.
  destruct (replicate _ info_zero !! k) as [z|] eqn:Hz; [|done].
  apply lookup_replicate in Hz as [-> _]. by injection Hcol.
Qed.

(** [_create_info] makes one row for each segment of each track. *)
Lemma _create_info_lanes_column (self self' : Env) :
  _create_info self = Done self' ->
  i_lanes <$> info self' = replicate (sum_list (map length (tracks self))) [true; true].
Proof.
  intros H. unfold _create_info in H.
  inv_bind H. inv_bind H. inv_bind H. injection H as <-. simpl.
  rewrite <- (fmap_replicate i_lanes _ info_zero).
  transitivity (i_lanes <$> r).
  - match goal with
    | |- _ = i_lanes <$> ?y =>
        eapply (for_each_invariant (fun x => i_lanes <$> x = i_lanes <$> y));
          [reflexivity| |exact Hstep1]
    end.
    intros a t t' Hinv Hb. rewrite <- Hinv.
    apply or_raise_Done in Hb. eapply py_update_column; [|exact Hb]. done.
  - match goal with
    | |- _ = i_lanes <$> ?y =>
        eapply (for_each_seq_invariant (fun _ x => i_lanes <$> x = i_lanes <$> y));
          [reflexivity| |exact Hstep]
    end.
    intros i t t' Hi Hinv Hb. rewrite <- Hinv.
    apply annotate_track_column with (g := i_lanes) in Hb
      as (? & ? & _ & _ & ->); [|done|done|lia].
    by apply slice_update_column.
Qed.

End Lanes.

Lemma randint_range (g g' : RandomState) (low high v : Z) :
  randint g low high = Done (v, g') -> (low <= v < high)%Z.
Proof.
  unfold randint. destruct (Z.leb_spec high low); [done|].
  intros [= <- _].
  pose proof (Z.mod_pos_bound (Z.of_N (g 0%nat)) (high - low) ltac:(lia)). lia.
Qed.

Lemma set_lane_invariant (changes : list Z) (i : nat)
    (st st' : Z * Z * list SegmentInfo * RandomState) :
  lanes_invariant i st -> set_lane changes st i = Done st' -> lanes_invariant (S i) st'.
Proof.
  destruct st as [[[rm_lane lane] info] gl]. intros [Hlane Hrows] H.
  unfold set_lane in H.
  set (rm := ((rm_lane + (if existsb (Z.eqb (Z.of_nat i)) changes then 1 else 0)) mod 2)%Z)
    in H.
  inv_bind H. destruct r as [lane' gl'].
  assert (Hlane' : (lane' = 0 \/ lane' = 1)%Z).
  { destruct (_ && _) in Hstep.
    - apply randint_range in Hstep. lia.
    - by injection Hstep as <- _. }
  inv_bind H. rename r into row. inv_bind H. rename r into info'. inv_bind H.
  injection H as <-. split; [done|].
  apply py_get_Some in Hstep0 as (k0 & Hk0 & Hrow).
  rewrite py_index_spec in Hk0. case_decide; [|case_decide; [lia|done]].
  injection Hk0 as <-. rewrite Nat2Z.id in Hrow.
  destruct (rm =? 0)%Z.
  - injection Hstep1 as <-. intros k row' Hk. destruct (Hrows k row' Hk) as [Hlo Hhi].
    split; [|intros; apply Hhi; lia].
    intros Hlt. destruct (decide (k < i)%nat) as [|Hge]; [by apply Hlo|].
    left. apply Hhi. lia.
  - inv_bind Hstep1. apply or_raise_Done in Hstep1.
    apply py_set_Some in Hstep0 as (kl & Hkl & ->).
    apply py_set_Some in Hstep1 as (ki & Hki & ->).
    rewrite py_index_spec in Hki. case_decide; [|case_decide; [lia|done]].
    injection Hki as <-. rewrite Nat2Z.id.
    destruct (Hrows i row Hrow) as [_ Hfresh]. rewrite (Hfresh ltac:(lia)) in Hkl |- *.
    intros k row' Hk. destruct (decide (k = i)) as [->|Hne].
    + rewrite list_lookup_insert_eq in Hk by (by eapply lookup_lt_Some).
      injection Hk as <-. split; [|lia]. intros _. unfold lanes_ok. simpl.
      rewrite py_index_spec in Hkl. simpl in Hkl.
      destruct Hlane' as [-> | ->]; simpl in Hkl; injection Hkl as <-; simpl; tauto.
    + rewrite list_lookup_insert_ne in Hk by done.
      destruct (Hrows k row' Hk) as [Hlo Hhi].
      split; [intros; apply Hlo; lia | intros; apply Hhi; lia].
Qed.

Lemma lanes_ok_has_lane (row : SegmentInfo) : lanes_ok row -> In true (i_lanes row).
Proof. intros [-> | [-> | ->]]; simpl; tauto. Qed.

(** ** The two random sources *)

(** The lanes pass writes [info] and draws from the two sources; the
    TrackSet is as [_get_track] and [_remove_roads] left it. *)
Lemma _set_lanes_keeps_tracks (self self' : Env) (gl gl' : RandomState) :
  _set_lanes self gl = Done (self', gl') ->
  tracks self' = tracks self /\ track self' = track self.
Proof.
  unfold _set_lanes. destruct (_ && _).
  - intros H. inv_bind H. destruct r as [changes g].
    inv_bind H. destruct r as [[[rm_lane lane] info'] gl2]. by injection H as <- _.
  - by intros [= <- _].
Qed.

(** C1 fails on the code: with the seeded source fixed by [seed], the lanes
    [_set_lanes] removes and the point [get_rnd_point_in_track] returns
    still follow the process-wide source.  Two runs from the same seeded
    source, one with the process-wide source [zero_source] and one with
    [odd_source], remove different lanes and return
    different lateral offsets. *)
Theorem lanes_and_points_follow_global_source :
  let self := seed sample_info_env zero_source in
  lanes_of (_set_lanes self zero_source) = replicate 5 [false; true] /\
  lanes_of (_set_lanes self odd_source) = replicate 5 [true; false] /\
  lanes_of (_set_lanes self zero_source) <> lanes_of (_set_lanes self odd_source) /\
  offsets_differ
    (offset_of (get_rnd_point_in_track (M := series_math) self zero_source true))
    (offset_of (get_rnd_point_in_track (M := series_math) self odd_source true)) = true.
Proof.
  repeat split; try (vm_compute; reflexivity).
  vm_compute. discriminate.
Qed.

(** ** Border flags *)

Lemma keeps_flags_refl (b : list bool) : keeps_flags b b.
Proof. by split. Qed.

Lemma keeps_flags_trans (b1 b2 b3 : list bool) :
  keeps_flags b1 b2 -> keeps_flags b2 b3 -> keeps_flags b1 b3.
Proof.
  intros [Hl1 Hk1] [Hl2 Hk2]. split; [congruence|]. intros k Hk. by apply Hk2, Hk1.
Qed.

Lemma keeps_flags_py_get (b b' : list bool) (i : Z) :
  keeps_flags b b' -> py_get b i = Some true -> py_get b' i = Some true.
Proof.
  intros [Hl Hk]. unfold py_get. rewrite Hl.
  destruct (py_index (length b) i) as [k|]; simpl; [apply Hk|done].
Qed.

(** One [border[i-neg] |= border[i]]: no flag is lost, and the flag at
    [i-neg] is set when the one at [i] is. *)
Lemma border_spread_sets (i : nat) (b b' : list bool) (neg : nat) :
  border_spread i b neg = Done b' ->
  keeps_flags b b' /\
  (b !! i = Some true -> py_get b' (Z.of_nat i - Z.of_nat neg) = Some true).
Proof.
  intros H. unfold border_spread in H.
  inv_bind H. rename r into old. inv_bind H. rename r into flag.
  apply or_raise_Done in H.
  apply py_get_Some in Hstep as (k & Hk & Hold).
  apply py_set_Some in H as (k' & Hk' & ->).
  assert (k' = k) as -> by congruence.
  assert (Hlt : (k < length b)%nat) by (by eapply lookup_lt_Some).
  split; [split|].
  - apply length_insert.
  - intros j Hj. destruct (decide (j = k)) as [->|Hne].
    + rewrite list_lookup_insert_eq by done.
      rewrite Hold in Hj. by injection Hj as ->.
    + by rewrite list_lookup_insert_ne.
  - intros Hi. unfold py_get. rewrite length_insert, Hk. simpl.
    rewrite list_lookup_insert_eq by done.
    apply py_get_Some in Hstep0 as (ki & Hki & Hflag).
    rewrite py_index_nat in Hki by (by eapply lookup_lt_Some).
    injection Hki as <-. rewrite Hi in Hflag. injection Hflag as <-.
    by rewrite orb_true_r.
Qed.

(** The four spreads of one round [i] of the second loop. *)
Lemma border_spread_round (i : nat) (b b' : list bool) :
  for_each (border_spread i) (seq 0 BORDER_MIN_COUNT) b = Done b' ->
  keeps_flags b b' /\
  (b !! i = Some true ->
   forall neg : nat, (neg < BORDER_MIN_COUNT)%nat ->
     py_get b' (Z.of_nat i - Z.of_nat neg) = Some true).
Proof.
  intros H.
  apply (for_each_seq_invariant
           (fun m t => keeps_flags b t /\
                       (b !! i = Some true -> forall neg : nat, (neg < m)%nat ->
                          py_get t (Z.of_nat i - Z.of_nat neg) = Some true))) in H.
  - done.
  - split; [apply keeps_flags_refl|]. intros _ neg Hneg. lia.
  - intros m t t' _ [Hkeep Hset] Hb.
    apply border_spread_sets in Hb as [Hkeep' Hnew].
    split; [by eapply keeps_flags_trans|].
    intros Hi neg Hneg. destruct (decide (neg = m)) as [->|Hne].
    + apply Hnew. by apply Hkeep.
    + eapply keeps_flags_py_get; [done|]. apply Hset; [done|lia].
Qed.

(** The second loop: every flag of the first loop is still set, and so are
    the flags of the three segments before it. *)
Lemma border_extend_spreads (b b' : list bool) :
  border_extend b = Done b' ->
  keeps_flags b b' /\
  forall i : nat, b !! i = Some true ->
    forall neg : nat, (neg < BORDER_MIN_COUNT)%nat ->
      py_get b' (Z.of_nat i - Z.of_nat neg) = Some true.
Proof.
  intros H. unfold border_extend in H.
  apply (for_each_seq_invariant
           (fun j t => keeps_flags b t /\
                       forall i : nat, (i < j)%nat -> b !! i = Some true ->
                         forall neg : nat, (neg < BORDER_MIN_COUNT)%nat ->
                           py_get t (Z.of_nat i - Z.of_nat neg) = Some true)) in H.
  - destruct H as [Hkeep Hset]. split; [done|].
    intros i Hi. apply Hset; [simpl; by eapply lookup_lt_Some | done].
  - split; [apply keeps_flags_refl|]. intros i Hi. lia.
  - intros j t t' _ [Hkeep Hset] Hb.
    apply border_spread_round in Hb as [Hkeep' Hnew].
    split; [by eapply keeps_flags_trans|].
    intros i Hi Hflag neg Hneg. destruct (decide (i = j)) as [->|Hne].
    + apply Hnew; [|done]. by apply Hkeep.
    + eapply keeps_flags_py_get; [done|]. apply Hset; [lia|done..].
Qed.

(** The first loop sets the flag of every index that passes the window
    test. *)
Lemma border_detect_flags (track : Track) (b : list bool) :
  border_detect track = Done b ->
  length b = length track /\
  forall i : nat, (1 <= i < length track)%nat ->
    border_window track i = Done true -> b !! i = Some true.
Proof.
  intros H. unfold border_detect in H.
  apply (for_each_seq_invariant
           (fun j t => length t = length track /\
                       forall i : nat, (1 <= i < j)%nat ->
                         border_window track i = Done true -> t !! i = Some true)) in H.
  - destruct H as [Hlen Hset]. split; [done|]. intros i Hi. apply Hset. lia.
  - split; [apply length_replicate|]. intros i Hi. lia.
  - intros j t t' Hj [Hlen Hset] Hb.
    inv_bind Hb. rename r into good. apply or_raise_Done in Hb.
    apply py_set_Some in Hb as (k & Hk & ->).
    rewrite py_index_nat in Hk by lia. injection Hk as <-.
    split; [by rewrite length_insert|].
    intros i Hi Hwin. destruct (decide (i = j)) as [->|Hne].
    + rewrite list_lookup_insert_eq by lia. congruence.
    + rewrite list_lookup_insert_ne by done. apply Hset; [lia|done].
Qed.

(** C6, as the code has it: when the border flags of a track are computed,
    every segment [i] that passes the window test of the first loop (the
    last [BORDER_MIN_COUNT] segments turn sharply to one side) has its flag
    set, and so has each of the [BORDER_MIN_COUNT - 1] segments before it,
    indices taken from the end of the track when they are negative. *)
Theorem border_window_extends_backward (track : Track) (border : list bool) :
  track_border track = Done border ->
  length border = length track /\
  forall i : nat, (1 <= i < length track)%nat ->
    border_window track i = Done true ->
    forall neg : nat, (neg < BORDER_MIN_COUNT)%nat ->
      py_get border (Z.of_nat i - Z.of_nat neg) = Some true.
Proof.
  intros H. unfold track_border in H. inv_bind H. rename r into b.
  apply border_detect_flags in Hstep as [Hlen Hdetect].
  apply border_extend_spreads in H as [[Hlen' _] Hspread].
  split; [congruence|].
  intros i Hi Hwin. apply Hspread. by apply Hdetect.
Qed.

Lemma border_window_extends_backward_witness :
  py_get [false; false; true; true; true; true] (5 - 3) = Some true.
Proof.
  destruct (border_window_extends_backward border_track
              [false; false; true; true; true; true]) as [_ H];
    [vm_compute; reflexivity|].
  apply (H 5%nat ltac:(simpl; lia) ltac:(vm_compute; reflexivity) 3%nat).
  unfold BORDER_MIN_COUNT. lia.
Defined.

(** C6 as stated fails: on the sample track only segment 5 passes the window
    test, the flags of the segments 2 to 5 are set, and segment 2 is flagged
    while segment 1, just before it, is not. *)
Lemma border_flags_not_closed :
  track_border border_track = Done [false; false; true; true; true; true] /\
  [false; false; true; true; true; true] !! 2%nat = Some true /\
  py_get [false; false; true; true; true; true] (2 - 1) = Some false /\
  ~ extend_backward_closed [false; false; true; true; true; true].
Proof.
  split; [vm_compute; reflexivity|]. split; [reflexivity|]. split; [reflexivity|].
  intros Hclosed.
  specialize (Hclosed 2%nat eq_refl 1%nat ltac:(unfold BORDER_MIN_COUNT; lia)).
  discriminate Hclosed.
Qed.

(** ** [get_rnd_point_in_track] *)

Lemma uniform_low (gl : RandomState) (low high : Q) :
  gl 0%nat = 0%N -> (uniform gl low high).1 == low.
Proof.
  intros H0. unfold uniform, random_sample, next_word. rewrite H0. simpl.
  unfold Qeq. simpl. lia.
Qed.

Section RandomPoint.
Context {M : MathLib}.

(** C8 fails on the code: the margin of [border=True] is scaled by the
    cosine of the polar angle of the point, so where that cosine is
    negative the lower end of the range lies beyond the left edge
    [-TRACK_WIDTH*l]; a draw at the low end of the range returns it. *)
Theorem offset_beyond_left_edge (self self' : Env) (gl gl' : RandomState)
    (point : Q * Q * Q) (offset : Q) (idx : nat) (s : Segment) (row : SegmentInfo)
    (r l : bool) :
  get_rnd_point_in_track self gl true = Done (point, offset, idx, self', gl') ->
  track self !! idx = Some s ->
  info self !! idx = Some row ->
  i_lanes row = [r; l] ->
  gl 0%nat = 0%N ->
  math_cos (tp_alpha s.2) < 0 ->
  offset == x_from (tp_alpha s.2) true l /\
  offset < - TRACK_WIDTH * bool_Q l.
Proof.
  intros H Hs Hrow Hlanes Hgl Hcos. unfold get_rnd_point_in_track in H.
  inv_bind H. destruct r0 as [i g]. pose proof (randint_range _ _ _ _ _ Hstep) as Hi.
  inv_bind H. inv_bind H.
  destruct (i_lanes r1) as [|r' [|l' [|? ?]]] eqn:El; try done.
  destruct (uniform gl _ _) as [off gl2] eqn:Eu.
  injection H as _ <- <- _ _.
  apply py_get_Some in Hstep0 as (k & Hk & Hs').
  apply py_get_Some in Hstep1 as (k' & Hk' & Hrow').
  rewrite py_index_spec in Hk, Hk'.
  repeat case_decide; try lia; try done.
  injection Hk as <-. injection Hk' as <-.
  assert (Hrs : Some r0 = Some s)
    by (transitivity (track self !! Z.to_nat i); [symmetry; exact Hs' | exact Hs]).
  injection Hrs as ->.
  rewrite Hrow in Hrow'. injection Hrow' as <-.
  rewrite Hlanes in El. injection El as <- <-.
  assert (Hoff : off == x_from (tp_alpha s.2) true l).
  { pose proof (uniform_low gl (x_from (tp_alpha s.2) true l)
                            (x_to (tp_alpha s.2) true r) Hgl) as Hlow.
    by rewrite Eu in Hlow. }
  split; [done|]. rewrite Hoff. unfold x_from, TRACK_WIDTH, SCALE. simpl bool_Q.
  unfold Qdiv. change (/ 3.5) with (10 # 35). change (/ 6.0) with (10 # 60).
  destruct l; simpl bool_Q; lra.
Qed.

End RandomPoint.

Lemma offset_beyond_left_edge_witness :
  offsets_below
    (offset_of (get_rnd_point_in_track (M := series_math)
                  (seed sample_info_env (fun _ => 1%N)) zero_source true))
    (- TRACK_WIDTH) = true.
Proof.
  destruct (get_rnd_point_in_track (M := series_math)
              (seed sample_info_env (fun _ => 1%N)) zero_source true)
    as [[[[[point offset] idx] self'] gl']| |] eqn:E;
    [|vm_compute in E; discriminate..].
  assert (Hidx : idx = 1%nat) by (vm_compute in E; congruence).
  destruct (offset_beyond_left_edge (M := series_math) _ _ _ _ _ _ _
              (q1, q2) (mkInfo 1 false false false false [true; true] 0) true true E)
    as [_ Hlt].
  - rewrite Hidx. reflexivity.
  - rewrite Hidx. vm_compute. reflexivity.
  - reflexivity.
  - reflexivity.
  - vm_compute. reflexivity.
  - simpl. unfold offsets_below, Qltb. apply negb_true_iff.
    destruct (Qle_bool (- TRACK_WIDTH) offset) eqn:Hle; [|done].
    apply Qle_bool_iff in Hle. exfalso.
    unfold bool_Q, TRACK_WIDTH, SCALE, Qdiv in Hlt, Hle.
    change (/ 6.0) with (10 # 60) in Hlt, Hle. lra.
Defined.

(** The run of the witness: the point of segment 1 has the polar angle 2,
    both lanes are present, and the offset returned is about -7.46, beyond
    the left edge at -6.67. *)
Example sample_offset_beyond_left_edge :
  option_map Qred
    (offset_of (get_rnd_point_in_track (M := series_math)
                  (seed sample_info_env (fun _ => 1%N)) zero_source true))
  = Some (- 2093572 # 280665).
Proof. vm_compute. reflexivity. Qed.

(** ** [_remove_roads] *)

Lemma np_delete_from_sublist {A : Type} (k : nat) (l : list A) (idx : list nat) :
  sublist (np_delete_from k l idx) l.
Proof.
  revert k. induction l as [|a l IH]; intros k; simpl; [constructor|].
  destruct (existsb (Nat.eqb k) idx); [apply sublist_cons | apply sublist_skip]; apply IH.
Qed.

Lemma np_delete_sublist {A : Type} (l : list A) (idx : list nat) :
  sublist (np_delete l idx) l.
Proof. apply np_delete_from_sublist. Qed.

Lemma np_delete_nil {A : Type} (l : list A) : np_delete l [] = l.
Proof.
  unfold np_delete. generalize 0%nat. induction l as [|a l IH]; intros k; simpl; [done|].
  by rewrite IH.
Qed.

Lemma for_each_total {S A : Type} (body : S -> A -> outcome S) (l : list A) (s : S) :
  (forall (t : S) (a : A), In a l -> exists t' : S, body t a = Done t') ->
  exists s' : S, for_each body l s = Done s'.
Proof.
  revert s. induction l as [|a l IH]; intros s Hbody; simpl.
  - by exists s.
  - destruct (Hbody s a) as [t Ht]; [by left|]. rewrite Ht. simpl.
    apply IH. intros t' a' Ha'. apply Hbody. by right.
Qed.

Section Resolver.
Context {M : MathLib}.

Lemma get_section_loop_total (k : nat) (first last : XY) (t : Track) (pos : nat)
    (found : bool) (sec : list (XY * XY)) :
  t <> [] ->
  exists sec' : list (XY * XY), get_section_loop k first last t pos found sec = Done sec'.
Proof.
  intros Hne. revert pos found sec. induction k as [|k IH]; intros pos found sec; simpl.
  - by exists sec.
  - destruct (lookup_lt_is_Some_2 t (pos mod length t)) as [s Hs].
    { apply Nat.mod_upper_bound. by destruct t. }
    rewrite Hs. simpl.
    repeat match goal with
           | |- context [if ?c then _ else _] => destruct c
           end; try apply IH; by eexists.
Qed.

Lemma _get_section_total (first last : XY) (t : Track) :
  t <> [] ->
  exists r : option (list (XY * XY)),
    _get_section first last t = Done r /\
    (forall sec : list (XY * XY), r = Some sec -> sec <> []).
Proof.
  intros Hne. unfold _get_section.
  destruct (Nat.eqb_spec (length t) 0) as [H0|_]; [by destruct t|].
  destruct (get_section_loop_total (2 * length t) first last t 0 false [] Hne) as [sec ->].
  simpl. destruct sec as [|p sec]; eexists; (split; [done|]); [done|].
  by intros ? [= <-].
Qed.

Lemma true_intersections_total (inter2 : list (XY * XY)) :
  exists inters : list (XY * XY), true_intersections inter2 = Done inters.
Proof.
  unfold true_intersections. apply for_each_total.
  intros acc i Hi%in_seq.
  rewrite py_get_pred, py_get_nat by lia.
  destruct (lookup_lt_is_Some_2 inter2 ((i + length inter2 - 1) mod length inter2))
    as [prev ->]; [apply Nat.mod_upper_bound; lia|].
  destruct (lookup_lt_is_Some_2 inter2 i) as [cur ->]; [lia|].
  destruct (lookup_lt_is_Some_2 inter2 (S i mod length inter2))
    as [next ->]; [apply Nat.mod_upper_bound; lia|].
  simpl. destruct (_ || _); by eexists.
Qed.

Lemma max_min_distance_total (sec1 sec2 : list (XY * XY)) :
  sec2 <> [] -> exists d : Q, max_min_distance sec1 sec2 = Done d.
Proof.
  intros Hne. unfold max_min_distance. apply for_each_total.
  intros d point _. destruct sec2 as [|q sec2]; [done|]. simpl. by eexists.
Qed.

Lemma mark_removed_total (track1 track2 : Track) (inters : list (XY * XY))
    (removed_idx : list nat) (i : nat) :
  track1 <> [] -> track2 <> [] -> (i < length inters)%nat ->
  exists removed_idx' : list nat,
    mark_removed track1 track2 inters removed_idx i = Done removed_idx'.
Proof.
  intros H1 H2 Hi. unfold mark_removed.
  rewrite py_get_pred, py_get_nat by lia.
  destruct (lookup_lt_is_Some_2 inters ((i + length inters - 1) mod length inters))
    as [prev ->]; [apply Nat.mod_upper_bound; lia|].
  destruct (lookup_lt_is_Some_2 inters i) as [cur ->]; [lia|]. simpl.
  destruct (_get_section_total prev.2 cur.1 track1 H1) as (sec1 & -> & _). simpl.
  destruct (_get_section_total prev.2 cur.1 track2 H2) as (sec2 & -> & Hsec2). simpl.
  destruct sec1 as [sec1|], sec2 as [sec2|]; try by eexists.
  destruct (max_min_distance_total sec1 sec2) as [d ->]; [by apply Hsec2|]. simpl.
  destruct (Qltb _ _); by eexists.
Qed.

(** On two tracks that are not empty the resolver returns. *)
Lemma _remove_roads_total (self : Env) (t1 t2 : Track) :
  tracks self = [t1; t2] -> t1 <> [] -> t2 <> [] ->
  exists self' : Env, _remove_roads self = Done self'.
Proof.
  intros Hts H1 H2. unfold _remove_roads. destruct (1 <? num_tracks self)%Z; [|by eexists].
  rewrite Hts. simpl.
  destruct t1 as [|s1 t1]; [done|]. destruct t2 as [|s2 t2]; [done|]. simpl.
  destruct (true_intersections_total
              (overlap_candidates (map seg_xy (s1 :: t1)) (map seg_xy (s2 :: t2))))
    as [inters Hinters].
  simpl in Hinters. rewrite Hinters. simpl.
  destruct (for_each_total (mark_removed (s1 :: t1) (s2 :: t2) inters)
              (seq 0 (length inters)) []) as [removed Hremoved].
  { intros acc i Hi%in_seq. apply mark_removed_total; [done|done|lia]. }
  rewrite Hremoved. simpl. by eexists.
Qed.

(** C5: the resolver deletes segments of the secondary track only.  The
    primary track is the same list of segments afterwards, the secondary
    track is a subsequence of what it was (the survivors in their order),
    any further track and every other field but [intersections] is
    untouched, and with [num_tracks = 1] the environment is not modified at
    all. *)
Theorem _remove_roads_frame (self self' : Env) :
  _remove_roads self = Done self' ->
  (num_tracks self = 1%Z -> self' = self) /\
  length (tracks self') = length (tracks self) /\
  tracks self' !! 0%nat = tracks self !! 0%nat /\
  (forall t2 t2' : Track,
      tracks self !! 1%nat = Some t2 -> tracks self' !! 1%nat = Some t2' ->
      sublist t2' t2) /\
  (forall k : nat, (2 <= k)%nat -> tracks self' !! k = tracks self !! k) /\
  track self' = track self /\ info self' = info self /\
  np_random self' = np_random self /\ start_alpha self' = start_alpha self /\
  num_tracks self' = num_tracks self /\ num_lanes self' = num_lanes self /\
  num_lanes_changes self' = num_lanes_changes self /\
  prob_obstacle self' = prob_obstacle self.
Proof.
  intros H. unfold _remove_roads in H.
  destruct (Z.ltb_spec 1 (num_tracks self)) as [Hnt|Hnt].
  - inv_bind H. rename r into track1. inv_bind H. rename r into track2.
    destruct (_ || _); [done|].
    inv_bind H. rename r into inters. inv_bind H. rename r into removed.
    inv_bind H. rename r into ts. inv_bind H. rename r into ts'.
    injection H as <-. simpl.
    apply py_get_Some in Hstep as (k1 & Hk1 & Ht1).
    apply py_get_Some in Hstep0 as (k2 & Hk2 & Ht2).
    apply py_set_Some in Hstep3 as (k1' & Hk1' & ->).
    apply py_set_Some in Hstep4 as (k2' & Hk2' & ->).
    rewrite length_insert in Hk2'.
    rewrite py_index_spec in Hk1, Hk2, Hk1', Hk2'.
    repeat case_decide; try lia; try done.
    injection Hk1 as <-. injection Hk2 as <-. injection Hk1' as <-. injection Hk2' as <-.
    change (Z.to_nat 0) with 0%nat in *. change (Z.to_nat 1) with 1%nat in *.
    rewrite (list_insert_id (tracks self) 0 track1 Ht1).
    repeat split; try done.
    + lia.
    + by rewrite length_insert.
    + by rewrite list_lookup_insert_ne.
    + intros t2 t2' Hold Hnew.
      rewrite list_lookup_insert_eq in Hnew by (by eapply lookup_lt_Some).
      injection Hnew as <-. rewrite Hold in Ht2. injection Ht2 as <-.
      apply np_delete_sublist.
    + intros k Hk. by rewrite list_lookup_insert_ne by lia.
  - injection H as <-. repeat split; try done. intros t2 t2' Hold Hnew.
    rewrite Hold in Hnew. by injection Hnew as <-.
Qed.

End Resolver.

Lemma _remove_roads_frame_witness :
  exists self' : Env,
    _remove_roads (M := series_math) sample_env = Done self' /\
    tracks self' !! 0%nat = Some sample_track0 /\
    forall t2' : Track, tracks self' !! 1%nat = Some t2' -> sublist t2' sample_track1.
Proof.
  destruct (_remove_roads_total (M := series_math) sample_env sample_track0 sample_track1)
    as [self' Hrun]; [reflexivity|discriminate|discriminate|].
  exists self'. split; [exact Hrun|].
  destruct (_remove_roads_frame (M := series_math) sample_env self' Hrun)
    as (_ & _ & H0 & H1 & _).
  split; [exact H0|]. intros t2' Ht2'. exact (H1 sample_track1 t2' eq_refl Ht2').
Defined.

(** ** The path walker *)

(** More fuel does not change what a loop returns. *)
Lemma while_loop_fuel {S : Type} (cond : S -> bool) (body : S -> S)
    (fuel fuel' : nat) (s r : S) :
  while_loop fuel cond body s = Done r -> (fuel <= fuel')%nat ->
  while_loop fuel' cond body s = Done r.
Proof.
  revert fuel' s. induction fuel as [|fuel IH]; intros fuel' s H Hle; [done|].
  destruct fuel' as [|fuel']; [lia|]. simpl in *.
  destruct (cond s); [|done]. apply IH; [done|lia].
Qed.

Lemma scan_checkpoints_fuel (cps : list Checkpoint) (alpha : Q) (fuel fuel' : nat)
    (dest_i : nat) (r : bool * nat * Checkpoint) :
  scan_checkpoints fuel cps alpha dest_i = Done r -> (fuel <= fuel')%nat ->
  scan_checkpoints fuel' cps alpha dest_i = Done r.
Proof.
  revert fuel' dest_i. induction fuel as [|fuel IH]; intros fuel' dest_i H Hle; [done|].
  destruct fuel' as [|fuel']; [lia|]. simpl in *.
  destruct (cps !! (dest_i mod length cps)%nat) as [dest|]; [|done]. simpl in *.
  destruct (Qle_bool alpha (cp_alpha dest)); [done|].
  destruct (S dest_i mod length cps =? 0)%nat; [done|]. apply IH; [done|lia].
Qed.

Lemma find_destination_fuel (cps : list Checkpoint) (fuel fuel' : nat) (alpha : Q)
    (dest_i : nat) (r : Q * nat * Checkpoint) :
  find_destination fuel cps alpha dest_i = Done r -> (fuel <= fuel')%nat ->
  find_destination fuel' cps alpha dest_i = Done r.
Proof.
  revert fuel' alpha dest_i. induction fuel as [|fuel IH]; intros fuel' alpha dest_i H Hle;
    [done|].
  destruct fuel' as [|fuel']; [lia|].
  cbn [find_destination] in *. inv_bind H. destruct r0 as [[failed d] dest].
  rewrite (scan_checkpoints_fuel _ _ _ (S fuel') _ _ Hstep) by lia. simpl.
  destruct (negb failed); [done|]. apply IH; [done|lia].
Qed.

(** The cursor of the destination search only moves forward. *)
Lemma scan_checkpoints_forward (cps : list Checkpoint) (alpha : Q) (fuel dest_i : nat)
    (failed : bool) (d : nat) (dest : Checkpoint) :
  scan_checkpoints fuel cps alpha dest_i = Done (failed, d, dest) ->
  (dest_i <= d)%nat /\ (failed = true -> (d mod length cps = 0)%nat).
Proof.
  revert dest_i. induction fuel as [|fuel IH]; intros dest_i H; [done|]. simpl in H.
  inv_bind H. destruct (Qle_bool alpha (cp_alpha r)).
  - injection H as <- <- _. split; [lia|done].
  - destruct (Nat.eqb_spec (S dest_i mod length cps) 0) as [H0|_].
    + injection H as <- <- _. split; [lia|done].
    + apply IH in H. split; [lia|tauto].
Qed.

Lemma find_destination_forward (cps : list Checkpoint) (fuel : nat) (alpha : Q)
    (dest_i : nat) (alpha' : Q) (d : nat) (dest : Checkpoint) :
  find_destination fuel cps alpha dest_i = Done (alpha', d, dest) -> (dest_i <= d)%nat.
Proof.
  revert alpha dest_i. induction fuel as [|fuel IH]; intros alpha dest_i H; [done|].
  cbn [find_destination] in H. inv_bind H. destruct r as [[failed d0] dest0].
  apply scan_checkpoints_forward in Hstep as [Hle _].
  destruct (negb failed).
  - injection H as _ <- _. done.
  - apply IH in H. lia.
Qed.

(** The scan of the checkpoints ends within one round of the ring. *)
Lemma scan_checkpoints_total (cps : list Checkpoint) (alpha : Q) (fuel dest_i : nat) :
  cps <> [] -> (length cps - dest_i mod length cps <= fuel)%nat ->
  exists r : bool * nat * Checkpoint, scan_checkpoints fuel cps alpha dest_i = Done r.
Proof.
  intros Hne.
  assert (Hn : (0 < length cps)%nat) by (destruct cps; simpl; [done|lia]).
  revert dest_i. induction fuel as [|fuel IH]; intros dest_i Hfuel.
  - pose proof (Nat.mod_upper_bound dest_i (length cps) ltac:(lia)). lia.
  - simpl.
    destruct (lookup_lt_is_Some_2 cps (dest_i mod length cps)) as [dest ->];
      [apply Nat.mod_upper_bound; lia|]. simpl.
    destruct (Qle_bool alpha (cp_alpha dest)); [by eexists|].
    destruct (Nat.eqb_spec (S dest_i mod length cps) 0) as [H0|H0]; [by eexists|].
    apply IH.
    pose proof (Nat.mod_upper_bound dest_i (length cps) ltac:(lia)) as Hub.
    assert (Hmod : (S dest_i mod length cps = S (dest_i mod length cps))%nat).
    { destruct (decide (S (dest_i mod length cps) < length cps)%nat) as [Hlt|Hge].
      - replace (S dest_i) with (1 + dest_i)%nat by lia.
        rewrite <- Nat.Div0.add_mod_idemp_r.
        rewrite Nat.mod_small; lia.
      - exfalso. apply H0.
        replace (S dest_i) with (1 + dest_i)%nat by lia.
        rewrite <- Nat.Div0.add_mod_idemp_r.
        replace (1 + dest_i mod length cps)%nat with (length cps) by lia.
        apply Nat.Div0.mod_same. }
    lia.
Qed.

Lemma pi_positive : 0 < 2 * pi.
Proof. reflexivity. Qed.

(** Finitely many turns cover any angle. *)
Lemma turns_cover (x : Q) : exists k : nat, x <= inject_Z (Z.of_nat k) * (2 * pi).
Proof.
  exists (Z.to_nat (Qceiling (x / (2 * pi)))).
  pose proof pi_positive as Hpi.
  assert (Hx : x == x / (2 * pi) * (2 * pi)).
  { rewrite Qmult_comm. symmetry. apply Qmult_div_r. intros H0. rewrite H0 in Hpi.
    by apply Qlt_irrefl in Hpi. }
  rewrite Hx at 1. apply Qmult_le_r; [done|].
  eapply Qle_trans; [apply Qle_ceiling|].
  rewrite <- Zle_Qle. lia.
Qed.

Lemma inject_succ (k : nat) :
  inject_Z (Z.of_nat (S k)) == inject_Z (Z.of_nat k) + 1.
Proof. rewrite Nat2Z.inj_succ. unfold Z.succ. by rewrite inject_Z_plus. Qed.

Section WalkerTermination.
Context {M : MathLib}.

(** From a cursor at the start of the ring, the search ends after at most
    [k] turns when [k] turns bring [alpha] down to the first checkpoint. *)
Lemma find_destination_aligned (cps : list Checkpoint) (cp0 : Checkpoint) (k : nat) :
  cps !! 0%nat = Some cp0 ->
  forall (fuel : nat) (alpha : Q) (dest_i : nat),
    (dest_i mod length cps = 0)%nat ->
    alpha - inject_Z (Z.of_nat k) * (2 * pi) <= cp_alpha cp0 ->
    (length cps + k + 1 <= fuel)%nat ->
    exists r : Q * nat * Checkpoint, find_destination fuel cps alpha dest_i = Done r.
Proof.
  intros Hcp0. assert (Hne : cps <> []) by (by intros ->).
  induction k as [|k IH]; intros fuel alpha dest_i Hal Hk Hfuel.
  - destruct fuel as [|fuel]; [lia|]. cbn [find_destination scan_checkpoints].
    rewrite Hal, Hcp0. simpl.
    replace (Qle_bool alpha (cp_alpha cp0)) with true; [by eexists|].
    symmetry. apply Qle_bool_iff.
    change (inject_Z (Z.of_nat 0)) with 0 in Hk. lra.
  - destruct fuel as [|fuel]; [lia|]. cbn [find_destination].
    destruct (scan_checkpoints_total cps alpha (S fuel) dest_i Hne) as [[[failed d] dest] Hscan];
      [lia|].
    rewrite Hscan. simpl. destruct failed; simpl; [|by eexists].
    apply scan_checkpoints_forward in Hscan as [_ Hd].
    apply IH; [by apply Hd| |lia].
    rewrite inject_succ in Hk. lra.
Qed.

Lemma find_destination_total (cps : list Checkpoint) (alpha : Q) (dest_i : nat) :
  cps <> [] ->
  exists (fuel : nat) (r : Q * nat * Checkpoint),
    find_destination fuel cps alpha dest_i = Done r.
Proof.
  intros Hne.
  destruct (lookup_lt_is_Some_2 cps 0) as [cp0 Hcp0]; [destruct cps; simpl; [done|lia]|].
  destruct (turns_cover (alpha - 2 * pi - cp_alpha cp0)) as [k Hk].
  exists (S (length cps + k + 1)). cbn [find_destination].
  destruct (scan_checkpoints_total cps alpha (S (length cps + k + 1)) dest_i Hne)
    as [[[failed d] dest] Hscan]; [lia|].
  rewrite Hscan. simpl. destruct failed; simpl; [|by eexists].
  apply scan_checkpoints_forward in Hscan as [_ Hd].
  apply (find_destination_aligned cps cp0 k Hcp0); [by apply Hd| |lia]. lra.
Qed.

(** The two loops that bring [beta] within a turn and a half of [alpha]. *)
Lemma beta_down_total (alpha beta : Q) :
  exists (fuel : nat) (r : Q),
    while_loop fuel (fun beta => Qgtb (beta - alpha) (1.5 * pi))
               (fun beta => beta - 2 * pi) beta = Done r.
Proof.
  destruct (turns_cover (beta - alpha - 1.5 * pi)) as [k Hk].
  exists (S k). revert beta Hk. induction k as [|k IH]; intros beta Hk.
  - simpl. replace (Qgtb (beta - alpha) (1.5 * pi)) with false; [by eexists|].
    symmetry. unfold Qgtb, Qltb. apply negb_false_iff, Qle_bool_iff.
    change (inject_Z (Z.of_nat 0)) with 0 in Hk. lra.
  - cbn [while_loop]. destruct (Qgtb (beta - alpha) (1.5 * pi)); [|by eexists].
    apply IH. rewrite inject_succ in Hk. lra.
Qed.

Lemma beta_up_total (alpha beta : Q) :
  exists (fuel : nat) (r : Q),
    while_loop fuel (fun beta => Qltb (beta - alpha) (-1.5 * pi))
               (fun beta => beta + 2 * pi) beta = Done r.
Proof.
  destruct (turns_cover (alpha - beta - 1.5 * pi)) as [k Hk].
  exists (S k). revert beta Hk. induction k as [|k IH]; intros beta Hk.
  - simpl. replace (Qltb (beta - alpha) (-1.5 * pi)) with false; [by eexists|].
    symmetry. unfold Qltb. apply negb_false_iff, Qle_bool_iff.
    change (inject_Z (Z.of_nat 0)) with 0 in Hk. lra.
  - cbn [while_loop]. destruct (Qltb (beta - alpha) (-1.5 * pi)); [|by eexists].
    apply IH. rewrite inject_succ in Hk. lra.
Qed.

(** One iteration of the outer loop returns, given enough fuel. *)
Lemma walk_step_total (cps : list Checkpoint) (s : Walker) :
  cps <> [] ->
  exists (fuel : nat) (r : Walker * TrackPoint), walk_step fuel cps s = Done r.
Proof.
  intros Hne. unfold walk_step.
  set (alpha0 := math_atan2 (w_y s) (w_x s)).
  destruct (w_visited_other_side s && Qgtb alpha0 0); destruct (Qltb alpha0 0);
    match goal with
    | |- context [find_destination _ cps ?a ?d] =>
        destruct (find_destination_total cps a d Hne) as (f1 & [[a' d'] dest] & Hfd)
    end;
    destruct (beta_down_total a' (w_beta s)) as (f2 & b1 & Hb1);
    destruct (beta_up_total a' b1) as (f3 & b2 & Hb2);
    exists (f1 `max` (f2 `max` f3))%nat;
    rewrite (find_destination_fuel _ _ _ _ _ _ Hfd) by lia; simpl;
    rewrite (while_loop_fuel _ _ _ _ _ _ Hb1) by lia; simpl;
    rewrite (while_loop_fuel _ _ _ _ _ _ Hb2) by lia; simpl; by eexists.
Qed.

Lemma walk_step_fuel (cps : list Checkpoint) (s : Walker) (fuel fuel' : nat)
    (r : Walker * TrackPoint) :
  walk_step fuel cps s = Done r -> (fuel <= fuel')%nat -> walk_step fuel' cps s = Done r.
Proof.
  intros H Hle. unfold walk_step in *.
  set (alpha0 := math_atan2 (w_y s) (w_x s)) in *.
  destruct (w_visited_other_side s && Qgtb alpha0 0); destruct (Qltb alpha0 0);
    inv_bind H; destruct r0 as [[a' d'] dest];
    rewrite (find_destination_fuel _ _ _ _ _ _ Hstep Hle); simpl;
    inv_bind H; rewrite (while_loop_fuel _ _ _ _ _ _ Hstep0 Hle); simpl;
    inv_bind H; rewrite (while_loop_fuel _ _ _ _ _ _ Hstep1 Hle); simpl; done.
Qed.

(** The destination cursor never moves backward. *)
Lemma walk_step_forward (cps : list Checkpoint) (s s' : Walker) (fuel : nat)
    (point : TrackPoint) :
  walk_step fuel cps s = Done (s', point) -> (w_dest_i s <= w_dest_i s')%nat.
Proof.
  intros H. unfold walk_step in H.
  set (alpha0 := math_atan2 (w_y s) (w_x s)) in *.
  destruct (w_visited_other_side s && Qgtb alpha0 0); destruct (Qltb alpha0 0);
    inv_bind H; destruct r as [[a' d'] dest];
    apply find_destination_forward in Hstep;
    inv_bind H; inv_bind H; injection H as <- _; done.
Qed.

End WalkerTermination.

Section WalkerLoop.
Context {M : MathLib}.

Lemma walk_loop_fuel (cps : list Checkpoint) (fuel fuel' no_freeze : nat) (s : Walker)
    (track : list TrackPoint) (r : list TrackPoint * Walker * nat) :
  walk_loop fuel no_freeze cps s track = Done r -> (fuel <= fuel')%nat ->
  walk_loop fuel' no_freeze cps s track = Done r.
Proof.
  revert s track. induction no_freeze as [|n IH]; intros s track H Hle; [done|].
  cbn [walk_loop] in *. inv_bind H. destruct r0 as [s1 point].
  rewrite (walk_step_fuel _ _ _ _ _ Hstep Hle). simpl.
  destruct (4 <? w_laps s1)%Z; [done|]. destruct (n =? 0)%nat; [done|]. by apply IH.
Qed.

Lemma walker_after_fuel (cps : list Checkpoint) (fuel fuel' k : nat) (s r : Walker) :
  walker_after fuel cps k s = Done r -> (fuel <= fuel')%nat ->
  walker_after fuel' cps k s = Done r.
Proof.
  revert s. induction k as [|k IH]; intros s H Hle; [done|].
  cbn [walker_after] in *. inv_bind H. destruct r0 as [s1 point].
  rewrite (walk_step_fuel _ _ _ _ _ Hstep Hle). simpl. by apply IH.
Qed.

(** The outer loop returns, given enough fuel for its iterations. *)
Lemma walk_loop_total (cps : list Checkpoint) (no_freeze : nat) (s : Walker)
    (track : list TrackPoint) :
  cps <> [] -> (1 <= no_freeze)%nat ->
  exists (fuel : nat) (r : list TrackPoint * Walker * nat),
    walk_loop fuel no_freeze cps s track = Done r.
Proof.
  intros Hne. revert s track. induction no_freeze as [|n IH]; intros s track Hn; [lia|].
  destruct (walk_step_total cps s Hne) as (f1 & [s1 point] & Hstep).
  destruct (decide (4 < w_laps s1)%Z) as [Hlaps|Hlaps].
  - exists f1. cbn [walk_loop]. rewrite Hstep. simpl.
    replace (4 <? w_laps s1)%Z with true by (symmetry; by apply Z.ltb_lt). by eexists.
  - destruct n as [|n].
    + exists f1. cbn [walk_loop]. rewrite Hstep. simpl.
      replace (4 <? w_laps s1)%Z with false by (symmetry; by apply Z.ltb_ge; lia).
      by eexists.
    + destruct (IH s1 (track ++ [point]) ltac:(lia)) as (f2 & r & Hrest).
      exists (f1 `max` f2)%nat, r. cbn [walk_loop].
      rewrite (walk_step_fuel _ _ _ _ _ Hstep) by lia. simpl.
      replace (4 <? w_laps s1)%Z with false by (symmetry; by apply Z.ltb_ge; lia).
      simpl. apply (walk_loop_fuel _ _ _ _ _ _ _ Hrest). lia.
Qed.

(** What the outer loop returns: it ran [length points] iterations, one
    point each, at least one and at most the budget; it stopped on the
    first iteration that left [laps > 4], or on the last of the budget. *)
Lemma walk_loop_iterations (cps : list Checkpoint) (fuel no_freeze : nat) (s s' : Walker)
    (track0 track : list TrackPoint) (left : nat) :
  walk_loop fuel no_freeze cps s track0 = Done (track, s', left) ->
  exists points : list TrackPoint,
    track = track0 ++ points /\
    (1 <= length points <= no_freeze)%nat /\
    walker_after fuel cps (length points) s = Done s' /\
    ((4 < w_laps s')%Z \/ length points = no_freeze) /\
    (forall k : nat, (1 <= k < length points)%nat ->
       exists sk : Walker, walker_after fuel cps k s = Done sk /\ (w_laps sk <= 4)%Z) /\
    (forall k : nat, (k < length points)%nat ->
       exists (sk sk' : Walker) (point : TrackPoint),
         walker_after fuel cps k s = Done sk /\
         walk_step fuel cps sk = Done (sk', point) /\
         points !! k = Some point /\ (w_dest_i sk <= w_dest_i sk')%nat).
Proof.
  revert s track0. induction no_freeze as [|n IH]; intros s track0 H; [done|].
  cbn [walk_loop] in H. inv_bind H. destruct r as [s1 point].
  pose proof (walk_step_forward _ _ _ _ _ Hstep) as Hfwd.
  assert (Hone : forall k : nat, (k < 1)%nat ->
            exists (sk sk' : Walker) (pt : TrackPoint),
              walker_after fuel cps k s = Done sk /\
              walk_step fuel cps sk = Done (sk', pt) /\
              [point] !! k = Some pt /\ (w_dest_i sk <= w_dest_i sk')%nat).
  { intros k Hk. replace k with 0%nat by lia. by exists s, s1, point. }
  destruct (Z.ltb_spec 4 (w_laps s1)) as [Hlaps|Hlaps].
  - injection H as <- <- <-. exists [point]. simpl. rewrite Hstep. simpl.
    repeat split; try done; try lia; intros k Hk; lia.
  - destruct (Nat.eqb_spec n 0) as [->|Hn].
    + injection H as <- <- <-. exists [point]. simpl. rewrite Hstep. simpl.
      repeat split; try done; try lia; intros k Hk; lia.
    + apply IH in H as (points & -> & Hlen & Hafter & Hstop & Hlaps' & Hemit).
      exists (point :: points). simpl. rewrite Hstep. simpl.
      split; [by rewrite <- app_assoc|]. split; [lia|]. split; [done|].
      split; [destruct Hstop; [by left | right; lia]|]. split.
      * intros k Hk. destruct k as [|k]; [lia|]. cbn [walker_after]. rewrite Hstep. simpl.
        destruct k as [|k]; [by exists s1|]. apply Hlaps'. lia.
      * intros k Hk. destruct k as [|k]; [apply (Hone 0%nat); lia|].
        cbn [walker_after]. rewrite Hstep. simpl. apply Hemit. lia.
Qed.

(** C9: on every sequence of checkpoints that is not empty the path walker
    returns, given enough fuel for its inner loops: the destination search
    and the two heading loops of every iteration exit (the cursor moving
    forward only); every iteration of the outer loop appends exactly one
    point; and the loop stops after the first iteration that leaves
    [laps > 4], or after the 2500th, whichever comes first. *)
Theorem walk_track_terminates (checkpoints : list Checkpoint) (rad0 : Q) :
  checkpoints <> [] ->
  exists fuel0 : nat, forall fuel : nat, (fuel0 <= fuel)%nat ->
    exists (track : list TrackPoint) (s : Walker),
      walk_track fuel rad0 checkpoints = Done track /\
      (1 <= length track <= NO_FREEZE)%nat /\
      walker_after fuel checkpoints (length track) (walker_start rad0) = Done s /\
      ((4 < w_laps s)%Z \/ length track = NO_FREEZE) /\
      (forall k : nat, (1 <= k < length track)%nat ->
         exists sk : Walker,
           walker_after fuel checkpoints k (walker_start rad0) = Done sk /\
           (w_laps sk <= 4)%Z) /\
      (forall k : nat, (k < length track)%nat ->
         exists (sk sk' : Walker) (point : TrackPoint),
           walker_after fuel checkpoints k (walker_start rad0) = Done sk /\
           walk_step fuel checkpoints sk = Done (sk', point) /\
           track !! k = Some point /\ (w_dest_i sk <= w_dest_i sk')%nat).
Proof.
  intros Hne.
  destruct (walk_loop_total checkpoints NO_FREEZE (walker_start rad0) [] Hne)
    as (fuel0 & [[track s] left] & Hrun); [unfold NO_FREEZE; lia|].
  exists fuel0. intros fuel Hfuel.
  pose proof (walk_loop_fuel _ _ _ _ _ _ _ Hrun Hfuel) as Hrun'.
  destruct (walk_loop_iterations _ _ _ _ _ _ _ _ Hrun')
    as (points & -> & Hlen & Hafter & Hstop & Hlaps & Hemit).
  change ([] ++ points) with points in *.
  exists points, s. unfold walk_track. rewrite Hrun'.
  split; [reflexivity|]. split; [exact Hlen|]. split; [exact Hafter|].
  split; [exact Hstop|]. split; [exact Hlaps|exact Hemit].
Qed.

End WalkerLoop.

Lemma walk_track_terminates_witness :
  sample_checkpoints <> [] /\
  exists fuel0 : nat, forall fuel : nat, (fuel0 <= fuel)%nat ->
    exists track : list TrackPoint,
      walk_track (M := series_math) fuel TRACK_RAD sample_checkpoints = Done track /\
      (1 <= length track <= NO_FREEZE)%nat.
Proof.
  split; [vm_compute; discriminate|].
  destruct (walk_track_terminates (M := series_math) sample_checkpoints TRACK_RAD)
    as [fuel0 H]; [vm_compute; discriminate|].
  exists fuel0. intros fuel Hfuel.
  destruct (H fuel Hfuel) as (track & s & Hrun & Hlen & _).
  exists track. split; [exact Hrun|exact Hlen].
Defined.

(** The first three points of the walk over the sample checkpoints: the
    walker leaves [(1.5*TRACK_RAD, 0)] upward, one step of
    [TRACK_DETAIL_STEP] at a time. *)
Example sample_walk_first_points :
  match walk_loop (M := series_math) 20 3 sample_checkpoints (walker_start TRACK_RAD) [] with
  | Done (points, _, budget) =>
      (map (fun p => (Qfloor (tp_x p), Qfloor (tp_y p))) points, budget)
  | _ => ([], 0%nat)
  end = ([(225, 3); (225, 7); (223, 10)]%Z, 0%nat).
Proof. vm_compute. reflexivity. Qed.

(** ** [_get_track] returns *)

Section GetTrackReturns.
Context {M : MathLib}.

Lemma create_checkpoint_length (rad0 : Q) (st : list Checkpoint * RandomState * Q) (c : nat) :
  length (create_checkpoint rad0 st c).1.1 = S (length st.1.1).
Proof.
  destruct st as [[cps g] sa]. unfold create_checkpoint.
  destruct (uniform g _ _) as [jitter g1]. destruct (uniform g1 _ _) as [rad g2].
  destruct (c =? 0)%nat; destruct (c =? CHECKPOINTS - 1)%nat; simpl;
    rewrite length_app; simpl; lia.
Qed.

Lemma create_checkpoints_length (rad0 : Q) (g : RandomState) (sa : Q) :
  length (create_checkpoints rad0 g sa).1.1 = CHECKPOINTS.
Proof.
  unfold create_checkpoints.
  assert (H : forall (l : list nat) (st : list Checkpoint * RandomState * Q),
             length (foldl (create_checkpoint rad0) st l).1.1
             = (length st.1.1 + length l)%nat).
  { induction l as [|c l IH]; intros st; simpl; [lia|].
    rewrite IH, create_checkpoint_length. lia. }
  rewrite H. reflexivity.
Qed.

Lemma extract_loop_total (raw : list TrackPoint) (sa : Q) :
  raw <> [] -> exists r : option Track, extract_loop raw sa = Done r.
Proof.
  intros Hne. unfold extract_loop.
  destruct (extract_range raw sa) as [[loop|]| |] eqn:Hex.
  - simpl. pose proof (extract_range_nonempty _ _ _ Hex) as Hloop.
    destruct (well_glued_together_Some loop Hloop) as (first & last & _ & _ & Hgap).
    destruct (to_segments_ring loop) as (segs & Hsegs & _).
    unfold close_loop. rewrite Hgap. simpl. rewrite Hsegs. simpl.
    destruct (Qgtb _ _); by eexists.
  - by eexists.
  - exfalso. unfold extract_range in Hex.
    rewrite find_loop_range_first in Hex by (destruct raw; simpl; [done|lia]).
    simpl in Hex. by destruct (last_two _) as [[? ?]|].
  - exfalso. unfold extract_range in Hex.
    rewrite find_loop_range_first in Hex by (destruct raw; simpl; [done|lia]).
    simpl in Hex. by destruct (last_two _) as [[? ?]|].
Qed.

(** With enough fuel for the walk, [_get_track] returns: a track or
    [False], never an exception. *)
Lemma _get_track_returns (rad0 : Q) (self : Env) :
  exists fuel0 : nat, forall fuel : nat, (fuel0 <= fuel)%nat ->
    exists (r : option Track) (self' : Env), _get_track fuel rad0 self = Done (r, self').
Proof.
  unfold _get_track.
  pose proof (create_checkpoints_length rad0 (np_random self) (start_alpha self)) as Hlen.
  destruct (create_checkpoints rad0 (np_random self) (start_alpha self)) as [[cps g] sa].
  simpl in Hlen.
  assert (Hne : cps <> []) by (intros ->; discriminate Hlen).
  destruct (walk_loop_total cps NO_FREEZE (walker_start rad0) [] Hne)
    as (fuel0 & [[raw s] budget] & Hrun); [unfold NO_FREEZE; lia|].
  exists fuel0. intros fuel Hfuel.
  pose proof (walk_loop_fuel _ _ _ _ _ _ _ Hrun Hfuel) as Hrun'.
  destruct (walk_loop_iterations _ _ _ _ _ _ _ _ Hrun') as (points & Hraw & Hpts & _).
  change ([] ++ points) with points in Hraw. subst raw.
  assert (Hpoints : points <> []) by (intros ->; simpl in Hpts; lia).
  destruct (extract_loop_total points sa Hpoints) as [r Hr].
  unfold walk_track. rewrite Hrun'. simpl. rewrite Hr. simpl. by eexists _, _.
Qed.

(** What [_get_track] returns is what the loop extractor returns on the raw
    walk over the sampled checkpoints, with the start angle the sampler
    stored. *)
Lemma _get_track_result (fuel : nat) (rad0 : Q) (self self' : Env) (r : option Track) :
  _get_track fuel rad0 self = Done (r, self') ->
  exists raw : list TrackPoint,
    walk_track fuel rad0 (create_checkpoints rad0 (np_random self) (start_alpha self)).1.1
    = Done raw /\
    extract_loop raw (create_checkpoints rad0 (np_random self) (start_alpha self)).2
    = Done r /\
    start_alpha self' = (create_checkpoints rad0 (np_random self) (start_alpha self)).2 /\
    tracks self' = tracks self.
Proof.
  unfold _get_track.
  destruct (create_checkpoints rad0 (np_random self) (start_alpha self)) as [[cps g] sa].
  intros H. inv_bind H. inv_bind H. injection H as <- <-. by exists r0.
Qed.

End GetTrackReturns.

(** * Further properties *)

(** ** The random sources *)

Lemma random_sample_unit (g : RandomState) :
  0 <= (random_sample g).1 /\ (random_sample g).1 < 1.
Proof.
  unfold random_sample, next_word. cbn [fst snd].
  pose proof (N.mod_lt (g 0%nat) (2 ^ 53) ltac:(done)) as Hlt.
  apply N2Z.inj_lt in Hlt. change (Z.of_N (2 ^ 53)) with (Z.pos (2 ^ 53)) in Hlt.
  pose proof (N2Z.is_nonneg (g 0%nat mod 2 ^ 53)) as Hpos.
  split.
  - unfold Qle. cbn [Qnum Qden]. by rewrite Z.mul_0_l, Z.mul_1_r.
  - unfold Qlt. cbn [Qnum Qden]. by rewrite Z.mul_1_l, Z.mul_1_r.
Qed.

(** A uniform draw lies in its range, and takes one word. *)
Lemma uniform_range (g : RandomState) (low high : Q) :
  low <= high ->
  low <= (uniform g low high).1 /\ (uniform g low high).1 <= high /\
  (low < high -> (uniform g low high).1 < high) /\
  (forall n : nat, (uniform g low high).2 n = g (S n)).
Proof.
  intros Hle. unfold uniform.
  pose proof (random_sample_unit g) as [H0 H1].
  destruct (random_sample g) as [u g'] eqn:E. simpl in *.
  assert (Hg : forall n, g' n = g (S n)).
  { unfold random_sample, next_word in E. by injection E as _ <-. }
  repeat split; try done; try nra.
Qed.

(** An invariant of a fold over [range(start, start + len)]. *)
Lemma foldl_seq_invariant {S : Type} (P : nat -> S -> Prop) (f : S -> nat -> S)
    (start len : nat) (s : S) :
  P start s ->
  (forall (i : nat) (t : S), (start <= i < start + len)%nat -> P i t -> P (Datatypes.S i) (f t i)) ->
  P (start + len)%nat (foldl f s (seq start len)).
Proof.
  revert start s. induction len as [|len IH]; intros start s Hs Hf; simpl.
  - by rewrite Nat.add_0_r.
  - replace (start + Datatypes.S len)%nat with (Datatypes.S start + len)%nat by lia.
    apply IH; [apply Hf; [lia|done]|]. intros i t Hi. apply Hf. lia.
Qed.

(** ** The checkpoint sampler *)

Section Sampler.
Context {M : MathLib}.

Lemma create_checkpoint_round (rad0 : Q) (cps : list Checkpoint) (g : RandomState)
    (sa : Q) (c : nat) :
  (c < CHECKPOINTS)%nat ->
  exists cp : Checkpoint,
    (create_checkpoint rad0 (cps, g, sa) c).1.1 = cps ++ [cp] /\
    checkpoint_ok rad0 c cp /\
    (forall n : nat, (create_checkpoint rad0 (cps, g, sa) c).1.2 n = g (S (S n))) /\
    (create_checkpoint rad0 (cps, g, sa) c).2 =
      (if (c =? CHECKPOINTS - 1)%nat then 2 * pi * (-0.5) / 12 else sa).
Proof.
  intros Hc. unfold create_checkpoint.
  change (inject_Z (Z.of_nat CHECKPOINTS)) with 12.
  pose proof pi_positive as Hpi.
  destruct (uniform_range g 0 (2 * pi * 1 / 12)) as (Hj0 & _ & Hj1 & Hg1);
    [unfold Qdiv; change (/ 12) with (1 # 12); lra|].
  destruct (uniform g 0 (2 * pi * 1 / 12)) as [jitter g1]. cbn [fst snd] in *.
  assert (Hjit : jitter < 2 * pi * 1 / 12)
    by (apply Hj1; unfold Qdiv; change (/ 12) with (1 # 12); lra).
  unfold Qdiv in Hjit. change (/ 12) with (1 # 12) in Hjit.
  destruct (uniform g1 (rad0 / 3) rad0) as [rad g2] eqn:Eu.
  assert (Hg2 : forall n, g2 n = g1 (S n)).
  { unfold uniform, random_sample, next_word in Eu. by injection Eu as _ <-. }
  assert (Hrad : 0 <= rad0 -> rad0 / 3 <= rad /\ rad <= rad0).
  { intros H0. destruct (uniform_range g1 (rad0 / 3) rad0) as (Hr0 & Hr1 & _);
      [unfold Qdiv; change (/ 3) with (1 # 3); lra|].
    rewrite Eu in Hr0, Hr1. done. }
  destruct (Nat.eqb_spec c 0) as [E0|H0];
    destruct (Nat.eqb_spec c (CHECKPOINTS - 1)) as [H11|H11];
    try (unfold CHECKPOINTS in H11; simpl in H11; lia);
    eexists; (split; [reflexivity|]);
    (split; [|split; [intros n; cbn [fst snd]; by rewrite Hg2, Hg1 | reflexivity]]);
    unfold checkpoint_ok; cbn [cp_alpha cp_x cp_y];
    unfold Qdiv; change (/ 12) with (1 # 12).
  - subst c. change (inject_Z (Z.of_nat 0)) with 0.
    split; [lra|]. split; [lra|]. split; [done|]. split; [intros [=]|].
    eexists. repeat split; try done; lia.
  - subst c. split; [lra|]. split; [lra|]. split; [intros E; by destruct (H0 E)|].
    split; [intros _; reflexivity|].
    exists (1.5 * rad0). split; [done|]. split; [done|]. split; [done|].
    intros [_ Hlt]. unfold CHECKPOINTS in Hlt. simpl in Hlt. lia.
  - split; [lra|]. split; [lra|]. split; [intros E; by destruct (H0 E)|].
    split; [intros E; unfold CHECKPOINTS in H11; simpl in H11; lia|].
    exists rad. repeat split; try done; try lia.
    + intros [?|?]; [lia|]. unfold CHECKPOINTS in H11. simpl in H11. lia.
    + by apply Hrad.
    + by apply Hrad.
Qed.

(** The sampled list, the source and the start angle after the twelve
    rounds. *)
Lemma create_checkpoints_rounds (rad0 : Q) (g : RandomState) (sa : Q) :
  length (create_checkpoints rad0 g sa).1.1 = CHECKPOINTS /\
  (forall (k : nat) (cp : Checkpoint),
     (create_checkpoints rad0 g sa).1.1 !! k = Some cp -> checkpoint_ok rad0 k cp) /\
  (forall n : nat, (create_checkpoints rad0 g sa).1.2 n = g (24 + n)%nat) /\
  (create_checkpoints rad0 g sa).2 = 2 * pi * (-0.5) / 12.
Proof.
  pose (P := fun (i : nat) (st : list Checkpoint * RandomState * Q) =>
               length st.1.1 = i /\
               (forall k cp, st.1.1 !! k = Some cp -> checkpoint_ok rad0 k cp) /\
               (forall n, st.1.2 n = g (2 * i + n)%nat) /\
               (i = CHECKPOINTS -> st.2 = 2 * pi * (-0.5) / 12)).
  assert (HP : P (0 + CHECKPOINTS)%nat (create_checkpoints rad0 g sa)).
  { unfold create_checkpoints. apply foldl_seq_invariant.
    - unfold P. cbn [fst snd]. split; [done|]. split; [done|]. split; [done|].
      unfold CHECKPOINTS. lia.
    - intros i [[cps g1] sa1] Hi (Hlen & Hok & Hg & _). cbn [fst snd] in *.
      destruct (create_checkpoint_round rad0 cps g1 sa1 i) as (cp & E & Hcp & Hg' & Hsa);
        [lia|].
      unfold P. rewrite E. cbn [fst snd]. split; [|split; [|split]].
      + rewrite length_app. simpl. lia.
      + intros k cp' Hk. destruct (decide (k < length cps)%nat) as [Hlt|Hge].
        * rewrite lookup_app_l in Hk by done. by apply Hok.
        * rewrite lookup_app_r in Hk by lia.
          destruct (k - length cps)%nat as [|d] eqn:Ed; [|done].
          injection Hk as <-. by replace k with i by lia.
      + intros n. rewrite Hg', Hg. f_equal. lia.
      + intros Hn. rewrite Hsa.
        destruct (Nat.eqb_spec i (CHECKPOINTS - 1)) as [_|Hne]; [done|].
        unfold CHECKPOINTS in *. lia. }
  destruct HP as (Hlen & Hok & Hg & Hsa).
  split; [done|]. split; [done|]. split; [intros n; by rewrite Hg|by apply Hsa].
Qed.

(** X1.  The checkpoint sampler (lines 186-197) builds twelve checkpoints, the
    [k]-th with its angle in the [k]-th twelfth of the turn, so that the
    angles increase strictly along the list; the first and the last one are
    pinned on the circle of radius [1.5 * rad], the others lie between
    [rad / 3] and [rad]; [start_alpha] leaves as [2*pi*(-0.5)/12] whatever it
    was, and the seeded source has given exactly 24 words. *)
Theorem create_checkpoints_sampled (rad0 : Q) (g : RandomState) (sa : Q) :
  length (create_checkpoints rad0 g sa).1.1 = CHECKPOINTS /\
  (forall (k : nat) (cp : Checkpoint),
     (create_checkpoints rad0 g sa).1.1 !! k = Some cp -> checkpoint_ok rad0 k cp) /\
  (forall (j k : nat) (cj ck : Checkpoint),
     (j < k)%nat ->
     (create_checkpoints rad0 g sa).1.1 !! j = Some cj ->
     (create_checkpoints rad0 g sa).1.1 !! k = Some ck ->
     cp_alpha cj < cp_alpha ck) /\
  (forall n : nat, (create_checkpoints rad0 g sa).1.2 n = g (24 + n)%nat) /\
  (create_checkpoints rad0 g sa).2 = 2 * pi * (-0.5) / 12.
Proof.
  destruct (create_checkpoints_rounds rad0 g sa) as (Hlen & Hok & Hg & Hsa).
  split; [done|]. split; [done|]. split; [|by split].
  intros j k cj ck Hjk Hj Hk.
  destruct (Hok _ _ Hj) as (_ & Hj1 & _). destruct (Hok _ _ Hk) as (Hk0 & _).
  pose proof pi_positive as Hpi.
  assert (Hle : inject_Z (Z.of_nat j) + 1 <= inject_Z (Z.of_nat k)).
  { replace 1 with (inject_Z 1) by done. rewrite <- inject_Z_plus.
    rewrite <- Zle_Qle. lia. }
  unfold Qdiv in *. change (/ 12) with (1 # 12) in *. nra.
Qed.

End Sampler.
(** ** One step of the path walker *)

(** A [while] loop that returns leaves with its condition false, and keeps
    what its body keeps. *)
Lemma while_loop_exit {S : Type} (P : S -> Prop) (cond : S -> bool) (body : S -> S)
    (fuel : nat) (s r : S) :
  while_loop fuel cond body s = Done r ->
  P s -> (forall t : S, P t -> cond t = true -> P (body t)) ->
  P r /\ cond r = false.
Proof.
  revert s. induction fuel as [|fuel IH]; intros s H Hs Hbody; [done|].
  simpl in H. destruct (cond s) eqn:Hc.
  - apply (IH (body s)); [done| by apply Hbody |done].
  - by injection H as <-.
Qed.

Lemma Qgtb_false (a b : Q) : Qgtb a b = false -> a <= b.
Proof. unfold Qgtb, Qltb. intros H. by apply negb_false_iff, Qle_bool_iff in H. Qed.

Lemma Qltb_false (a b : Q) : Qltb a b = false -> b <= a.
Proof. unfold Qltb. intros H. by apply negb_false_iff, Qle_bool_iff in H. Qed.

Lemma Qltb_true (a b : Q) : Qltb a b = true -> a < b.
Proof.
  unfold Qltb. intros H. apply negb_true_iff in H. apply Qnot_le_lt. intros Hle.
  apply Qle_bool_iff in Hle. congruence.
Qed.

Lemma Qgtb_true (a b : Q) : Qgtb a b = true -> b < a.
Proof. unfold Qgtb. apply Qltb_true. Qed.

Section WalkerStep.
Context {M : MathLib}.

(** The lap counter grows by at most one in an iteration. *)
Lemma walk_step_laps (fuel : nat) (cps : list Checkpoint) (s s' : Walker)
    (point : TrackPoint) :
  walk_step fuel cps s = Done (s', point) -> (w_laps s <= w_laps s' <= w_laps s + 1)%Z.
Proof.
  intros H. unfold walk_step in H.
  set (alpha0 := math_atan2 (w_y s) (w_x s)) in *.
  destruct (w_visited_other_side s && Qgtb alpha0 0); destruct (Qltb alpha0 0);
    inv_bind H; destruct r as [[a' d'] dest]; inv_bind H; inv_bind H;
    injection H as <- _; simpl; lia.
Qed.

(** X2.  One iteration of the walker (lines 212-249): the walker advances by
    [TRACK_DETAIL_STEP] along the normal of the heading it had on entry; the
    point it appends carries the new position; the heading is first moved by
    whole turns to within a turn and a half of the polar angle, then turned
    by at most [TRACK_TURN_RATE], and the point records the mean of the
    heading before and after the turn; the lap counter grows by at most
    one. *)
Theorem walk_step_geometry (fuel : nat) (cps : list Checkpoint) (s s' : Walker)
    (point : TrackPoint) :
  walk_step fuel cps s = Done (s', point) ->
  w_x s' = w_x s + - math_sin (w_beta s) * TRACK_DETAIL_STEP /\
  w_y s' = w_y s + math_cos (w_beta s) * TRACK_DETAIL_STEP /\
  tp_x point = w_x s' /\ tp_y point = w_y s' /\
  (exists prev_beta : Q,
     (exists k : Z, prev_beta == w_beta s + inject_Z k * (2 * pi)) /\
     - (1.5 * pi) <= prev_beta - tp_alpha point <= 1.5 * pi /\
     Qabs (w_beta s' - prev_beta) <= TRACK_TURN_RATE /\
     tp_beta point = prev_beta * 0.5 + w_beta s' * 0.5) /\
  (w_laps s <= w_laps s' <= w_laps s + 1)%Z.
Proof.
  intros H. unfold walk_step in H.
  set (alpha0 := math_atan2 (w_y s) (w_x s)) in *.
  assert (Hlaps : forall lv : Z * bool,
            lv = (if w_visited_other_side s && Qgtb alpha0 0
                  then ((w_laps s + 1)%Z, false)
                  else (w_laps s, w_visited_other_side s)) ->
            (w_laps s <= lv.1 <= w_laps s + 1)%Z).
  { intros lv ->. destruct (_ && _); simpl; lia. }
  destruct (if w_visited_other_side s && Qgtb alpha0 0
            then ((w_laps s + 1)%Z, false)
            else (w_laps s, w_visited_other_side s)) as [laps vis] eqn:El.
  specialize (Hlaps (laps, vis) eq_refl). simpl in Hlaps.
  destruct (if Qltb alpha0 0 then (true, alpha0 + 2 * pi) else (vis, alpha0))
    as [vis' alpha1].
  inv_bind H. destruct r as [[alpha d] dest].
  inv_bind H. inv_bind H.
  match goal with
  | H1 : while_loop fuel _ _ (w_beta s) = Done ?b1,
    H2 : while_loop fuel _ _ ?b1 = Done ?b2 |- _ =>
      rename H1 into Hdown; rename H2 into Hup; rename b1 into beta1; rename b2 into beta2
  end.
  pose proof pi_positive as Hpi.
  apply (while_loop_exit (fun b => exists k : Z, b == w_beta s + inject_Z k * (2 * pi)))
    in Hdown as [[k1 Hk1] Hd];
    [|exists 0%Z; change (inject_Z 0) with 0; lra
     |intros t [k Hk] _; cbv beta; exists (k + -1)%Z; rewrite inject_Z_plus;
      change (inject_Z (-1)) with (-1 # 1); lra].
  apply Qgtb_false in Hd.
  apply (while_loop_exit
           (fun b => (exists k : Z, b == w_beta s + inject_Z k * (2 * pi)) /\
                     b - alpha <= 1.5 * pi))
    in Hup as [[[k2 Hk2] Hle] Hu];
    [|split; [by exists k1|done]
     |intros t [[k Hk] _] Hc; cbv beta in *; apply Qltb_true in Hc; split;
      [exists (k + 1)%Z; rewrite inject_Z_plus; change (inject_Z 1) with 1; lra|lra]].
  apply Qltb_false in Hu.
  injection H as <- <-. cbn [w_x w_y w_beta w_laps tp_x tp_y tp_alpha tp_beta].
  split; [done|]. split; [done|]. split; [done|]. split; [done|]. split; [|done].
  exists beta2. split; [by exists k2|]. split; [lra|]. split; [|done].
  match goal with
  | |- context [Qmin TRACK_TURN_RATE ?e] =>
      assert (Hturn : 0 <= Qmin TRACK_TURN_RATE e /\
                      Qmin TRACK_TURN_RATE e <= TRACK_TURN_RATE);
      [split; [apply Q.min_glb; [by vm_compute|unfold Qle; cbn [Qnum Qden]; lia]
              |apply Q.le_min_l]|];
      generalize dependent (Qmin TRACK_TURN_RATE e); intros turn Hturn
  end.
  match goal with
  | |- context [Qgtb ?p 0.3] => generalize p; intros proj
  end.
  destruct (Qgtb proj 0.3) eqn:Hg; destruct (Qltb proj (-0.3)) eqn:Hl.
  - apply Qgtb_true in Hg. apply Qltb_true in Hl. lra.
  - apply Qabs_case; intros; lra.
  - apply Qabs_case; intros; lra.
  - apply Qabs_case; intros; [|lra].
    assert (0 <= TRACK_TURN_RATE) by (by vm_compute). lra.
Qed.

End WalkerStep.

Lemma walk_step_geometry_witness :
  exists (s' : Walker) (point : TrackPoint),
    walk_step (M := series_math) 20 sample_checkpoints (walker_start TRACK_RAD)
    = Done (s', point) /\
    tp_x point = w_x s' /\ tp_y point = w_y s' /\
    (w_laps (walker_start TRACK_RAD) <= w_laps s' <= w_laps (walker_start TRACK_RAD) + 1)%Z.
Proof.
  destruct (walk_step (M := series_math) 20 sample_checkpoints (walker_start TRACK_RAD))
    as [[s' point]| |] eqn:E; [|vm_compute in E; discriminate E..].
  exists s', point. split; [reflexivity|].
  destruct (walk_step_geometry (M := series_math) _ _ _ _ _ E) as (_ & _ & Hx & Hy & _ & Hl).
  split; [exact Hx|]. split; [exact Hy|exact Hl].
Defined.
Section WalkerLaps.
Context {M : MathLib}.

(** X3.  The outer loop of the walker (lines 205-251), entered with at most
    four laps counted, never counts more than five: it leaves on the
    iteration that counts the fifth, or with its budget of iterations used
    up. *)
Theorem walk_loop_laps (fuel no_freeze : nat) (cps : list Checkpoint) (s s' : Walker)
    (track0 track : list TrackPoint) (budget : nat) :
  walk_loop fuel no_freeze cps s track0 = Done (track, s', budget) ->
  (w_laps s <= 4)%Z ->
  (w_laps s <= w_laps s' <= 5)%Z /\ (w_laps s' = 5%Z \/ budget = 0%nat).
Proof.
  revert s track0. induction no_freeze as [|n IH]; intros s track0 H Hs; [done|].
  cbn [walk_loop] in H. inv_bind H. destruct r as [s1 point].
  apply walk_step_laps in Hstep.
  destruct (Z.ltb_spec 4 (w_laps s1)) as [Hlaps|Hlaps].
  - injection H as _ <- _. lia.
  - destruct (Nat.eqb_spec n 0) as [->|Hn].
    + injection H as _ <- <-. lia.
    + apply IH in H; [|done]. lia.
Qed.

End WalkerLaps.

Lemma walk_loop_laps_witness :
  exists (track : list TrackPoint) (s' : Walker) (budget : nat),
    walk_loop (M := series_math) 20 3 sample_checkpoints (walker_start TRACK_RAD) []
    = Done (track, s', budget) /\
    (w_laps (walker_start TRACK_RAD) <= w_laps s' <= 5)%Z /\
    (w_laps s' = 5%Z \/ budget = 0%nat).
Proof.
  destruct (walk_loop (M := series_math) 20 3 sample_checkpoints (walker_start TRACK_RAD) [])
    as [[[track s'] budget]| |] eqn:E; [|vm_compute in E; discriminate E..].
  exists track, s', budget. split; [reflexivity|].
  apply (walk_loop_laps (M := series_math) _ _ _ _ _ _ _ _ E). simpl. lia.
Defined.
(** ** The loop over [num_tracks] *)

Section BuildTracks.
Context {M : MathLib}.

Lemma _get_track_fuel (fuel fuel' : nat) (rad0 : Q) (self : Env)
    (r : option Track * Env) :
  _get_track fuel rad0 self = Done r -> (fuel <= fuel')%nat ->
  _get_track fuel' rad0 self = Done r.
Proof.
  unfold _get_track, walk_track.
  destruct (create_checkpoints rad0 (np_random self) (start_alpha self)) as [[cps g] sa].
  intros H Hle. inv_bind H. rename Hstep into Hwalk. inv_bind Hwalk.
  rewrite (walk_loop_fuel _ _ _ _ _ _ _ Hstep Hle). simpl.
  destruct r1 as [[raw s] budget]. injection Hwalk as <-. done.
Qed.

(** A loop that was extracted and closed is a closed ring. *)
Lemma extract_loop_closed_ring (raw : list TrackPoint) (sa : Q) (t : Track) :
  extract_loop raw sa = Done (Some t) -> closed_ring t.
Proof.
  unfold extract_loop. intros H. inv_bind H. destruct r as [loop|]; [|done].
  pose proof (extract_range_nonempty _ _ _ Hstep) as Hne.
  unfold close_loop in H. inv_bind H. destruct (Qgtb _ _); [done|].
  inv_bind H. injection H as <-.
  destruct (to_segments_ring loop) as (segs & Hsegs & Hlen & Hring).
  rewrite Hsegs in Hstep1. injection Hstep1 as <-.
  split; [intros ->; destruct loop; [done|discriminate Hlen]|].
  intros i s Hi. rewrite Hlen.
  assert (Hlt : (i < length loop)%nat) by (rewrite <- Hlen; by eapply lookup_lt_Some).
  destruct (Hring i Hlt) as (a & b & Ha & Hb & Hs). rewrite Hs in Hi. injection Hi as <-.
  assert (Hj : ((i + length loop - 1) mod length loop < length loop)%nat)
    by (apply Nat.mod_upper_bound; lia).
  destruct (Hring _ Hj) as (a' & b' & _ & Hb' & Hs').
  exists (a', b'). split; [done|]. simpl. congruence.
Qed.

(** X4.  The loop over [num_tracks] of [_create_track] (lines 347-351)
    returns, given enough fuel for the walks: it never raises.  It leaves the
    configuration, the tracks and the annotations of the environment alone;
    every attempt takes 24 words of the seeded source; and when no attempt
    came out falsy the list holds one more closed ring per round. *)
Theorem build_tracks_returns (count : nat) (self : Env) (acc : list Track) :
  exists fuel0 : nat, forall fuel : nat, (fuel0 <= fuel)%nat ->
    exists (r : option (list Track)) (self' : Env) (attempts : nat),
      build_tracks fuel count self acc = Done (r, self') /\
      same_layout self self' /\
      (attempts <= count)%nat /\ (count <> 0 -> attempts <> 0)%nat /\
      (forall n : nat, np_random self' n = np_random self (24 * attempts + n)%nat) /\
      start_alpha self' =
        (if (attempts =? 0)%nat then start_alpha self else 2 * pi * (-0.5) / 12) /\
      (forall ts : list Track, r = Some ts ->
         attempts = count /\
         exists new : list Track,
           ts = acc ++ new /\ length new = count /\ Forall closed_ring new).
Proof.
  revert self acc. induction count as [|count IH]; intros self acc.
  - exists 0%nat. intros fuel _. exists (Some acc), self, 0%nat. simpl.
    split; [done|]. split; [by repeat split|]. split; [done|]. split; [done|].
    split; [done|]. split; [done|]. intros ts [= <-]. split; [done|].
    exists []. by rewrite app_nil_r.
  - destruct (_get_track_returns (900 / SCALE) self) as [f1 Hf1].
    destruct (Hf1 f1 (Nat.le_refl _)) as (t & self1 & Hget).
    pose proof Hget as Hres. apply _get_track_result in Hres as (raw & _ & Hloop & Hsa & _).
    assert (Hself1 : same_layout self self1 /\
                     forall n, np_random self1 n = np_random self (24 + n)%nat).
    { clear -Hget. unfold _get_track in Hget.
      pose proof (create_checkpoints_rounds (900 / SCALE) (np_random self) (start_alpha self))
        as (_ & _ & Hg & _).
      destruct (create_checkpoints _ _ _) as [[cps g] sa]. cbn [fst snd] in Hg.
      inv_bind Hget. inv_bind Hget. injection Hget as _ <-. by repeat split. }
    destruct Hself1 as [Hlay1 Hg1].
    pose proof (create_checkpoints_rounds (900 / SCALE) (np_random self) (start_alpha self))
      as (_ & _ & _ & Hsa').
    rewrite Hsa' in Hsa.
    destruct t as [[|seg t]|].
    + exists f1. intros fuel Hfuel. exists None, self1, 1%nat. cbn [build_tracks].
      rewrite (_get_track_fuel _ _ _ _ _ Hget Hfuel). simpl.
      split; [done|]. split; [done|]. split; [lia|]. split; [done|].
      split; [intros n; rewrite Hg1; f_equal; lia|]. split; [done|]. done.
    + destruct (IH self1 (acc ++ [seg :: t])) as [f2 Hf2].
      exists (f1 `max` f2)%nat. intros fuel Hfuel.
      destruct (Hf2 fuel ltac:(lia)) as (r & self' & k & Hrun & Hlay & Hk & Hk0 & Hg & Hs & Hts).
      exists r, self', (S k). cbn [build_tracks].
      rewrite (_get_track_fuel _ _ _ _ _ Hget) by lia. simpl. rewrite Hrun.
      split; [done|]. split.
      { unfold same_layout in *. destruct Hlay1 as (?&?&?&?&?&?&?&?).
        destruct Hlay as (?&?&?&?&?&?&?&?). repeat split; congruence. }
      split; [lia|]. split; [done|].
      split; [intros n; rewrite Hg, Hg1; f_equal; lia|]. split.
      { rewrite Hs. simpl. by destruct (k =? 0)%nat. }
      intros ts ->. destruct (Hts _ eq_refl) as (-> & new & -> & Hlen & Hnew).
      split; [done|]. exists ((seg :: t) :: new). rewrite <- app_assoc. simpl.
      split; [done|]. split; [by rewrite Hlen|].
      constructor; [by eapply extract_loop_closed_ring|done].
    + exists f1. intros fuel Hfuel. exists None, self1, 1%nat. cbn [build_tracks].
      rewrite (_get_track_fuel _ _ _ _ _ Hget Hfuel). simpl.
      split; [done|]. split; [done|]. split; [lia|]. split; [done|].
      split; [intros n; rewrite Hg1; f_equal; lia|]. split; [done|]. done.
Qed.

End BuildTracks.
(** ** The intersections the resolver records *)

Lemma filter_sublist {A : Type} (f : A -> bool) (l : list A) :
  sublist (List.filter f l) l.
Proof.
  induction l as [|a l IH]; simpl; [constructor|].
  destruct (f a); by constructor.
Qed.

Section ResolverIntersections.
Context {M : MathLib}.

Lemma true_intersections_sublist (inter2 inters : list (XY * XY)) :
  true_intersections inter2 = Done inters -> sublist inters inter2.
Proof.
  unfold true_intersections. intros H.
  apply (for_each_seq_invariant (fun i acc => sublist acc (take i inter2))) in H.
  - simpl in H. by rewrite firstn_all in H.
  - constructor.
  - intros i acc acc' Hi Hacc Hbody. cbv beta in Hbody.
    inv_bind Hbody. inv_bind Hbody. inv_bind Hbody.
    rewrite py_get_nat in Hstep0 by lia.
    rewrite (take_S_r _ _ _ Hstep0).
    destruct (_ || _); injection Hbody as <-.
    + by apply sublist_app.
    + by apply sublist_inserts_r.
Qed.

(** X5.  The intersections [_remove_roads] records (lines 683-690) are
    segments of the secondary track, in the order of the track, and the end
    of each one lies within [TRACK_WIDTH/3.5] of the end of a segment of the
    primary track; when none is recorded, no segment is deleted. *)
Theorem _remove_roads_intersections (self self' : Env) (t1 t2 : Track) :
  (1 < num_tracks self)%Z ->
  tracks self !! 0%nat = Some t1 -> tracks self !! 1%nat = Some t2 ->
  _remove_roads self = Done self' ->
  sublist (intersections self') (map seg_xy t2) /\
  Forall (fun x : XY * XY =>
            exists s1 : Segment,
              s1 ∈ t1 /\
              np_linalg_norm (xy_sub (xy (snd s1)) (snd x)) <= TRACK_WIDTH / 3.5)
         (intersections self') /\
  (intersections self' = [] -> tracks self' = tracks self).
Proof.
  intros Hnt H1 H2 H. unfold _remove_roads in H.
  replace (1 <? num_tracks self)%Z with true in H by (symmetry; by apply Z.ltb_lt).
  assert (Hlen : (2 <= length (tracks self))%nat)
    by (apply lookup_lt_Some in H2; lia).
  rewrite (py_get_nat _ 0), H1 in H by lia.
  rewrite (py_get_nat _ 1), H2 in H by lia. simpl in H.
  destruct (_ || _); [done|].
  inv_bind H. rename r into inters. inv_bind H. rename r into removed.
  inv_bind H. rename r into ts. inv_bind H. rename r into ts'.
  injection H as <-. cbn [with_tracks intersections tracks].
  pose proof (true_intersections_sublist _ _ Hstep) as Hsub.
  assert (Hcand : sublist inters (overlap_candidates (map seg_xy t1) (map seg_xy t2)))
    by done.
  split; [|split].
  - etrans; [exact Hsub|]. apply filter_sublist.
  - apply Forall_forall. intros x Hx.
    assert (Hin : In x (overlap_candidates (map seg_xy t1) (map seg_xy t2))).
    { apply list_elem_of_In. by eapply elem_of_sublist. }
    unfold overlap_candidates in Hin. apply filter_In in Hin as [_ Hcount].
    apply Nat.leb_le in Hcount.
    destruct (List.filter _ (map snd (map seg_xy t1))) as [|p ps] eqn:Ef;
      [simpl in Hcount; lia|].
    assert (Hp : In p (List.filter
                         (fun p1 => Qle_bool (np_linalg_norm (xy_sub p1 (snd x)))
                                             (TRACK_WIDTH / 3.5))
                         (map snd (map seg_xy t1))))
      by (rewrite Ef; by left).
    apply filter_In in Hp as [Hp Hd]. apply Qle_bool_iff in Hd.
    rewrite map_map in Hp. apply in_map_iff in Hp as (s1 & <- & Hs1).
    exists s1. split; [by apply list_elem_of_In|done].
  - intros ->. simpl in Hstep0. injection Hstep0 as <-.
    rewrite np_delete_nil in Hstep2.
    apply py_set_Some in Hstep1 as (k1 & Hk1 & ->).
    apply py_set_Some in Hstep2 as (k2 & Hk2 & ->).
    rewrite length_insert in Hk2.
    change 0%Z with (Z.of_nat 0) in Hk1. change 1%Z with (Z.of_nat 1) in Hk2.
    rewrite py_index_nat in Hk1, Hk2 by lia.
    injection Hk1 as <-. injection Hk2 as <-.
    rewrite (list_insert_id _ 0 t1) by done. by rewrite list_insert_id.
Qed.

End ResolverIntersections.

Lemma _remove_roads_intersections_witness :
  exists self' : Env,
    _remove_roads (M := series_math) sample_env = Done self' /\
    sublist (intersections self') (map seg_xy sample_track1).
Proof.
  destruct (_remove_roads_total (M := series_math) sample_env sample_track0 sample_track1)
    as [self' Hrun]; [reflexivity|discriminate|discriminate|].
  exists self'. split; [exact Hrun|].
  destruct (_remove_roads_intersections (M := series_math) sample_env self'
              sample_track0 sample_track1) as [H _];
    [reflexivity|reflexivity|reflexivity|exact Hrun|exact H].
Defined.
(** ** The flags of [_create_info] *)

Lemma py_update_nat {A : Type} (l l' : list A) (n : nat) (f : A -> A) :
  py_update l (Z.of_nat n) f = Some l' ->
  exists x : A, l !! n = Some x /\ l' = <[n:=f x]> l.
Proof.
  unfold py_update, py_get, py_set. rewrite py_index_spec.
  repeat case_decide; try lia; simpl; [|done].
  rewrite Nat2Z.id. destruct (l !! n) as [x|]; simpl; [|done].
  intros [= <-]. by exists x.
Qed.

Lemma insert_middle {A : Type} (l1 l2 l3 : list A) (x y : A) (k : nat) :
  k = (length l1 + length l2)%nat ->
  <[k:=y]> (l1 ++ l2 ++ x :: l3) = l1 ++ (l2 ++ [y]) ++ l3.
Proof.
  intros ->. rewrite insert_app_r_alt by lia. rewrite insert_app_r_alt by lia.
  replace (length l1 + length l2 - length l1 - length l2)%nat with 0%nat by lia.
  simpl. by rewrite <- app_assoc.
Qed.

Lemma point_equal_refl (p : TrackPoint) : point_equal p p = true.
Proof. unfold point_equal. by rewrite !Qeq_bool_refl. Qed.

Lemma argmin_from_bound (l : list Q) (k best : nat) (m : Q) :
  (best < k)%nat -> (argmin_from l k best m < k + length l)%nat.
Proof.
  revert k best m. induction l as [|a l IH]; intros k best m Hb; simpl; [lia|].
  destruct (Qltb a m).
  - specialize (IH (S k) k a ltac:(lia)). lia.
  - specialize (IH (S k) best m ltac:(lia)). lia.
Qed.

Lemma np_argmin_bound (l : list Q) (k : nat) : np_argmin l = Some k -> (k < length l)%nat.
Proof.
  destruct l as [|a l]; simpl; [done|]. intros [= <-].
  pose proof (argmin_from_bound l 1 0 a ltac:(lia)). lia.
Qed.

Lemma closed_ring_is_end (t : Track) (j : nat) : closed_ring t -> is_end t j = false.
Proof.
  intros [Hne Hring]. unfold is_end.
  destruct (t !! j) as [p|] eqn:Hp; [|done].
  assert (Hlen : (0 < length t)%nat) by (destruct t; simpl; [done|lia]).
  destruct (t !! (S j mod length t)%nat) as [next_p|] eqn:Hn; [|done].
  destruct (Hring _ _ Hn) as (s0 & Hs0 & Heq).
  assert (Hj : (j < length t)%nat) by (by eapply lookup_lt_Some).
  replace ((S j mod length t + length t - 1) mod length t)%nat with j in Hs0.
  - rewrite Hp in Hs0. injection Hs0 as <-. rewrite Heq. by rewrite point_equal_refl.
  - destruct (decide (S j = length t)) as [E|E].
    + rewrite E, Nat.Div0.mod_same. rewrite Nat.add_0_l.
      rewrite Nat.mod_small by lia. lia.
    + rewrite (Nat.mod_small (S j)) by lia.
      replace (S j + length t - 1)%nat with (j + 1 * length t)%nat by lia.
      rewrite Nat.Div0.mod_add. by rewrite Nat.mod_small.
Qed.

Lemma closed_ring_is_start (t : Track) (j : nat) : closed_ring t -> is_start t j = false.
Proof.
  intros Hr. pose proof Hr as [Hne Hring]. unfold is_start.
  destruct (t !! j) as [p|] eqn:Hp; [|done].
  destruct (t !! ((j + length t - 1) mod length t)%nat) as [last_p|] eqn:Hl; [|done].
  destruct (Hring _ _ Hp) as (s0 & Hs0 & Heq). rewrite Hl in Hs0. injection Hs0 as <-.
  rewrite Heq, point_equal_refl. by rewrite andb_false_r.
Qed.

Section InfoFlags.
Context {M : MathLib}.

(** One round of the inner loop: which row it writes, by the two tests of
    its segment. *)
Lemma mark_ends_flags (offset : nat) (t : Track) (info info' : list SegmentInfo) (j : nat) :
  (j < length t)%nat ->
  mark_ends offset t info j = Done info' ->
  (is_end t j = true /\ is_start t j = false /\
   exists row : SegmentInfo,
     info !! (j + offset)%nat = Some row /\
     info' = <[(j + offset)%nat := set_i_end true row]> info) \/
  (is_end t j = false /\ is_start t j = true /\
   exists row : SegmentInfo,
     info !! (j + offset)%nat = Some row /\
     info' = <[(j + offset)%nat := set_i_start true row]> info) \/
  (is_end t j = false /\ is_start t j = false /\ info' = info).
Proof.
  intros Hj H. unfold mark_ends in H.
  inv_bind H. rename r into p. inv_bind H. rename r into next_p.
  inv_bind H. rename r into last_p.
  rewrite py_get_nat in Hstep by done. rewrite py_get_pred in Hstep1 by done.
  unfold is_start, is_end. rewrite Hstep, Hstep0, Hstep1.
  destruct (negb (point_equal p.2 next_p.1)).
  - apply or_raise_Done, py_update_nat in H as (row & Hrow & ->). left. eauto.
  - destruct (negb (point_equal p.1 last_p.2)).
    + apply or_raise_Done, py_update_nat in H as (row & Hrow & ->). right. left. eauto.
    + injection H as <-. right. right. eauto.
Qed.

Lemma lookup_middle {A : Type} (l1 l2 l3 : list A) (x : A) (k : nat) :
  k = (length l1 + length l2)%nat -> (l1 ++ l2 ++ x :: l3) !! k = Some x.
Proof.
  intros ->. rewrite lookup_app_r by lia. rewrite lookup_app_r by lia.
  by replace (length l1 + length l2 - length l1 - length l2)%nat with 0%nat by lia.
Qed.

(** A column that one round either leaves alone or sets to its test. *)
Lemma column_round (f : nat -> bool) (col col' : list bool) (off n j : nat) (v : bool) :
  (j < n)%nat ->
  col = replicate off false ++ map f (seq 0 j) ++ replicate (n - j) false ->
  (col' = <[(j + off)%nat := v]> col \/ (v = false /\ col' = col)) ->
  v = f j ->
  col' = replicate off false ++ map f (seq 0 (S j)) ++ replicate (n - S j) false.
Proof.
  intros Hj Hcol Hcol' ->.
  replace (n - j)%nat with (S (n - S j)) in Hcol by lia. simpl in Hcol.
  rewrite seq_S, map_app. simpl.
  destruct Hcol' as [->|[Hv ->]].
  - rewrite Hcol. apply insert_middle.
    rewrite length_replicate, length_map, length_seq. lia.
  - rewrite Hcol, <- Hv. by rewrite <- (app_assoc (map f (seq 0 j))).
Qed.

(** The inner loop fills the [end] and [start] columns of its track. *)
Lemma mark_ends_columns (off : nat) (t : Track) (info info' : list SegmentInfo) :
  i_end <$> info = replicate (off + length t) false ->
  i_start <$> info = replicate (off + length t) false ->
  for_each (mark_ends off t) (seq 0 (length t)) info = Done info' ->
  i_end <$> info' = replicate off false ++ map (is_end t) (seq 0 (length t)) /\
  i_start <$> info' = replicate off false ++ map (is_start t) (seq 0 (length t)).
Proof.
  intros He Hs H.
  apply (for_each_seq_invariant
           (fun j x =>
              i_end <$> x = replicate off false ++ map (is_end t) (seq 0 j)
                            ++ replicate (length t - j) false /\
              i_start <$> x = replicate off false ++ map (is_start t) (seq 0 j)
                              ++ replicate (length t - j) false)) in H.
  - simpl in H. rewrite Nat.sub_diag in H. simpl in H. by rewrite !app_nil_r in H.
  - simpl. rewrite Nat.sub_0_r, <- replicate_add. done.
  - intros j x x' Hj [Hxe Hxs] Hbody. simpl in Hj.
    assert (Hk : (j + off)%nat =
                 (length (replicate off false) + length (map (is_end t) (seq 0 j)))%nat)
      by (rewrite length_replicate, length_map, length_seq; lia).
    assert (Hk' : (j + off)%nat =
                  (length (replicate off false) + length (map (is_start t) (seq 0 j)))%nat)
      by (rewrite length_replicate, length_map, length_seq; lia).
    assert (Hold : forall row, x !! (j + off)%nat = Some row ->
                     i_end row = false /\ i_start row = false).
    { intros row Hrow. split.
      - assert (Hc : (i_end <$> x) !! (j + off)%nat = Some (i_end row))
          by (by rewrite list_lookup_fmap, Hrow).
        rewrite Hxe in Hc. replace (length t - j)%nat with (S (length t - S j)) in Hc by lia.
        simpl in Hc. rewrite (lookup_middle _ _ _ _ _ Hk) in Hc. congruence.
      - assert (Hc : (i_start <$> x) !! (j + off)%nat = Some (i_start row))
          by (by rewrite list_lookup_fmap, Hrow).
        rewrite Hxs in Hc. replace (length t - j)%nat with (S (length t - S j)) in Hc by lia.
        simpl in Hc. rewrite (lookup_middle _ _ _ _ _ Hk') in Hc. congruence. }
    apply mark_ends_flags in Hbody; [|lia].
    destruct Hbody as [(E & St & row & Hrow & ->)|[(E & St & row & Hrow & ->)|(E & St & ->)]].
    + destruct (Hold _ Hrow) as [_ Hst]. split.
      * apply (column_round (is_end t) (i_end <$> x) _ off (length t) j true);
          [lia|exact Hxe| |by rewrite E].
        left. by rewrite list_fmap_insert.
      * apply (column_round (is_start t) (i_start <$> x) _ off (length t) j false);
          [lia|exact Hxs| |by rewrite St].
        left. rewrite list_fmap_insert. simpl. by rewrite Hst.
    + destruct (Hold _ Hrow) as [Hen _]. split.
      * apply (column_round (is_end t) (i_end <$> x) _ off (length t) j false);
          [lia|exact Hxe| |by rewrite E].
        left. rewrite list_fmap_insert. simpl. by rewrite Hen.
      * apply (column_round (is_start t) (i_start <$> x) _ off (length t) j true);
          [lia|exact Hxs| |by rewrite St].
        left. by rewrite list_fmap_insert.
    + split.
      * apply (column_round (is_end t) (i_end <$> x) _ off (length t) j false);
          [lia|exact Hxe| |by rewrite E]. by right.
      * apply (column_round (is_start t) (i_start <$> x) _ off (length t) j false);
          [lia|exact Hxs| |by rewrite St]. by right.
Qed.

Lemma for_each_In_invariant {S A : Type} (P : S -> Prop)
    (body : S -> A -> outcome S) (l : list A) (s s' : S) :
  P s ->
  (forall (a : A) (t t' : S), In a l -> P t -> body t a = Done t' -> P t') ->
  for_each body l s = Done s' ->
  P s'.
Proof.
  revert s. induction l as [|a l IH]; intros s Hs Hbody; simpl.
  - by intros [= <-].
  - intros H. inv_bind H. apply (IH r); [|intros; eapply Hbody; [by right|done..]|done].
    eapply Hbody; [by left|done..].
Qed.

(** The rows [_create_info] looks up in the principal track: positions of
    that track, and none when no row has [end] or [start]. *)
Lemma nearest_in_principal_idx (ts : list Track) (t0 t : Track) (info : list SegmentInfo)
    (idx : list nat) :
  ts !! 0%nat = Some t0 ->
  nearest_in_principal ts t info = Done idx ->
  Forall (fun k => (k < length t0)%nat) idx /\
  (Forall (fun row => i_end row = false /\ i_start row = false) info -> idx = []).
Proof.
  intros Ht0 H. unfold nearest_in_principal in H.
  destruct (negb _); [done|]. split.
  - revert H. apply for_each_invariant; [constructor|].
    intros point acc acc' Hacc Hbody. cbv beta in Hbody.
    inv_bind Hbody. inv_bind Hbody. injection Hbody as <-.
    change 0%Z with (Z.of_nat 0) in Hstep.
    rewrite py_get_nat in Hstep by (apply lookup_lt_Some in Ht0; lia).
    rewrite Ht0 in Hstep. injection Hstep as <-.
    apply np_argmin_bound in Hstep0. rewrite length_map in Hstep0.
    apply Forall_app. split; [done|]. by constructor.
  - intros Hall.
    assert (Hnil : List.filter (fun si : Segment * SegmentInfo =>
                                  i_end si.2 || i_start si.2) (zip t info) = []).
    { destruct (List.filter _ (zip t info)) as [|si rest] eqn:Ef; [done|].
      assert (Hin : In si (List.filter (fun si : Segment * SegmentInfo =>
                                          i_end si.2 || i_start si.2) (zip t info)))
        by (rewrite Ef; by left).
      apply filter_In in Hin as [Hin Hflag]. apply list_elem_of_In in Hin.
      destruct si as [sg row]. apply elem_of_zip_r in Hin.
      rewrite Forall_forall in Hall. destruct (Hall _ Hin) as [He Hs]. simpl in Hflag.
      rewrite He, Hs in Hflag. done. }
    rewrite Hnil in H. simpl in H. by injection H as <-.
Qed.

(** The last loop of [_create_info] marks the rows it was given and no
    other. *)
Lemma mark_intersections_rows (idx : list nat) (info info' : list SegmentInfo) :
  for_each (fun info k => or_raise (py_update info (Z.of_nat k) (set_i_intersection true)))
           idx info = Done info' ->
  forall (k : nat) (row : SegmentInfo),
    info' !! k = Some row -> i_intersection row = true ->
    In k idx \/ exists row0 : SegmentInfo, info !! k = Some row0 /\ i_intersection row0 = true.
Proof.
  apply (for_each_In_invariant
           (fun x => forall (k : nat) (row : SegmentInfo),
              x !! k = Some row -> i_intersection row = true ->
              In k idx \/
              exists row0 : SegmentInfo, info !! k = Some row0 /\ i_intersection row0 = true)).
  - intros k row Hk Hi. right. by exists row.
  - intros a x x' Ha Hx Hbody k row Hk Hi.
    apply or_raise_Done, py_update_nat in Hbody as (r0 & Hr0 & ->).
    destruct (decide (k = a)) as [->|Hne]; [by left|].
    rewrite list_lookup_insert_ne in Hk by done. by eapply Hx.
Qed.

(** The stages of [_create_info] on two tracks: the rows after the loop over
    the secondary track, the rows it looks up in the principal track, and
    the marks of the last loop, which leave [end] and [start] alone. *)
Lemma _create_info_stages (self self' : Env) (t0 t1 : Track) :
  tracks self = [t0; t1] ->
  _create_info self = Done self' ->
  exists (info1 : list SegmentInfo) (idx : list nat),
    nearest_in_principal [t0; t1] (track self) info1 = Done idx /\
    for_each (fun info k => or_raise (py_update info (Z.of_nat k) (set_i_intersection true)))
             idx info1 = Done (info self') /\
    i_intersection <$> info1 = replicate (length t0 + length t1) false /\
    i_end <$> info1 = replicate (length t0) false ++ map (is_end t1) (seq 0 (length t1)) /\
    i_start <$> info1 =
      replicate (length t0) false ++ map (is_start t1) (seq 0 (length t1)) /\
    i_end <$> info self' = i_end <$> info1 /\
    i_start <$> info self' = i_start <$> info1.
Proof.
  intros Hts H. unfold _create_info in H. rewrite Hts in H.
  inv_bind H. inv_bind H. inv_bind H. injection H as <-. cbn [info with_info] in *.
  simpl in Hstep. inv_bind Hstep. injection Hstep as <-.
  match goal with
  | Ha : annotate_track _ _ 1 = Done ?x,
    Hn : nearest_in_principal _ _ ?x = Done ?i,
    Hm : for_each _ ?i ?x = Done ?y |- _ =>
      rename x into info1; rename i into idx; rename y into info2;
      rename Ha into Hann; rename Hn into Hnear; rename Hm into Hmark
  end.
  replace (length t0 + (length t1 + 0))%nat with (length t0 + length t1)%nat in Hann by lia.
  unfold annotate_track in Hann. simpl in Hann.
  assert (Hi1 : i_intersection <$> info1 = replicate (length t0 + length t1) false).
  { transitivity (i_intersection <$>
                    slice_update (replicate (length t0 + length t1) info_zero)
                      (Z.of_nat (length t0) - 1)
                      (Z.of_nat (length t0) + Z.of_nat (length t1))
                      (set_i_track 1)).
    - match goal with
      | |- _ = i_intersection <$> ?y =>
          eapply (for_each_invariant (fun x => i_intersection <$> x = i_intersection <$> y));
            [reflexivity| |exact Hann]
      end.
      intros a t t' Hinv Hb. rewrite <- Hinv. by eapply mark_ends_column.
    - by rewrite slice_update_column, fmap_replicate. }
  apply mark_ends_columns in Hann as [He1 Hs1];
    [|by rewrite slice_update_column, fmap_replicate..].
  assert (He2 : i_end <$> info2 = i_end <$> info1).
  { eapply (for_each_invariant (fun x => i_end <$> x = i_end <$> info1));
      [reflexivity| |exact Hmark].
    intros a t t' Hinv Hb. rewrite <- Hinv.
    apply or_raise_Done in Hb. eapply py_update_column; [|exact Hb]. done. }
  assert (Hs2 : i_start <$> info2 = i_start <$> info1).
  { eapply (for_each_invariant (fun x => i_start <$> x = i_start <$> info1));
      [reflexivity| |exact Hmark].
    intros a t t' Hinv Hb. rewrite <- Hinv.
    apply or_raise_Done in Hb. eapply py_update_column; [|exact Hb]. done. }
  by exists info1, idx.
Qed.

(** X6.  The flags of [_create_info] (lines 302-322) with two tracks, row by
    row: no row of the principal track is an end or a start; the row of the
    segment [j] of the secondary track is an end when the segment does not
    end where the next one starts, and a start when it is no end and does not
    start where the one before it ends; an intersection is marked on rows of
    the principal track only, and only when some row is an end or a start;
    [begining] and [obstacles] stay zero.  A secondary track that is a
    closed ring gets no flag at all. *)
Theorem _create_info_flags (self self' : Env) (t0 t1 : Track) :
  tracks self = [t0; t1] ->
  _create_info self = Done self' ->
  i_end <$> info self' = replicate (length t0) false ++ map (is_end t1) (seq 0 (length t1)) /\
  i_start <$> info self' =
    replicate (length t0) false ++ map (is_start t1) (seq 0 (length t1)) /\
  (forall (k : nat) (row : SegmentInfo),
     info self' !! k = Some row -> i_intersection row = true ->
     (k < length t0)%nat /\
     exists j : nat, (j < length t1)%nat /\ is_end t1 j || is_start t1 j = true) /\
  Forall (fun row => i_begining row = false /\ i_obstacles row = 0%Z) (info self') /\
  (closed_ring t1 ->
   Forall (fun row => i_end row = false /\ i_start row = false /\ i_intersection row = false)
          (info self')).
Proof.
  intros Hts H.
  pose proof (_create_info_column i_begining self self' t0 t1
                ltac:(done) ltac:(done) ltac:(done) Hts H) as Hbeg.
  pose proof (_create_info_column i_obstacles self self' t0 t1
                ltac:(done) ltac:(done) ltac:(done) Hts H) as Hobs.
  rewrite slice_update_column, fmap_replicate in Hbeg by done.
  rewrite slice_update_column, fmap_replicate in Hobs by done.
  destruct (_create_info_stages _ _ _ _ Hts H)
    as (info1 & idx & Hnear & Hmark & Hi1 & He1 & Hs1 & He2 & Hs2).
  clear H. generalize dependent (info self'). intros info2 Hbeg Hobs Hmark He2 Hs2.
  rewrite He1 in He2. rewrite Hs1 in Hs2.
  destruct (nearest_in_principal_idx [t0; t1] t0 _ _ _ eq_refl Hnear) as [Hidx Hnone].
  pose proof (mark_intersections_rows _ _ _ Hmark) as Hrows.
  assert (Hno1 : forall (k : nat) (row0 : SegmentInfo),
            info1 !! k = Some row0 -> i_intersection row0 = false).
  { intros k row0 Hk.
    assert (Hc : (i_intersection <$> info1) !! k = Some (i_intersection row0))
      by (by rewrite list_lookup_fmap, Hk).
    rewrite Hi1 in Hc. apply lookup_replicate in Hc as [Hc _]. done. }
  assert (Hflagged : forall (k : nat) (row : SegmentInfo),
            info2 !! k = Some row -> i_intersection row = true ->
            (k < length t0)%nat /\
            exists j : nat, (j < length t1)%nat /\ is_end t1 j || is_start t1 j = true).
  { intros k row Hk Hi. destruct (Hrows k row Hk Hi) as [Hin|(row0 & Hk0 & Hi0)];
      [|rewrite (Hno1 _ _ Hk0) in Hi0; done].
    split; [rewrite Forall_forall in Hidx; apply Hidx; by apply list_elem_of_In|].
    destruct (existsb (fun j => is_end t1 j || is_start t1 j) (seq 0 (length t1))) eqn:Eb.
    - apply existsb_exists in Eb as (j & Hj & Hf). apply in_seq in Hj.
      exists j. split; [lia|done].
    - exfalso. rewrite Hnone in Hin; [done|].
      apply Forall_forall. intros r1 Hr1. apply list_elem_of_lookup in Hr1 as [n Hn].
      assert (Hall : forall j : nat, (j < length t1)%nat ->
                is_end t1 j = false /\ is_start t1 j = false).
      { intros j Hj. apply orb_false_iff.
        destruct (is_end t1 j || is_start t1 j) eqn:Ej; [|done].
        assert (Hex : existsb (fun j => is_end t1 j || is_start t1 j)
                              (seq 0 (length t1)) = true)
          by (apply existsb_exists; exists j; split; [apply in_seq; lia|done]).
        congruence. }
      assert (Hce : (i_end <$> info1) !! n = Some (i_end r1))
        by (by rewrite list_lookup_fmap, Hn).
      assert (Hcs : (i_start <$> info1) !! n = Some (i_start r1))
        by (by rewrite list_lookup_fmap, Hn).
      rewrite He1 in Hce. rewrite Hs1 in Hcs. split.
      + apply lookup_app_Some in Hce as [Hce|[_ Hce]];
          [by apply lookup_replicate in Hce as [<- _]|].
        rewrite list_lookup_fmap in Hce.
        destruct (seq 0 (length t1) !! _) as [j|] eqn:Ej; [|done].
        apply lookup_seq in Ej as [-> Hj]. simpl in Hce. injection Hce as <-.
        by apply Hall.
      + apply lookup_app_Some in Hcs as [Hcs|[_ Hcs]];
          [by apply lookup_replicate in Hcs as [<- _]|].
        rewrite list_lookup_fmap in Hcs.
        destruct (seq 0 (length t1) !! _) as [j|] eqn:Ej; [|done].
        apply lookup_seq in Ej as [-> Hj]. simpl in Hcs. injection Hcs as <-.
        by apply Hall. }
  split; [done|]. split; [done|]. split; [exact Hflagged|]. split.
  - apply Forall_forall. intros row Hrow. apply list_elem_of_lookup in Hrow as [n Hn].
    assert (Hb : (i_begining <$> info2) !! n = Some (i_begining row))
      by (by rewrite list_lookup_fmap, Hn).
    assert (Ho : (i_obstacles <$> info2) !! n = Some (i_obstacles row))
      by (by rewrite list_lookup_fmap, Hn).
    rewrite Hbeg in Hb. rewrite Hobs in Ho.
    apply lookup_replicate in Hb as [Hb _]. apply lookup_replicate in Ho as [Ho _].
    by rewrite Hb, Ho.
  - intros Hring. apply Forall_forall. intros row Hrow.
    apply list_elem_of_lookup in Hrow as [n Hn].
    assert (Hce : (i_end <$> info2) !! n = Some (i_end row))
      by (by rewrite list_lookup_fmap, Hn).
    assert (Hcs : (i_start <$> info2) !! n = Some (i_start row))
      by (by rewrite list_lookup_fmap, Hn).
    rewrite He2 in Hce. rewrite Hs2 in Hcs. split; [|split].
    + apply lookup_app_Some in Hce as [Hce|[_ Hce]];
        [by apply lookup_replicate in Hce as [<- _]|].
      rewrite list_lookup_fmap in Hce.
      destruct (seq 0 (length t1) !! _) as [j|] eqn:Ej; [|done].
      simpl in Hce. injection Hce as <-. by apply closed_ring_is_end.
    + apply lookup_app_Some in Hcs as [Hcs|[_ Hcs]];
        [by apply lookup_replicate in Hcs as [<- _]|].
      rewrite list_lookup_fmap in Hcs.
      destruct (seq 0 (length t1) !! _) as [j|] eqn:Ej; [|done].
      simpl in Hcs. injection Hcs as <-. by apply closed_ring_is_start.
    + destruct (i_intersection row) eqn:Ei; [|done].
      destruct (Hflagged n row Hn Ei) as (_ & j & _ & Hj).
      by rewrite closed_ring_is_end, closed_ring_is_start in Hj.
Qed.


End InfoFlags.

Lemma _create_info_flags_witness :
  exists self' : Env,
    _create_info (M := series_math) sample_env = Done self' /\
    i_end <$> info self' =
      replicate (length sample_track0) false ++
      map (is_end sample_track1) (seq 0 (length sample_track1)).
Proof.
  destruct (_create_info (M := series_math) sample_env) as [self'| |] eqn:E;
    [|vm_compute in E; discriminate E..].
  exists self'. split; [reflexivity|].
  destruct (_create_info_flags (M := series_math) sample_env self'
              sample_track0 sample_track1 eq_refl E) as [H _].
  exact H.
Defined.
(** ** The frame of [_set_lanes] *)

Lemma existsb_eqb_In (z : Z) (l : list Z) : existsb (Z.eqb z) l = true <-> In z l.
Proof.
  rewrite existsb_exists. split.
  - intros (c & Hc & E). apply Z.eqb_eq in E. by subst.
  - intros H. exists z. split; [done|apply Z.eqb_refl].
Qed.

Lemma randint_size_words (g g' : RandomState) (low high : Z) (size : nat) (vs : list Z) :
  randint_size g low high size = Done (vs, g') ->
  length vs = size /\ Forall (fun v => (low <= v < high)%Z) vs /\
  forall n : nat, g' n = g (size + n)%nat.
Proof.
  revert g vs. induction size as [|size IH]; intros g vs H; simpl in H.
  - destruct (high <=? low)%Z; [done|]. by injection H as <- <-.
  - inv_bind H. destruct r as [v g1]. inv_bind H. destruct r as [vs' g2].
    injection H as <- <-. apply IH in Hstep0 as (Hlen & Hall & Hg).
    pose proof (randint_range _ _ _ _ _ Hstep) as Hv.
    unfold randint in Hstep. destruct (high <=? low)%Z; [done|].
    injection Hstep as _ <-.
    split; [simpl; by rewrite Hlen|]. split; [by constructor|].
    intros n. by rewrite Hg.
Qed.

Lemma py_get_of_nat {A : Type} (l : list A) (n : nat) (x : A) :
  py_get l (Z.of_nat n) = Some x -> l !! n = Some x.
Proof.
  unfold py_get. rewrite py_index_spec.
  repeat case_decide; try lia; simpl; [|done]. by rewrite Nat2Z.id.
Qed.

Lemma py_set_of_nat {A : Type} (l l' : list A) (n : nat) (x : A) :
  py_set l (Z.of_nat n) x = Some l' -> (n < length l)%nat /\ l' = <[n:=x]> l.
Proof.
  intros (k & Hk & ->)%py_set_Some. rewrite py_index_spec in Hk.
  repeat case_decide; try lia; [|done]. injection Hk as <-.
  rewrite Nat2Z.id. split; [lia|done].
Qed.

Lemma set_lane_frame (changes : list Z) (info : list SegmentInfo) (gl : RandomState)
    (i : nat) (st st' : Z * Z * list SegmentInfo * RandomState) :
  lanes_frame changes info gl i st -> set_lane changes st i = Done st' ->
  lanes_frame changes info gl (S i) st'.
Proof.
  destruct st as [[[rm_lane lane] info1] gl1].
  intros (Honly & Hrest & Hnone & Hreset & Hquiet & m & Hm & Hgl) H.
  unfold set_lane in H.
  set (change := existsb (Z.eqb (Z.of_nat i)) changes) in H.
  set (rm := ((rm_lane + (if change then 1 else 0)) mod 2)%Z) in H.
  inv_bind H. destruct r as [lane' gl2].
  assert (Hgl2 : exists m' : nat, (m' <= S i)%nat /\ forall n : nat, gl2 n = gl (m' + n)%nat).
  { destruct (change && (rm =? 1)%Z).
    - unfold randint in Hstep. simpl in Hstep. injection Hstep as _ <-.
      exists (S m). split; [lia|]. intros n. rewrite Hgl. f_equal. lia.
    - injection Hstep as _ <-. exists m. split; [lia|done]. }
  inv_bind H. rename r into row. apply py_get_of_nat in Hstep0.
  inv_bind H. rename r into info2. inv_bind H. rename r into row2.
  apply py_get_of_nat in Hstep2. injection H as <-.
  assert (Hrow0 : info !! i = Some row) by (by rewrite <- Hrest).
  assert (Hinfo2 : exists lanes2 : list bool,
            info2 = <[i := set_i_lanes lanes2 row]> info1 /\ (rm = 0%Z -> info2 = info1)).
  { destruct (Z.eqb_spec rm 0) as [E|E].
    - injection Hstep1 as <-. exists (i_lanes row). split; [|done].
      symmetry. apply list_insert_id. rewrite Hstep0. by destruct row.
    - inv_bind Hstep1. apply or_raise_Done, py_set_of_nat in Hstep1 as [_ ->].
      eexists. split; [reflexivity|done]. }
  destruct Hinfo2 as (lanes2 & Hins & Hsame).
  assert (Hlt : (i < length info1)%nat) by (by eapply lookup_lt_Some).
  assert (Hrow2 : row2 = set_i_lanes lanes2 row).
  { rewrite Hins, list_lookup_insert_eq in Hstep2 by done. by injection Hstep2. }
  assert (Hflags : i_end row2 || i_start row2 = i_end row || i_start row)
    by (by rewrite Hrow2).
  assert (Hin : change = true <-> In (Z.of_nat i) changes) by apply existsb_eqb_In.
  split; [|split; [|split; [|split; [|split]]]].
  - destruct Honly as [Hlen Hrows]. split; [by rewrite Hins, length_insert|].
    intros k r r' Hk Hk'. destruct (decide (k = i)) as [->|Hne].
    + rewrite Hins, list_lookup_insert_eq in Hk' by done. injection Hk' as <-.
      rewrite Hrow0 in Hk. by injection Hk as <-.
    + rewrite Hins, list_lookup_insert_ne in Hk' by done. by eapply Hrows.
  - intros k Hk. rewrite Hins, list_lookup_insert_ne by lia. apply Hrest. lia.
  - intros Hc.
    assert (Hno : change = false).
    { destruct change; [|done]. destruct Hin as [Hin _]. specialize (Hc _ (Hin eq_refl)). lia. }
    assert (Hrm : rm_lane = 0%Z) by (apply Hnone; intros c Hin'; specialize (Hc c Hin'); lia).
    unfold rm. rewrite Hno, Hrm. simpl. by destruct (_ || _).
  - intros r _ Hr Hf. replace (S i - 1)%nat with i in Hr by lia.
    rewrite Hrow0 in Hr. injection Hr as <-. by rewrite Hflags, Hf.
  - intros k Hk Hq. destruct (decide (k = i)) as [->|Hne].
    + rewrite <- Hrest by lia. f_equal. apply Hsame.
      destruct Hq as [Hnotin Hq].
      assert (Hno : change = false).
      { destruct change; [|done]. destruct Hnotin. by apply Hin. }
      assert (Hrm : rm_lane = 0%Z).
      { destruct Hq as [Hq|(r & Hpos & Hr & Hf)].
        - apply Hnone. intros c Hc. specialize (Hq c Hc). lia.
        - by eapply Hreset. }
      unfold rm. by rewrite Hno, Hrm.
    + rewrite Hins, list_lookup_insert_ne by done. apply Hquiet; [lia|done].
  - exact Hgl2.
Qed.

(** The loop of [_set_lanes], from its first round to its last. *)
Lemma set_lanes_loop_frame (changes : list Z) (info info' : list SegmentInfo)
    (gl gl' : RandomState) (n : nat) (rm lane : Z) :
  for_each (set_lane changes) (seq 0 n) (0%Z, 0%Z, info, gl) = Done (rm, lane, info', gl') ->
  lanes_frame changes info gl n (rm, lane, info', gl').
Proof.
  intros H.
  apply (for_each_seq_invariant (lanes_frame changes info gl)) in H; [done| |].
  - split; [by split; [|intros k r r' Hk Hk'; rewrite Hk in Hk'; injection Hk' as <-;
                        by destruct r]|].
    split; [done|]. split; [done|]. split; [done|]. split; [intros k Hk; lia|].
    exists 0%nat. by split.
  - intros i t t' _. apply set_lane_frame.
Qed.

(** X7.  The lanes pass (lines 326-343) writes nothing but the [lanes] field
    of the rows of [info] and the two generators: every other field of the
    environment and every other field of a row is as before, and [info]
    keeps its length.  When it runs, the seeded source gives exactly
    [num_lanes_changes] words, and the process-wide source at most one per
    segment; with no lane change configured, or a single lane, nothing is
    written and nothing is drawn. *)
Theorem _set_lanes_frame (self self' : Env) (gl gl' : RandomState) :
  _set_lanes self gl = Done (self', gl') ->
  num_lanes_changes self' = num_lanes_changes self /\
  num_tracks self' = num_tracks self /\ num_lanes self' = num_lanes self /\
  prob_obstacle self' = prob_obstacle self /\ start_alpha self' = start_alpha self /\
  tracks self' = tracks self /\ track self' = track self /\
  intersections self' = intersections self /\
  lanes_only (info self) (info self') /\
  (exists m : nat, (m <= length (track self))%nat /\ forall n : nat, gl' n = gl (m + n)%nat) /\
  ((0 < num_lanes_changes self)%Z -> (1 < num_lanes self)%Z ->
   forall n : nat,
     np_random self' n = np_random self (Z.to_nat (num_lanes_changes self) + n)%nat) /\
  ((num_lanes_changes self <= 0)%Z \/ (num_lanes self <= 1)%Z ->
   self' = self /\ gl' = gl).
Proof.
  unfold _set_lanes.
  destruct (Z.ltb_spec 0 (num_lanes_changes self)) as [H0|H0];
    destruct (Z.ltb_spec 1 (num_lanes self)) as [H1|H1]; simpl.
  2-4: intros [= <- <-]; do 8 (split; [done|]);
       (split; [by split; [|intros k r r' Hk Hk'; rewrite Hk in Hk'; injection Hk' as <-;
                             by destruct r]|]);
       (split; [exists 0%nat; split; [lia|done]|]); (split; [intros; lia|done]).
  intros H. inv_bind H. destruct r as [changes g].
  inv_bind H. destruct r as [[[rm lane] info'] gl2]. injection H as <- <-.
  apply randint_size_words in Hstep as (_ & _ & Hg).
  apply set_lanes_loop_frame in Hstep0 as (Honly & _ & _ & _ & _ & Hgl).
  cbn [with_info with_np_random num_lanes_changes num_tracks num_lanes prob_obstacle
       start_alpha tracks track intersections info np_random].
  do 8 (split; [done|]). split; [done|]. split; [done|]. split; [done|].
  intros [?|?]; lia.
Qed.

(** X8.  Which rows the lanes pass leaves with the lanes they had: those
    before the first drawn index, and those that follow an end or a start
    of a track, the drawn indices apart. *)
Theorem _set_lanes_quiet_rows (self self' : Env) (gl gl' g : RandomState)
    (changes : list Z) (k : nat) :
  (0 < num_lanes_changes self)%Z -> (1 < num_lanes self)%Z ->
  randint_size (np_random self) 0 (Z.of_nat (length (track self)))
               (Z.to_nat (num_lanes_changes self)) = Done (changes, g) ->
  _set_lanes self gl = Done (self', gl') ->
  (k < length (track self))%nat ->
  quiet changes (info self) k ->
  info self' !! k = info self !! k.
Proof.
  intros H0 H1 Hch H Hk Hq. unfold _set_lanes in H.
  replace (0 <? num_lanes_changes self)%Z with true in H by (symmetry; by apply Z.ltb_lt).
  replace (1 <? num_lanes self)%Z with true in H by (symmetry; by apply Z.ltb_lt).
  rewrite Hch in H. simpl in H.
  inv_bind H. destruct r as [[[rm lane] info'] gl2]. injection H as <- _.
  apply set_lanes_loop_frame in Hstep as (_ & _ & _ & _ & Hquiet & _).
  simpl. by apply Hquiet.
Qed.

Lemma _set_lanes_frame_witness :
  exists (self' : Env) (gl' : RandomState),
    _set_lanes sample_info_env odd_source = Done (self', gl') /\
    tracks self' = tracks sample_info_env /\
    lanes_only (info sample_info_env) (info self').
Proof.
  destruct (_set_lanes sample_info_env odd_source) as [[self' gl']| |] eqn:E;
    [|vm_compute in E; discriminate E..].
  exists self', gl'. split; [reflexivity|].
  destruct (_set_lanes_frame _ _ _ _ E) as (_ & _ & _ & _ & _ & Ht & _ & _ & Ho & _).
  split; [exact Ht|exact Ho].
Defined.

Lemma _set_lanes_quiet_rows_witness :
  exists (self' : Env) (gl' : RandomState),
    _set_lanes sample_three_env odd_source = Done (self', gl') /\
    info self' !! 2%nat = info sample_three_env !! 2%nat.
Proof.
  destruct (_set_lanes sample_three_env odd_source) as [[self' gl']| |] eqn:E;
    [|vm_compute in E; discriminate E..].
  exists self', gl'. split; [reflexivity|].
  apply (_set_lanes_quiet_rows sample_three_env self' odd_source gl' three_source [3; 3; 3]%Z 2).
  - reflexivity.
  - reflexivity.
  - vm_compute. reflexivity.
  - exact E.
  - vm_compute. lia.
  - split.
    + simpl. intros [H|[H|[H|H]]]; try discriminate H; exact H.
    + left. simpl. intros c [<-|[<-|[<-|H]]]; try reflexivity; destruct H.
Defined.
(** ** Border flags: when they are computed, and what sets them *)

Lemma for_each_total_invariant {S A : Type} (P : S -> Prop) (body : S -> A -> outcome S)
    (l : list A) (s : S) :
  P s ->
  (forall (t : S) (a : A), In a l -> P t -> exists t' : S, body t a = Done t' /\ P t') ->
  exists s' : S, for_each body l s = Done s' /\ P s'.
Proof.
  revert s. induction l as [|a l IH]; intros s Hs Hbody; simpl.
  - by exists s.
  - destruct (Hbody s a) as (t & Ht & HP); [by left|done|]. rewrite Ht. simpl.
    apply IH; [done|]. intros t' a' Ha'. apply Hbody. by right.
Qed.

Lemma py_get_total {A : Type} (l : list A) (i : Z) :
  (- Z.of_nat (length l) <= i < Z.of_nat (length l))%Z -> exists x : A, py_get l i = Some x.
Proof.
  intros Hi. unfold py_get. rewrite py_index_spec.
  repeat case_decide; try lia; simpl; apply lookup_lt_is_Some_2; lia.
Qed.

Lemma py_set_total {A : Type} (l : list A) (i : Z) (x : A) :
  (- Z.of_nat (length l) <= i < Z.of_nat (length l))%Z ->
  exists l' : list A, py_set l i x = Some l' /\ length l' = length l.
Proof.
  intros Hi. unfold py_set. rewrite py_index_spec.
  repeat case_decide; try lia; simpl; eexists; (split; [reflexivity|apply length_insert]).
Qed.

Lemma border_window_total (t : Track) (i : nat) :
  (2 <= length t)%nat -> (1 <= i < length t)%nat ->
  exists good : bool, border_window t i = Done good.
Proof.
  intros Hlen Hi. unfold border_window.
  destruct (for_each_total
              (fun (st : bool * Q) (neg : nat) =>
                 let '(good, oneside) := st in
                 s ← or_raise (py_get t (Z.of_nat i - Z.of_nat neg));
                 Done (good && Qgtb (Qabs (tp_beta s.2 - tp_beta s.1)) (TRACK_TURN_RATE * 0.2),
                       oneside + np_sign (tp_beta s.2 - tp_beta s.1)))
              (seq 0 BORDER_MIN_COUNT) (true, 0)) as [[good oneside] Hrun].
  - intros [good oneside] neg Hneg%in_seq. unfold BORDER_MIN_COUNT in Hneg.
    destruct (py_get_total t (Z.of_nat i - Z.of_nat neg)) as [s Hs]; [lia|].
    rewrite Hs. simpl. by eexists.
  - rewrite Hrun. simpl. by eexists.
Qed.

Lemma border_detect_total (t : Track) :
  length t = 0%nat \/ (2 <= length t)%nat ->
  exists b : list bool, border_detect t = Done b /\ length b = length t.
Proof.
  intros Hlen. unfold border_detect.
  apply (for_each_total_invariant (fun b => length b = length t));
    [apply length_replicate|].
  intros b i Hi%in_seq Hb.
  destruct (border_window_total t i) as [good Hgood]; [lia|lia|].
  rewrite Hgood. simpl.
  destruct (py_set_total b (Z.of_nat i) good) as (b' & Hb' & Hlen'); [lia|].
  rewrite Hb'. simpl. exists b'. split; [done|congruence].
Qed.

Lemma border_extend_total (b : list bool) :
  length b = 0%nat \/ (3 <= length b)%nat ->
  exists b' : list bool, border_extend b = Done b' /\ length b' = length b.
Proof.
  intros Hlen. unfold border_extend.
  apply (for_each_total_invariant (fun t => length t = length b)); [done|].
  intros t i Hi%in_seq Ht.
  apply (for_each_total_invariant (fun t => length t = length b)); [done|].
  intros t' neg Hneg%in_seq Ht'. unfold BORDER_MIN_COUNT in Hneg. unfold border_spread.
  destruct (py_get_total t' (Z.of_nat i - Z.of_nat neg)) as [old Hold]; [lia|].
  destruct (py_get_total t' (Z.of_nat i)) as [flag Hflag]; [lia|].
  destruct (py_set_total t' (Z.of_nat i - Z.of_nat neg) (old || flag)) as (t'' & Hset & Hl);
    [lia|].
  rewrite Hold, Hflag. simpl. rewrite Hset. simpl. exists t''. split; [done|congruence].
Qed.

(** X9.  The border flags of a track (lines 364-378) are computed when the
    track has no segment or at least three, one flag per segment; on a track
    of one or two segments the second loop reads [border[i-neg]] out of
    range and raises. *)
Theorem track_border_short_tracks (t : Track) :
  (length t = 1%nat \/ length t = 2%nat -> track_border t = Raised) /\
  (length t = 0%nat \/ (3 <= length t)%nat ->
   exists border : list bool, track_border t = Done border /\ length border = length t).
Proof.
  split.
  - intros [H|H].
    + destruct t as [|s [|? ?]]; try discriminate H. reflexivity.
    + destruct t as [|s1 [|s2 [|? ?]]]; try discriminate H.
      unfold track_border, border_detect. simpl.
      destruct (border_window [s1; s2] 1) as [[|]| |]; reflexivity.
  - intros H. unfold track_border.
    destruct (border_detect_total t) as (b & Hb & Hlen); [lia|].
    rewrite Hb. simpl.
    destruct (border_extend_total b) as (b' & Hb' & Hlen'); [lia|].
    rewrite Hb'. exists b'. split; [done|congruence].
Qed.

Lemma border_detect_sound (t : Track) (b : list bool) :
  border_detect t = Done b ->
  forall i : nat, b !! i = Some true ->
    (1 <= i < length t)%nat /\ border_window t i = Done true.
Proof.
  intros H. unfold border_detect in H.
  eapply (for_each_seq_invariant
            (fun j x => forall i : nat, x !! i = Some true ->
                          (1 <= i < length t)%nat /\ border_window t i = Done true));
    [| |exact H].
  - intros i Hi. apply lookup_replicate in Hi as [? _]. done.
  - intros j x x' Hj Hx Hb. inv_bind Hb. rename r into good.
    apply or_raise_Done, py_set_of_nat in Hb as [Hlt ->].
    intros i Hi. destruct (decide (i = j)) as [->|Hne].
    + rewrite list_lookup_insert_eq in Hi by done. injection Hi as ->.
      split; [lia|done].
    + rewrite list_lookup_insert_ne in Hi by done. by apply Hx.
Qed.

Lemma border_spread_sound (P : Prop) (i neg : nat) (x x' : list bool) :
  (forall k : nat, x !! k = Some true -> P) ->
  border_spread i x neg = Done x' ->
  forall k : nat, x' !! k = Some true -> P.
Proof.
  intros Hx H. unfold border_spread in H.
  inv_bind H. rename r into old. inv_bind H. rename r into flag.
  apply or_raise_Done in H.
  apply py_get_Some in Hstep as (k0 & Hk0 & Hold).
  apply py_get_of_nat in Hstep0.
  apply py_set_Some in H as (k1 & Hk1 & ->).
  assert (k1 = k0) as -> by congruence.
  intros k Hk. destruct (decide (k = k0)) as [->|Hne].
  - rewrite list_lookup_insert_eq in Hk by (by eapply lookup_lt_Some).
    injection Hk as Hk. apply orb_true_iff in Hk as [-> | ->]; eauto.
  - rewrite list_lookup_insert_ne in Hk by done. eauto.
Qed.

Lemma border_extend_sound (b b' : list bool) :
  border_extend b = Done b' ->
  forall k : nat, b' !! k = Some true -> exists i : nat, b !! i = Some true.
Proof.
  intros H. unfold border_extend in H.
  eapply (for_each_invariant
            (fun x => forall k : nat, x !! k = Some true ->
                        exists i : nat, b !! i = Some true)); [| |exact H].
  - intros k Hk. by exists k.
  - intros i x x' Hx Hround.
    eapply (for_each_invariant
              (fun x => forall k : nat, x !! k = Some true ->
                          exists i : nat, b !! i = Some true)); [exact Hx| |exact Hround].
    intros neg y y' Hy Hspread. by eapply border_spread_sound.
Qed.

(** X10.  A border flag needs a window: when the flags of a track are
    computed and one of them is set, some segment other than the first
    passes the window test of the first loop.  A track on which no window
    passes has no border. *)
Theorem track_border_needs_window (t : Track) (border : list bool) (k : nat) :
  track_border t = Done border ->
  border !! k = Some true ->
  exists i : nat, (1 <= i < length t)%nat /\ border_window t i = Done true.
Proof.
  intros H Hk. unfold track_border in H. inv_bind H. rename r into b.
  destruct (border_extend_sound _ _ H k Hk) as [i Hi].
  exists i. by eapply border_detect_sound.
Qed.

Lemma track_border_needs_window_witness :
  exists i : nat, (1 <= i < length border_track)%nat /\ border_window border_track i = Done true.
Proof.
  apply (track_border_needs_window border_track [false; false; true; true; true; true] 2).
  - vm_compute. reflexivity.
  - reflexivity.
Defined.
(** ** The random point, without the margin *)

Section RandomPointInside.
Context {M : MathLib}.

(** X11.  [get_rnd_point_in_track(border=False)] (lines 842-859) draws the
    segment from the seeded source and the offset from the process-wide one,
    one word each; it returns the heading and the ordinate of the end of the
    segment drawn, and its abscissa moved by an offset between
    [-TRACK_WIDTH] times the second entry of the [lanes] of the segment and
    [TRACK_WIDTH] times the first, so by [TRACK_WIDTH] at most. *)
Theorem random_point_within_lanes (self self' : Env) (gl gl' : RandomState)
    (point : Q * Q * Q) (offset : Q) (idx : nat) :
  get_rnd_point_in_track self gl false = Done (point, offset, idx, self', gl') ->
  exists (s : Segment) (row : SegmentInfo) (r l : bool),
    Z.of_nat idx = (Z.of_N (np_random self 0%nat) mod Z.of_nat (length (track self)))%Z /\
    track self !! idx = Some s /\ info self !! idx = Some row /\ i_lanes row = [r; l] /\
    point = (tp_beta s.2, tp_x s.2 + offset, tp_y s.2) /\
    - TRACK_WIDTH * bool_Q l <= offset /\ offset <= TRACK_WIDTH * bool_Q r /\
    - TRACK_WIDTH <= offset /\ offset <= TRACK_WIDTH /\
    self' = with_np_random self (fun n => np_random self (S n)) /\
    gl' = (fun n => gl (S n)).
Proof.
  intros H. unfold get_rnd_point_in_track in H.
  inv_bind H. destruct r as [i g]. pose proof (randint_range _ _ _ _ _ Hstep) as Hi.
  inv_bind H. rename r into s. inv_bind H. rename r into row.
  destruct (i_lanes row) as [|r [|l [|? ?]]] eqn:El; try done.
  pose proof (uniform_range gl (x_from (tp_alpha s.2) false l) (x_to (tp_alpha s.2) false r))
    as Hu.
  destruct (uniform gl _ _) as [off gl2] eqn:Eu.
  injection H as <- <- <- <- <-.
  assert (Hi' : i = Z.of_nat (Z.to_nat i)) by lia.
  rewrite Hi' in Hstep0, Hstep1.
  apply py_get_of_nat in Hstep0. apply py_get_of_nat in Hstep1.
  assert (Hrange : x_from (tp_alpha s.2) false l == - TRACK_WIDTH * bool_Q l /\
                   x_to (tp_alpha s.2) false r == TRACK_WIDTH * bool_Q r).
  { unfold x_from, x_to. cbn [bool_Q]. unfold Qdiv. split; ring. }
  destruct Hrange as [Hfrom Hto].
  assert (HW : 0 < TRACK_WIDTH) by (by vm_compute).
  assert (Hl : 0 <= bool_Q l <= 1) by (destruct l; simpl; split; by vm_compute).
  assert (Hr : 0 <= bool_Q r <= 1) by (destruct r; simpl; split; by vm_compute).
  destruct Hu as (Hlow & Hhigh & _ & _); [rewrite Hfrom, Hto; nra|].
  cbn [fst] in Hlow, Hhigh. rewrite Hfrom in Hlow. rewrite Hto in Hhigh.
  unfold randint in Hstep. destruct (_ <=? _)%Z; [done|]. simpl in Hstep.
  injection Hstep as Hiv <-.
  unfold uniform, random_sample, next_word in Eu. injection Eu as _ <-.
  exists s, row, r, l. rewrite Z2Nat.id by lia.
  split; [by rewrite <- Hiv, Z.sub_0_r|]. split; [done|]. split; [done|]. split; [done|].
  split; [done|]. split; [done|]. split; [done|]. split; [nra|]. split; [nra|]. done.
Qed.

End RandomPointInside.

Lemma random_point_within_lanes_witness :
  exists (point : Q * Q * Q) (offset : Q) (idx : nat) (self' : Env) (gl' : RandomState),
    get_rnd_point_in_track (M := series_math) sample_info_env odd_source false
    = Done (point, offset, idx, self', gl') /\
    - TRACK_WIDTH <= offset /\ offset <= TRACK_WIDTH.
Proof.
  destruct (get_rnd_point_in_track (M := series_math) sample_info_env odd_source false)
    as [[[[[point offset] idx] self'] gl']| |] eqn:E;
    [|vm_compute in E; discriminate E..].
  exists point, offset, idx, self', gl'. split; [reflexivity|].
  destruct (random_point_within_lanes (M := series_math) _ _ _ _ _ _ _ E)
    as (s & row & r & l & _ & _ & _ & _ & _ & _ & _ & Hlo & Hhi & _).
  split; [exact Hlo|exact Hhi].
Defined.

Section RandomPointReturns.
Context {M : MathLib}.

Lemma _create_info_length (self self' : Env) :
  _create_info self = Done self' ->
  length (info self') = length (track self) /\ track self' = track self.
Proof.
  intros H. unfold _create_info in H.
  inv_bind H. inv_bind H. inv_bind H. injection H as <-. simpl. split; [|done].
  unfold nearest_in_principal in Hstep0.
  destruct (Nat.eqb_spec (length (track self)) (length r)) as [E|E]; [|done].
  rewrite E. clear -Hstep1. revert Hstep1.
  match goal with
  | |- for_each ?b ?l ?s = Done ?s' -> _ =>
      intros H;
      apply (for_each_invariant (fun x => length x = length s) b l s s');
        [done| |exact H]
  end.
  intros a t t' Ht Hb. apply or_raise_Done, py_update_nat in Hb as (x & _ & ->).
  by rewrite length_insert.
Qed.

Lemma _set_lanes_lanes_ok (self self' : Env) (gl gl' : RandomState) :
  Forall (fun row => i_lanes row = [true; true]) (info self) ->
  _set_lanes self gl = Done (self', gl') ->
  Forall lanes_ok (info self').
Proof.
  intros Hinfo Hset. unfold _set_lanes in Hset. destruct (_ && _) in Hset.
  - inv_bind Hset. destruct r as [changes g].
    inv_bind Hset. destruct r as [[[rm_lane lane] info'] gl2].
    injection Hset as <- _. simpl.
    apply (for_each_seq_invariant lanes_invariant) in Hstep0.
    + destruct Hstep0 as [_ Hrows]. apply Forall_forall.
      intros row [k Hk]%list_elem_of_lookup.
      destruct (Hrows k row Hk) as [Hlo Hhi].
      destruct (decide (k < 0 + length (track self))%nat); [by apply Hlo|].
      left. apply Hhi. lia.
    + split; [by left|]. intros k row Hk. split; [lia|]. intros _.
      rewrite Forall_forall in Hinfo. apply Hinfo. by eapply list_elem_of_lookup_2.
    + intros i t t' _. apply set_lane_invariant.
  - injection Hset as <- _. eapply Forall_impl; [exact Hinfo|].
    intros row Hrow. by left.
Qed.

(** X12.  After [_create_info] and [_set_lanes] on a track that is not
    empty, [get_rnd_point_in_track] returns, whatever the two sources and
    the margin flag: the index drawn is a row of [info], and the row has its
    two lane entries. *)
Theorem random_point_returns (self self1 self2 : Env) (gl gl1 gl2 : RandomState)
    (border : bool) :
  track self <> [] ->
  _create_info self = Done self1 ->
  _set_lanes self1 gl = Done (self2, gl1) ->
  exists (point : Q * Q * Q) (offset : Q) (idx : nat) (self3 : Env) (gl3 : RandomState),
    get_rnd_point_in_track self2 gl2 border = Done (point, offset, idx, self3, gl3) /\
    (idx < length (track self))%nat.
Proof.
  intros Hne Hinfo Hset.
  pose proof (_create_info_length _ _ Hinfo) as [Hlen Htrack].
  pose proof (_create_info_lanes _ _ Hinfo) as Hlanes.
  pose proof (_set_lanes_lanes_ok _ _ _ _ Hlanes Hset) as Hok.
  pose proof (_set_lanes_keeps_tracks _ _ _ _ Hset) as [_ Htrack2].
  assert (Hlen2 : length (info self2) = length (info self1)).
  { unfold _set_lanes in Hset. destruct (_ && _) in Hset.
    - inv_bind Hset. destruct r as [changes g].
      inv_bind Hset. destruct r as [[[rm_lane lane] info'] gl'].
      injection Hset as <- _. simpl.
      by apply set_lanes_loop_frame in Hstep0 as ([? _] & _).
    - by injection Hset as <- _. }
  assert (Hpos : (0 < length (track self))%nat)
    by (destruct (track self); simpl; [done|lia]).
  unfold get_rnd_point_in_track. rewrite Htrack2, Htrack.
  unfold randint.
  destruct (Z.leb_spec (Z.of_nat (length (track self))) 0) as [?|_]; [lia|]. simpl.
  set (i := (0 + Z.of_N (np_random self2 0%nat) mod (Z.of_nat (length (track self)) - 0))%Z).
  assert (Hi : (0 <= i < Z.of_nat (length (track self)))%Z).
  { unfold i. rewrite Z.sub_0_r.
    pose proof (Z.mod_pos_bound (Z.of_N (np_random self2 0%nat))
                  (Z.of_nat (length (track self))) ltac:(lia)). lia. }
  assert (Hi' : i = Z.of_nat (Z.to_nat i)) by lia.
  rewrite Hi', !py_get_nat by lia.
  destruct (track self !! Z.to_nat i) as [s|] eqn:Hs;
    [|apply lookup_ge_None in Hs; lia].
  destruct (info self2 !! Z.to_nat i) as [row|] eqn:Hrow;
    [|apply lookup_ge_None in Hrow; lia].
  simpl.
  assert (Hrow_ok : lanes_ok row).
  { rewrite Forall_forall in Hok. apply Hok. by eapply list_elem_of_lookup_2. }
  destruct Hrow_ok as [-> |[-> | ->]];
    rewrite Nat2Z.id;
    eexists _, _, _, _, _; (split; [reflexivity|lia]).
Qed.

End RandomPointReturns.

Lemma random_point_returns_witness :
  exists (point : Q * Q * Q) (offset : Q) (idx : nat) (self3 : Env) (gl3 : RandomState),
    get_rnd_point_in_track (M := series_math) sample_lanes_env zero_source true
    = Done (point, offset, idx, self3, gl3) /\
    (idx < length (track sample_env))%nat.
Proof.
  destruct (_set_lanes sample_info_env odd_source) as [[self2 gl1]| |] eqn:E;
    [|vm_compute in E; discriminate E..].
  assert (Hself2 : self2 = sample_lanes_env)
    by (unfold sample_lanes_env; by rewrite E).
  rewrite <- Hself2.
  apply (random_point_returns (M := series_math) sample_env sample_info_env self2
           odd_source gl1 zero_source true).
  - discriminate.
  - vm_compute. reflexivity.
  - exact E.
Defined.
(** ** The reward of the tiles *)

Lemma filter_insert_length {A : Type} (f : A -> bool) (l : list A) (k : nat) (x y : A) :
  l !! k = Some y ->
  length (List.filter f (<[k:=x]> l)) =
  (length (List.filter f l) + (if f x then 1 else 0) - (if f y then 1 else 0))%nat.
Proof.
  intros Hk. rewrite insert_take_drop by (by eapply lookup_lt_Some).
  rewrite <- (take_drop_middle l k y Hk) at 3.
  rewrite !List.filter_app, !length_app. simpl.
  destruct (f x), (f y); simpl; lia.
Qed.

Lemma visited_insert_same (l : list UserData) (k : nat) (x y : UserData) :
  l !! k = Some y -> road_visited x = road_visited y ->
  length (List.filter road_visited (<[k:=x]> l)) = length (List.filter road_visited l).
Proof.
  intros Hk Hv. rewrite (filter_insert_length _ _ _ _ _ Hk), Hv.
  destruct (road_visited y) eqn:E; [|lia].
  assert (1 <= length (List.filter road_visited l))%nat; [|lia].
  rewrite <- (take_drop_middle l k y Hk), List.filter_app, length_app. simpl.
  rewrite E. simpl. lia.
Qed.

Lemma visited_insert_new (l : list UserData) (k : nat) (x y : UserData) :
  l !! k = Some y -> road_visited y = false -> road_visited x = true ->
  length (List.filter road_visited (<[k:=x]> l)) = S (length (List.filter road_visited l)).
Proof.
  intros Hk Hy Hx. rewrite (filter_insert_length _ _ _ _ _ Hk), Hx, Hy. lia.
Qed.

(** One contact: it leaves the counters alone, or it begins on a tile that
    was not visited and pays for it. *)
Lemma _contact_scoring (s s' : Game) (u1 u2 : option nat) (begin : bool) :
  _contact s u1 u2 begin = Done s' ->
  env s' = env s /\ prev_reward s' = prev_reward s /\ t s' = t s /\
  length (objects s') = length (objects s) /\
  ((reward s' = reward s /\ tile_visited_count s' = tile_visited_count s /\
    visited_tiles s' = visited_tiles s) \/
   (begin = true /\ length (track (env s)) <> 0%nat /\
    reward s' = reward s + tile_reward s /\
    tile_visited_count s' = (tile_visited_count s + 1)%Z /\
    visited_tiles s' = S (visited_tiles s))).
Proof.
  intros H. unfold _contact in H.
  inv_bind H. rename r into f1. inv_bind H. rename r into f2.
  assert (Htail : forall (tile obj : option nat),
            match tile with
            | None => Done s
            | Some k =>
                tl ← or_raise (objects s !! k);
                c ← or_raise (road_colored (color tl));
                let s := with_objects s (<[k := set_color c tl]> (objects s)) in
                match obj with
                | None => Done s
                | Some o =>
                    ob ← or_raise (objects s !! o);
                    match tiles ob with
                    | None => Done s
                    | Some ts =>
                        if begin then
                          let s := with_objects s
                                     (<[o := set_tiles (set_add k ts) ob]> (objects s)) in
                          tl ← or_raise (objects s !! k);
                          if negb (road_visited tl) then
                            if (length (track (env s)) =? 0)%nat then Raised
                            else
                              Done (mkGame (env s)
                                      (<[k := set_road_visited true tl]> (objects s))
                                      (reward s + 1000.0 /
                                         inject_Z (Z.of_nat (length (track (env s)))))
                                      (prev_reward s) (tile_visited_count s + 1) (t s))
                          else Done s
                        else
                          ts ← or_raise (set_remove k ts);
                          Done (with_objects s (<[o := set_tiles ts ob]> (objects s)))
                    end
                end
            end = Done s' ->
            env s' = env s /\ prev_reward s' = prev_reward s /\ t s' = t s /\
            length (objects s') = length (objects s) /\
            ((reward s' = reward s /\ tile_visited_count s' = tile_visited_count s /\
              visited_tiles s' = visited_tiles s) \/
             (begin = true /\ length (track (env s)) <> 0%nat /\
              reward s' = reward s + tile_reward s /\
              tile_visited_count s' = (tile_visited_count s + 1)%Z /\
              visited_tiles s' = S (visited_tiles s)))).
  { clear. intros [k|] obj H; [|injection H as <-; repeat (split; [done|]); by left].
    inv_bind H. rename r into tl. inv_bind H. rename r into c.
    cbn zeta in H.
    set (objs1 := <[k := set_color c tl]> (objects s)) in *.
    assert (Hv1 : length (List.filter road_visited objs1) = visited_tiles s)
      by (by apply visited_insert_same with (y := tl)).
    assert (Hl1 : length objs1 = length (objects s)) by apply length_insert.
    destruct obj as [o|];
      [|injection H as <-; repeat (split; [done|]); by left].
    inv_bind H. rename r into ob. cbn [objects with_objects] in Hstep1.
    destruct (tiles ob) as [ts|];
      [|injection H as <-; repeat (split; [done|]); by left].
    destruct begin.
    - inv_bind H. rename r into tl2. cbn [objects with_objects] in Hstep2.
      set (objs2 := <[o := set_tiles (set_add k ts) ob]> objs1) in *.
      assert (Hv2 : length (List.filter road_visited objs2) = visited_tiles s)
        by (rewrite <- Hv1; by apply visited_insert_same with (y := ob)).
      assert (Hl2 : length objs2 = length (objects s))
        by (unfold objs2; by rewrite length_insert).
      destruct (road_visited tl2) eqn:Hvis; simpl in H.
      + injection H as <-. repeat (split; [done|]). by left.
      + destruct (Nat.eqb_spec (length (track (env s))) 0) as [|Hn]; [done|].
        injection H as <-. simpl. split; [done|]. split; [done|]. split; [done|].
        split; [by rewrite length_insert|]. right.
        split; [done|]. split; [done|]. split; [done|]. split; [done|].
        unfold visited_tiles in *. simpl. rewrite <- Hv2.
        by apply visited_insert_new with (y := tl2).
    - inv_bind H. injection H as <-. simpl.
      split; [done|]. split; [done|]. split; [done|].
      split; [by rewrite length_insert|]. left.
      split; [done|]. split; [done|].
      unfold visited_tiles in *. simpl. rewrite <- Hv1.
      by apply visited_insert_same with (y := ob). }
  destruct f1, f2;
    [exact (Htail u2 u1 H)|exact (Htail u1 u2 H)|exact (Htail u2 u1 H)
    |exact (Htail None None H)].
Qed.

(** A sequence of contacts pays for the tiles it visits first, and for
    nothing else. *)
Lemma contacts_scoring (cs : list (option nat * option nat * bool)) (s s' : Game) :
  for_each report cs s = Done s' ->
  env s' = env s /\ prev_reward s' = prev_reward s /\ t s' = t s /\
  length (objects s') = length (objects s) /\
  exists n : nat,
    (n <= length (List.filter snd cs))%nat /\
    tile_visited_count s' = (tile_visited_count s + Z.of_nat n)%Z /\
    visited_tiles s' = (visited_tiles s + n)%nat /\
    reward s' == reward s + inject_Z (Z.of_nat n) * tile_reward s.
Proof.
  revert s. induction cs as [|[[u1 u2] begin] cs IH]; intros s H; simpl in H.
  - injection H as <-. repeat (split; [done|]). exists 0%nat. simpl.
    split; [lia|]. split; [lia|]. split; [lia|]. change (inject_Z 0) with 0. ring.
  - inv_bind H. rename r into s1.
    assert (Hc : _contact s u1 u2 begin = Done s1) by (by destruct begin).
    apply _contact_scoring in Hc as (He & Hp & Ht & Hl & Hcase).
    apply IH in H as (He' & Hp' & Ht' & Hl' & n & Hn & Hcount & Hvis & Hrew).
    assert (Htr : tile_reward s1 = tile_reward s) by (unfold tile_reward; by rewrite He).
    split; [congruence|]. split; [congruence|]. split; [congruence|]. split; [congruence|].
    destruct Hcase as [(Hr & Hk & Hv)|(-> & _ & Hr & Hk & Hv)].
    + exists n. split; [simpl; destruct begin; simpl; lia|].
      split; [lia|]. split; [lia|]. by rewrite Hrew, Hr, Htr.
    + exists (S n). split; [simpl; lia|]. split; [lia|]. split; [lia|].
      rewrite Hrew, Hr, Htr, Nat2Z.inj_succ. unfold Z.succ. rewrite inject_Z_plus.
      change (inject_Z 1) with 1. ring.
Qed.

(** X13.  The listener over the contacts of a frame (lines 77-107): the
    counter of visited tiles grows by the number of tiles the frame marks as
    visited, the reward by [1000/len(track)] for each of them, a tile
    that was visited is never paid again and stays visited, and contacts that
    end pay nothing; the track, [prev_reward] and the clock are not
    written. *)
Theorem contacts_pay_new_tiles (cs : list (option nat * option nat * bool)) (s s' : Game) :
  for_each report cs s = Done s' ->
  env s' = env s /\ prev_reward s' = prev_reward s /\ t s' = t s /\
  (visited_tiles s <= visited_tiles s' <= length (objects s))%nat /\
  (visited_tiles s' - visited_tiles s <= length (List.filter snd cs))%nat /\
  tile_visited_count s' =
    (tile_visited_count s + Z.of_nat (visited_tiles s' - visited_tiles s))%Z /\
  reward s' ==
    reward s + inject_Z (Z.of_nat (visited_tiles s' - visited_tiles s)) * tile_reward s.
Proof.
  intros H. apply contacts_scoring in H as (He & Hp & Ht & Hl & n & Hn & Hc & Hv & Hr).
  split; [done|]. split; [done|]. split; [done|].
  replace (visited_tiles s' - visited_tiles s)%nat with n by lia.
  split; [|by repeat split].
  split; [lia|]. rewrite <- Hl. unfold visited_tiles.
  pose proof (List.filter_length road_visited (objects s')). lia.
Qed.

Lemma contacts_pay_new_tiles_witness :
  exists s' : Game,
    for_each report [(Some 0%nat, Some 2%nat, true); (Some 2%nat, Some 0%nat, false);
                     (Some 2%nat, Some 0%nat, true)] sample_game = Done s' /\
    tile_visited_count s' = 1%Z /\ reward s' == 500.
Proof.
  destruct (for_each report [(Some 0%nat, Some 2%nat, true); (Some 2%nat, Some 0%nat, false);
                             (Some 2%nat, Some 0%nat, true)] sample_game)
    as [s'| |] eqn:E; [|vm_compute in E; discriminate E..].
  exists s'. split; [reflexivity|].
  destruct (contacts_pay_new_tiles _ _ _ E) as (_ & _ & _ & _ & _ & Hc & Hr).
  assert (Hv : visited_tiles s' = 1%nat) by (vm_compute in E; by injection E as <-).
  rewrite Hv in Hc, Hr. split; [exact Hc|]. rewrite Hr. vm_compute. reflexivity.
Defined.
(** ** The return of an episode *)

(** One frame with an action. *)
Lemma step_scoring (s s' : Game) (a : Q * Q * Q) (w : WorldStep) (r : Q) (done : bool) :
  step s (Some a) w = Done (s', r, done) ->
  env s' = env s /\ prev_reward s' = reward s' /\
  (exists n : nat,
     tile_visited_count s' = (tile_visited_count s + Z.of_nat n)%Z /\
     visited_tiles s' = (visited_tiles s + n)%nat /\
     reward s' == reward s + inject_Z (Z.of_nat n) * tile_reward s - 0.1) /\
  (outside w = true -> r = -100 /\ done = true) /\
  (outside w = false ->
   r = reward s' - prev_reward s /\
   done = (tile_visited_count s' =? Z.of_nat (length (track (env s))))%Z).
Proof.
  intros H. unfold step in H. inv_bind H. rename r0 into s1.
  apply contacts_scoring in Hstep as (He & Hp & _ & _ & n & _ & Hc & Hv & Hr).
  cbn [env objects reward prev_reward tile_visited_count t] in H.
  unfold outside. destruct (hull_position w) as [x y]. cbn [fst snd].
  destruct (Qgtb (Qabs x) PLAYFIELD || Qgtb (Qabs y) PLAYFIELD);
    injection H as <- <- <-; cbn [env objects reward prev_reward tile_visited_count t];
    (split; [done|]); (split; [done|]);
    (split; [exists n; split; [done|]; split; [done|]; by rewrite Hr|]).
  - split; [done|]. intros [=].
  - split; [intros [=]|]. intros _. rewrite Hp, He. split; [done|].
    by destruct (_ =? _)%Z.
Qed.

(** The inner loop of the main program while the car stays in the
    playfield. *)
Lemma play_scoring (a : Q * Q * Q) (frames : list WorldStep) (s s' : Game)
    (total total' : Q) (steps steps' : nat) (done : bool) :
  frames <> [] ->
  Forall (fun w => outside w = false) frames ->
  play s a frames total steps = Done (s', total', steps', done) ->
  env s' = env s /\
  total' == total + (reward s' - prev_reward s) /\
  (exists (played gained : nat),
     steps' = (steps + played)%nat /\ (1 <= played <= length frames)%nat /\
     (done = false -> played = length frames) /\
     tile_visited_count s' = (tile_visited_count s + Z.of_nat gained)%Z /\
     visited_tiles s' = (visited_tiles s + gained)%nat /\
     reward s' == reward s + inject_Z (Z.of_nat gained) * tile_reward s
                  - 0.1 * inject_Z (Z.of_nat played)) /\
  (done = true <-> tile_visited_count s' = Z.of_nat (length (track (env s)))).
Proof.
  revert s total steps. induction frames as [|w frames IH]; intros s total steps Hne Hin H;
    [done|].
  apply Forall_cons in Hin as [Hw Hin]. cbn [play] in H.
  inv_bind H. destruct r as [[s1 r] d].
  apply step_scoring in Hstep as (He & Hp & (n & Hc & Hv & Hr) & _ & Hinside).
  destruct (Hinside Hw) as [-> ->].
  assert (Htr : tile_reward s1 = tile_reward s) by (unfold tile_reward; by rewrite He).
  destruct (Z.eqb_spec (tile_visited_count s1) (Z.of_nat (length (track (env s)))))
    as [Hdone|Hdone].
  - injection H as <- <- <- <-. split; [done|]. split; [ring|]. split; [|done].
    exists 1%nat, n. split; [lia|]. split; [simpl; lia|]. split; [done|].
    split; [done|]. split; [done|]. rewrite Hr. change (inject_Z (Z.of_nat 1)) with 1. ring.
  - destruct frames as [|w' frames].
    + injection H as <- <- <- <-. split; [done|]. split; [ring|]. split; [|done].
      exists 1%nat, n. split; [lia|]. split; [simpl; lia|]. split; [done|].
      split; [done|]. split; [done|].
      rewrite Hr. change (inject_Z (Z.of_nat 1)) with 1. ring.
    + apply IH in H as (He' & Htot & (played & gained & Hs & Hpl & Hnd & Hc' & Hv' & Hr') & Hd);
        [|done|done].
      split; [congruence|]. split; [rewrite Htot, Hp; ring|]. split; [|by rewrite <- He].
      exists (S played), (n + gained)%nat. split; [lia|]. split; [simpl in *; lia|].
      split; [intros Hf; specialize (Hnd Hf); simpl in *; lia|].
      split; [lia|]. split; [lia|].
      rewrite Hr', Hr, Htr, Nat2Z.inj_succ, Nat2Z.inj_add. unfold Z.succ.
      rewrite !inject_Z_plus. change (inject_Z 1) with 1. ring.
Qed.

(** X14.  The return of an episode (lines 538-566 and the inner loop of the
    main program, lines 885-899), the car staying in the playfield: the sum
    of the step rewards is the reward of the environment less the
    [prev_reward] the episode started with; the reward is [1000/len(track)]
    for each tile visited first in the episode, less 0.1 for each frame
    played; the loop leaves on [done] exactly when the counter of visited
    tiles is the number of segments of the track.  Starting from the
    counters at zero and ending on [done], the return is [1000 - 0.1] times
    the number of frames. *)
Theorem play_return (a : Q * Q * Q) (frames : list WorldStep) (s s' : Game)
    (total total' : Q) (steps steps' : nat) (done : bool) :
  frames <> [] ->
  Forall (fun w => outside w = false) frames ->
  play s a frames total steps = Done (s', total', steps', done) ->
  total' == total + (reward s' - prev_reward s) /\
  reward s' == reward s
               + inject_Z (tile_visited_count s' - tile_visited_count s) * tile_reward s
               - 0.1 * inject_Z (Z.of_nat (steps' - steps)) /\
  (tile_visited_count s <= tile_visited_count s')%Z /\
  (1 <= steps' - steps <= length frames)%nat /\
  (done = false -> (steps' - steps)%nat = length frames) /\
  (done = true <-> tile_visited_count s' = Z.of_nat (length (track (env s)))) /\
  (reward s == 0 -> prev_reward s == 0 -> tile_visited_count s = 0%Z -> track (env s) <> [] ->
   done = true ->
   total' == total + 1000 - 0.1 * inject_Z (Z.of_nat (steps' - steps))).
Proof.
  intros Hne Hin H.
  apply play_scoring in H
    as (He & Htot & (played & gained & -> & Hpl & Hnd & Hc & Hv & Hr) & Hd); [|done..].
  replace (steps + played - steps)%nat with played by lia.
  replace (tile_visited_count s' - tile_visited_count s)%Z with (Z.of_nat gained) by lia.
  split; [done|]. split; [done|]. split; [lia|]. split; [done|]. split; [done|].
  split; [done|].
  intros Hr0 Hp0 Hc0 Htrack Hdone. apply Hd in Hdone.
  assert (Hg : Z.of_nat gained = Z.of_nat (length (track (env s)))) by lia.
  rewrite Htot, Hr, Hr0, Hp0, Hg. unfold tile_reward.
  assert (Hlen : ~ inject_Z (Z.of_nat (length (track (env s)))) == 0).
  { intros E. change 0 with (inject_Z 0) in E. apply inject_Z_injective in E.
    destruct (track (env s)); [done|discriminate E]. }
  field. exact Hlen.
Qed.

Lemma play_return_witness :
  exists (s' : Game) (total' : Q) (steps' : nat),
    play sample_game (0, 1, 0) sample_frames 0 0 = Done (s', total', steps', true) /\
    total' == 0 + 1000 - 0.1 * inject_Z (Z.of_nat (steps' - 0)).
Proof.
  destruct (play sample_game (0, 1, 0) sample_frames 0 0)
    as [[[[s' total'] steps'] done]| |] eqn:E; [|vm_compute in E; discriminate E..].
  assert (Hdone : done = true) by (vm_compute in E; congruence).
  subst done. exists s', total', steps'. split; [reflexivity|].
  destruct (play_return (0, 1, 0) sample_frames sample_game s' 0 total' 0%nat steps' true)
    as (_ & _ & _ & _ & _ & _ & H).
  - discriminate.
  - repeat constructor.
  - exact E.
  - apply H; try reflexivity. discriminate.
Defined.

(** X15.  [done] tests the counter of visited tiles for equality: once the
    counter is beyond the number of segments, which a track with two lanes
    allows, no frame in the playfield ends the episode. *)
Theorem play_past_track_length (a : Q * Q * Q) (frames : list WorldStep) (s s' : Game)
    (total total' : Q) (steps steps' : nat) (done : bool) :
  (Z.of_nat (length (track (env s))) < tile_visited_count s)%Z ->
  Forall (fun w => outside w = false) frames ->
  play s a frames total steps = Done (s', total', steps', done) ->
  done = false /\ steps' = (steps + length frames)%nat /\
  (Z.of_nat (length (track (env s))) < tile_visited_count s')%Z.
Proof.
  revert s total steps. induction frames as [|w frames IH]; intros s total steps Hc Hin H.
  - simpl in H. injection H as Hs Ht Hn Hd. subst s' steps' done.
    split; [done|]. split; [simpl; lia|done].
  - apply Forall_cons in Hin as [Hw Hin]. cbn [play] in H.
    inv_bind H. destruct r as [[s1 r] d].
    apply step_scoring in Hstep as (He & _ & (n & Hc1 & _ & _) & _ & Hinside).
    destruct (Hinside Hw) as [_ ->].
    destruct (Z.eqb_spec (tile_visited_count s1) (Z.of_nat (length (track (env s)))))
      as [Hdone|_]; [lia|].
    apply IH in H as (Hd & Hs & Hc'); [|rewrite He; lia|done].
    rewrite He in Hc'. split; [done|]. split; [simpl; lia|done].
Qed.
(** ** The tiles *)

Section TileLoop.
Context {M : MathLib} {B : Box2D}.

(** One round of the loop over the lanes. *)
Lemma lane_tile_spec (self : Env) (j : nat) (obstacle : Z) (p1 p2 : TrackPoint)
    (st st' : Tiles) (lane : nat) :
  lane_tile self j obstacle p1 p2 st lane = Done st' ->
  exists (row : SegmentInfo) (present : bool),
    info self !! j = Some row /\ i_lanes row !! lane = Some present /\
    (present = false -> st' = st) /\
    (present = true ->
     exists q : Quad,
       corners st' = Some q /\
       road st' = road st ++ [(fresh_tile, corners_polygon q, obstacle)] /\
       road_poly st' =
         (road_poly st ++ [(corners_polygon q, [0.4; 0.4; 0.4])]) ++
         (if (obstacle =? 1)%Z then obstacle_polys p1 p2 else []) /\
       (i_end row || i_start row = true -> corners st = Some q)).
Proof.
  intros H. unfold lane_tile in H.
  inv_bind H. rename r into row. inv_bind H. rename r into present.
  apply py_get_of_nat in Hstep, Hstep0.
  exists row, present. split; [done|]. split; [done|].
  destruct present; simpl in H.
  - split; [done|]. intros _.
    inv_bind H. rename r into q0. inv_bind H. destruct r as [[[road1_l road1_r] road2_l] road2_r].
    destruct (negb (polygonShape _)); [done|].
    destruct (negb (existsb _ (tracks self))); [done|].
    injection H as <-. exists (road1_l, road1_r, road2_l, road2_r).
    cbn [corners road road_poly corners_polygon]. split; [done|]. split; [done|].
    split; [by destruct (obstacle =? 1)%Z; rewrite ?app_nil_r|].
    intros Hflag.
    assert (Hn : negb (i_end row) && negb (i_start row) = false)
      by (destruct (i_end row), (i_start row); done).
    rewrite Hn in Hstep1. injection Hstep1 as <-. done.
  - split; [|done]. intros _. by injection H as <-.
Qed.

Lemma lanes_present_S (k : nat) (row : SegmentInfo) (present : bool) :
  i_lanes row !! k = Some present ->
  lanes_present (S k) row = (lanes_present k row + (if present then 1 else 0))%nat.
Proof.
  intros Hk. unfold lanes_present. rewrite (take_S_r _ _ _ Hk), List.filter_app, length_app.
  by destruct present.
Qed.

(** The loop over the lanes of the row [j]. *)
Lemma lanes_loop_spec (self : Env) (j : nat) (ob : Z) (p1 p2 : TrackPoint)
    (st st' : Tiles) (n : nat) :
  for_each (lane_tile self j ob p1 p2) (seq 0 n) st = Done st' ->
  corners_of_last st ->
  exists new : list (UserData * Polygon * Z),
    road st' = road st ++ new /\
    length new = from_option (lanes_present n) 0%nat (info self !! j) /\
    Forall (fun tile => tile.1.1 = fresh_tile /\ tile.2 = ob) new /\
    length (road_poly st') =
      (length (road_poly st) + length new + (if (ob =? 1)%Z then 2 * length new else 0))%nat /\
    corners_of_last st' /\
    (forall row : SegmentInfo,
       info self !! j = Some row -> i_end row || i_start row = true ->
       corners st' = corners st /\
       Forall (fun tile => exists q : Quad,
                 corners st = Some q /\ tile.1.2 = corners_polygon q) new) /\
    ((0 < n)%nat -> is_Some (info self !! j)).
Proof.
  intros H Hlast. change (lanes_present n) with (lanes_present (0 + n)).
  eapply (for_each_seq_invariant
            (fun k x =>
               exists new : list (UserData * Polygon * Z),
                 road x = road st ++ new /\
                 length new = from_option (lanes_present k) 0%nat (info self !! j) /\
                 Forall (fun tile => tile.1.1 = fresh_tile /\ tile.2 = ob) new /\
                 length (road_poly x) =
                   (length (road_poly st) + length new +
                    (if (ob =? 1)%Z then 2 * length new else 0))%nat /\
                 corners_of_last x /\
                 (forall row : SegmentInfo,
                    info self !! j = Some row -> i_end row || i_start row = true ->
                    corners x = corners st /\
                    Forall (fun tile => exists q : Quad,
                              corners st = Some q /\ tile.1.2 = corners_polygon q) new) /\
                 ((0 < k)%nat -> is_Some (info self !! j))));
    [| |exact H].
  - exists []. rewrite app_nil_r. split; [done|].
    split; [by destruct (info self !! j)|]. split; [done|].
    split; [destruct (ob =? 1)%Z; simpl; lia|]. split; [done|].
    split; [by intros row _ _|]. intros Hk. simpl in Hk. lia.
  - intros k x x' _ (new & Hroad & Hlen & Hfresh & Hpoly & Hcl & Hflag & _) Hbody.
    apply lane_tile_spec in Hbody as (row & present & Hrow & Hlane & Hno & Hyes).
    rewrite Hrow in Hlen |- *. cbn [from_option] in *.
    rewrite (lanes_present_S _ _ _ Hlane).
    destruct present.
    + destruct (Hyes eq_refl) as (q & Hq & Hroad' & Hpoly' & Hstale).
      exists (new ++ [(fresh_tile, corners_polygon q, ob)]).
      split; [by rewrite Hroad', Hroad, <- app_assoc|].
      split; [rewrite length_app; simpl; lia|].
      split; [apply Forall_app; split; [done|by constructor]|].
      split.
      { rewrite Hpoly', !length_app, Hpoly. simpl.
        destruct (ob =? 1)%Z; simpl; lia. }
      split.
      { unfold corners_of_last. rewrite Hroad', last_snoc. by exists q. }
      split; [|by intros _].
      intros row' Hrow' Hf. assert (row' = row) as -> by congruence.
      destruct (Hflag row Hrow Hf) as [Hsame Hall].
      specialize (Hstale Hf). split; [congruence|].
      apply Forall_app. split; [done|]. constructor; [|done].
      exists q. split; [congruence|done].
    + rewrite (Hno eq_refl). exists new. cbn iota.
      rewrite (Nat.add_0_r (lanes_present k row)).
      do 5 (split; [done|]). split; [|by intros _].
      intros row0 [= <-]. by apply Hflag.
Qed.

(** One round of the loop over the rows. *)
Lemma row_tiles_spec (self : Env) (obstacles : list Z) (st st' : Tiles) (j : nat) :
  row_tiles self obstacles st j = Done st' ->
  corners_of_last st ->
  exists (ob : Z) (new : list (UserData * Polygon * Z)),
    obstacles !! j = Some ob /\
    road st' = road st ++ new /\
    length new =
      from_option (lanes_present (Z.to_nat (num_lanes self))) 0%nat (info self !! j) /\
    Forall (fun tile => tile.1.1 = fresh_tile /\ tile.2 = ob) new /\
    length (road_poly st') =
      (length (road_poly st) + length new + (if (ob =? 1)%Z then 2 * length new else 0))%nat /\
    corners_of_last st' /\
    (forall row : SegmentInfo,
       info self !! j = Some row -> i_end row || i_start row = true ->
       corners st' = corners st /\
       Forall (fun tile => exists q : Quad,
                 corners st = Some q /\ tile.1.2 = corners_polygon q) new) /\
    ((0 < Z.to_nat (num_lanes self))%nat -> is_Some (info self !! j)).
Proof.
  intros H Hlast. unfold row_tiles in H.
  inv_bind H. rename r into ob. inv_bind H. rename r into s.
  apply lanes_loop_spec in H as (new & H); [|done].
  by exists ob, new.
Qed.

Lemma sum_list_snoc (l : list nat) (n : nat) : sum_list (l ++ [n]) = (sum_list l + n)%nat.
Proof. induction l as [|a l IH]; simpl; lia. Qed.

Lemma sum_take_S (f : SegmentInfo -> nat) (l : list SegmentInfo) (j : nat) :
  sum_list (map f (take (S j) l)) =
  (sum_list (map f (take j l)) + from_option f 0%nat (l !! j))%nat.
Proof.
  destruct (l !! j) as [row|] eqn:Hj.
  - rewrite (take_S_r _ _ _ Hj), map_app. simpl. by rewrite sum_list_snoc.
  - apply lookup_ge_None in Hj. rewrite !take_ge by lia. simpl. lia.
Qed.

Lemma obstacle_count (new : list (UserData * Polygon * Z)) (ob : Z) :
  Forall (fun tile => tile.1.1 = fresh_tile /\ tile.2 = ob) new ->
  length (List.filter (fun tile : UserData * Polygon * Z => (tile.2 =? 1)%Z) new) =
  (if (ob =? 1)%Z then length new else 0)%nat.
Proof.
  induction 1 as [|tile new [_ Hob] _ IH]; simpl; [by destruct (ob =? 1)%Z|].
  rewrite Hob. destruct (ob =? 1)%Z; simpl; lia.
Qed.

Lemma lanes_ok_present (row : SegmentInfo) :
  lanes_ok row -> (1 <= lanes_present 2 row <= 2)%nat.
Proof. unfold lanes_present. intros [-> |[-> | ->]]; simpl; lia. Qed.

(** The loop over the rows, up to the row [n]. *)
Lemma tiles_loop_spec (self : Env) (obstacles : list Z) (polys0 : list (Polygon * list Q))
    (n : nat) (st : Tiles) :
  for_each (row_tiles self obstacles) (seq 0 n) (mkTiles polys0 [] None) = Done st ->
  corners_of_last st /\
  length (road st) =
    sum_list (map (lanes_present (Z.to_nat (num_lanes self))) (take n (info self))) /\
  Forall (fun tile => tile.1.1 = fresh_tile) (road st) /\
  length (road_poly st) =
    (length polys0 + length (road st) +
     2 * length (List.filter (fun tile : UserData * Polygon * Z => (tile.2 =? 1)%Z)
                             (road st)))%nat /\
  (num_lanes self = 2%Z -> Forall lanes_ok (info self) ->
   (n <= length (road st) <= 2 * n)%nat).
Proof.
  intros H. change n with (0 + n)%nat.
  eapply (for_each_seq_invariant
            (fun j x =>
               corners_of_last x /\
               length (road x) =
                 sum_list (map (lanes_present (Z.to_nat (num_lanes self)))
                               (take j (info self))) /\
               Forall (fun tile => tile.1.1 = fresh_tile) (road x) /\
               length (road_poly x) =
                 (length polys0 + length (road x) +
                  2 * length (List.filter
                                (fun tile : UserData * Polygon * Z => (tile.2 =? 1)%Z)
                                (road x)))%nat /\
               (num_lanes self = 2%Z -> Forall lanes_ok (info self) ->
                (j <= length (road x) <= 2 * j)%nat))); [| |exact H].
  - split; [done|]. split; [done|]. split; [done|]. split; [simpl; lia|].
    intros _ _. simpl. lia.
  - intros j x x' _ (Hcl & Hlen & Hfresh & Hpoly & Hbound) Hbody.
    apply row_tiles_spec in Hbody
      as (ob & new & Hob & Hroad & Hnew & Hfresh' & Hpoly' & Hcl' & _ & Hsome); [|done].
    split; [done|]. split; [by rewrite Hroad, length_app, sum_take_S, Hlen, Hnew|].
    split.
    { rewrite Hroad. apply Forall_app. split; [done|].
      eapply Forall_impl; [exact Hfresh'|]. by intros tile [? _]. }
    split.
    { rewrite Hpoly', Hpoly, Hroad, List.filter_app, !length_app.
      rewrite (obstacle_count _ _ Hfresh'). destruct (ob =? 1)%Z; lia. }
    intros H2 Hok. specialize (Hbound H2 Hok).
    rewrite H2 in Hnew, Hsome. change (Z.to_nat 2) with 2%nat in Hnew, Hsome.
    destruct (Hsome ltac:(lia)) as [row Hrow]. rewrite Hrow in Hnew. simpl in Hnew.
    assert (Hrow_ok : lanes_ok row).
    { rewrite Forall_forall in Hok. apply Hok. by eapply list_elem_of_lookup_2. }
    apply lanes_ok_present in Hrow_ok. rewrite Hroad, length_app. lia.
Qed.

(** X16.  The tile loop (lines 405-507) makes one tile for each lane a row
    has among the first [num_lanes], so with two lanes and a lane left on
    every row at least one tile per segment and at most two; a tile is
    created not visited, with friction 1 and the colour of the road; and
    [road_poly] gets one polygon per tile and two more for each tile of a
    row with an obstacle. *)
Theorem tiles_made (self : Env) (obstacles : list Z) (polys0 : list (Polygon * list Q))
    (st : Tiles) :
  create_tiles self obstacles polys0 = Done st ->
  length (road st) =
    sum_list (map (lanes_present (Z.to_nat (num_lanes self)))
                  (take (length (track self)) (info self))) /\
  Forall (fun tile => tile.1.1 = fresh_tile) (road st) /\
  length (road_poly st) =
    (length polys0 + length (road st) +
     2 * length (List.filter (fun tile : UserData * Polygon * Z => (tile.2 =? 1)%Z)
                             (road st)))%nat /\
  (num_lanes self = 2%Z -> Forall lanes_ok (info self) ->
   (length (track self) <= length (road st) <= 2 * length (track self))%nat).
Proof.
  intros H. unfold create_tiles in H.
  by apply tiles_loop_spec in H as (_ & H).
Qed.

(** X17.  On a row that is an end or a start of a track the tile loop
    assigns no corner: the tiles it makes for the row all have the polygon
    of the tile made last before the row, whatever the segment of the row;
    and with no tile made before, reading the corners raises. *)
Theorem end_rows_repeat_last_tile (self : Env) (obstacles : list Z)
    (polys0 : list (Polygon * list Q)) (j : nat) (row : SegmentInfo) (st st' : Tiles) :
  for_each (row_tiles self obstacles) (seq 0 j) (mkTiles polys0 [] None) = Done st ->
  info self !! j = Some row -> i_end row || i_start row = true ->
  row_tiles self obstacles st j = Done st' ->
  exists new : list (UserData * Polygon * Z),
    road st' = road st ++ new /\
    length new = lanes_present (Z.to_nat (num_lanes self)) row /\
    (new <> [] ->
     exists prev : UserData * Polygon * Z,
       last (road st) = Some prev /\ Forall (fun tile => tile.1.2 = prev.1.2) new).
Proof.
  intros Hloop Hrow Hflag Hbody.
  apply tiles_loop_spec in Hloop as (Hcl & _).
  apply row_tiles_spec in Hbody
    as (ob & new & _ & Hroad & Hlen & _ & _ & _ & Hstale & _); [|done].
  rewrite Hrow in Hlen. destruct (Hstale row Hrow Hflag) as [_ Hall].
  exists new. split; [done|]. split; [done|]. intros Hne.
  destruct new as [|tile new]; [done|].
  apply Forall_cons in Hall as [(q & Hq & Htile) Hall].
  unfold corners_of_last in Hcl. destruct (last (road st)) as [prev|]; [|congruence].
  destruct Hcl as (q' & Hq' & Hprev). exists prev. split; [done|].
  assert (q' = q) as -> by congruence.
  constructor; [congruence|].
  eapply Forall_impl; [exact Hall|]. intros t0 (q0 & Hq0 & Ht0). congruence.
Qed.

End TileLoop.

Lemma tiles_made_witness :
  exists st : Tiles,
    create_tiles (M := series_math) (B := sample_box2d) sample_cut_env
                 [0; 1; 0; 0]%Z [] = Done st /\
    (length (track sample_cut_env) <= length (road st) <= 2 * length (track sample_cut_env))%nat.
Proof.
  destruct (create_tiles (M := series_math) (B := sample_box2d) sample_cut_env
                         [0; 1; 0; 0]%Z [])
    as [st| |] eqn:E; [|vm_compute in E; discriminate E..].
  exists st. split; [reflexivity|].
  destruct (tiles_made (M := series_math) _ _ _ _ E) as (_ & _ & _ & H).
  apply H; [reflexivity|]. vm_compute. repeat constructor.
Defined.

Lemma end_rows_repeat_last_tile_witness :
  exists (st' : Tiles) (new : list (UserData * Polygon * Z)),
    row_tiles (M := series_math) (B := sample_box2d) sample_cut_env [0; 1; 0; 0]%Z
              sample_cut_tiles 2 = Done st' /\
    road st' = road sample_cut_tiles ++ new /\ length new = 2%nat.
Proof.
  destruct (row_tiles (M := series_math) (B := sample_box2d) sample_cut_env [0; 1; 0; 0]%Z
                      sample_cut_tiles 2)
    as [st'| |] eqn:E; [|vm_compute in E; discriminate E..].
  destruct (end_rows_repeat_last_tile (M := series_math) (B := sample_box2d)
              sample_cut_env [0; 1; 0; 0]%Z []
              2 (mkInfo 1 false false false true [true; true] 0) sample_cut_tiles st')
    as (new & Hroad & Hlen & _).
  - vm_compute. reflexivity.
  - vm_compute. reflexivity.
  - reflexivity.
  - exact E.
  - exists st', new. split; [reflexivity|]. split; [exact Hroad|exact Hlen].
Defined.

Lemma play_past_track_length_witness :
  exists (s' : Game) (total' : Q) (steps' : nat) (done : bool),
    play sample_game_past (0, 1, 0) sample_frames 0 0 = Done (s', total', steps', done) /\
    done = false /\ steps' = (0 + length sample_frames)%nat.
Proof.
  destruct (play sample_game_past (0, 1, 0) sample_frames 0 0)
    as [[[[s' total'] steps'] done]| |] eqn:E; [|vm_compute in E; discriminate E..].
  exists s', total', steps', done. split; [reflexivity|].
  destruct (play_past_track_length (0, 1, 0) sample_frames sample_game_past s'
              0 total' 0%nat steps' done) as (Hd & Hs & _).
  - vm_compute. reflexivity.
  - repeat constructor.
  - exact E.
  - split; [exact Hd|exact Hs].
Defined.
(** ** The tile loop returns *)

Lemma np_where_from_elem {A : Type} (f : A -> bool) (k : nat) (l : list A) (i : nat) :
  i ∈ np_where_from f k l <->
  (k <= i)%nat /\ exists x : A, l !! (i - k)%nat = Some x /\ f x = true.
Proof.
  revert k. induction l as [|a l IH]; intros k; simpl.
  - split; [by intros ?%elem_of_nil|]. by intros (_ & x & ? & _).
  - assert (Hcases : i ∈ np_where_from f (S k) l <->
              (S k <= i)%nat /\ exists x : A, l !! (i - S k)%nat = Some x /\ f x = true)
      by apply IH.
    destruct (f a) eqn:Hfa.
    + rewrite elem_of_cons, Hcases. split.
      * intros [->|(Hle & x & Hx & Hfx)].
        -- split; [lia|]. exists a. by rewrite Nat.sub_diag.
        -- split; [lia|]. exists x. split; [|done].
           replace (i - k)%nat with (S (i - S k)) by lia. done.
      * intros (Hle & x & Hx & Hfx). destruct (decide (i = k)) as [->|Hne]; [by left|].
        right. split; [lia|]. exists x. split; [|done].
        replace (i - k)%nat with (S (i - S k)) in Hx by lia. done.
    + rewrite Hcases. split.
      * intros (Hle & x & Hx & Hfx). split; [lia|]. exists x. split; [|done].
        replace (i - k)%nat with (S (i - S k)) by lia. done.
      * intros (Hle & x & Hx & Hfx). destruct (decide (i = k)) as [->|Hne].
        -- rewrite Nat.sub_diag in Hx. simpl in Hx. congruence.
        -- split; [lia|]. exists x. split; [|done].
           replace (i - k)%nat with (S (i - S k)) in Hx by lia. done.
Qed.

Lemma rows_of_track_elem (info : list SegmentInfo) (track_id : Z) (i : nat) :
  i ∈ rows_of_track info track_id <->
  exists row : SegmentInfo, info !! i = Some row /\ i_track row = track_id.
Proof.
  unfold rows_of_track, np_where. rewrite np_where_from_elem, Nat.sub_0_r. split.
  - intros (_ & x & Hx & Hf). exists x. split; [done|]. by apply Z.eqb_eq.
  - intros (x & Hx & Hf). split; [lia|]. exists x. split; [done|]. by apply Z.eqb_eq.
Qed.

(** The two lane tests return on rows that have their two lane entries. *)
Lemma first_of_lane_total (info : list SegmentInfo) (j lane : nat) :
  (j < length info)%nat -> (lane < 2)%nat ->
  Forall (fun row => length (i_lanes row) = 2%nat) info ->
  exists first : bool, first_of_lane info j lane = Done first.
Proof.
  intros Hj Hlane Hall. rewrite Forall_forall in Hall. unfold first_of_lane.
  assert (Hlanes : forall row : SegmentInfo, row ∈ info ->
            exists present : bool, py_get (i_lanes row) (Z.of_nat lane) = Some present).
  { intros row Hrow. apply py_get_total. rewrite (Hall row Hrow). lia. }
  destruct (py_get_total info (Z.of_nat j)) as [row Hrow]; [lia|].
  destruct (py_get_total info (Z.of_nat j - 1)) as [prev Hprev]; [lia|].
  rewrite Hrow, Hprev. simpl.
  apply py_get_of_nat in Hrow.
  apply py_get_Some in Hprev as (kp & _ & Hprev).
  destruct (i_track prev =? i_track row)%Z.
  - destruct (Hlanes prev) as [present Hp]; [by eapply list_elem_of_lookup_2|].
    rewrite Hp. simpl. by eexists.
  - assert (Hin : j ∈ rows_of_track info (i_track row))
      by (apply rows_of_track_elem; by exists row).
    destruct (rows_of_track info (i_track row)) as [|lowest rows] eqn:Erows;
      [by apply elem_of_nil in Hin|].
    simpl. destruct (lowest =? j)%nat; [|by eexists].
    destruct (last (lowest :: rows)) as [k|] eqn:Hlast;
      [|by apply last_None in Hlast].
    simpl. apply last_Some_elem_of in Hlast. rewrite <- Erows in Hlast.
    apply rows_of_track_elem in Hlast as (closing & Hclosing & _).
    rewrite Hclosing. simpl.
    destruct (Hlanes closing) as [present Hp]; [by eapply list_elem_of_lookup_2|].
    rewrite Hp. simpl. by eexists.
Qed.

Lemma last_of_lane_total (info : list SegmentInfo) (j lane : nat) :
  (j < length info)%nat -> (lane < 2)%nat ->
  Forall (fun row => length (i_lanes row) = 2%nat) info ->
  exists last : bool, last_of_lane info j lane = Done last.
Proof.
  intros Hj Hlane Hall. rewrite Forall_forall in Hall. unfold last_of_lane.
  assert (Hlanes : forall row : SegmentInfo, row ∈ info ->
            exists present : bool, py_get (i_lanes row) (Z.of_nat lane) = Some present).
  { intros row Hrow. apply py_get_total. rewrite (Hall row Hrow). lia. }
  destruct (py_get_total info (Z.of_nat j)) as [row Hrow]; [lia|].
  rewrite Hrow. simpl. apply py_get_of_nat in Hrow.
  destruct (Nat.eqb_spec (length info) 0) as [?|_]; [lia|].
  destruct (info !! (S j mod length info)%nat) as [next|] eqn:Hnext;
    [|apply lookup_ge_None in Hnext;
      pose proof (Nat.mod_upper_bound (S j) (length info) ltac:(lia)); lia].
  simpl. destruct (i_track next =? i_track row)%Z.
  - destruct (Hlanes next) as [present Hp]; [by eapply list_elem_of_lookup_2|].
    rewrite Hp. simpl. by eexists.
  - assert (Hin : j ∈ rows_of_track info (i_track row))
      by (apply rows_of_track_elem; by exists row).
    destruct (last (rows_of_track info (i_track row))) as [highest|] eqn:Hlast;
      [|apply last_None in Hlast; rewrite Hlast in Hin; by apply elem_of_nil in Hin].
    simpl. destruct (highest =? j)%nat; [|by eexists].
    destruct (rows_of_track info (i_track row)) as [|k rows] eqn:Erows;
      [by apply elem_of_nil in Hin|].
    simpl.
    assert (Hk : k ∈ rows_of_track info (i_track row)) by (rewrite Erows; by left).
    apply rows_of_track_elem in Hk as (opening & Hopening & _).
    rewrite Hopening. simpl.
    destruct (Hlanes opening) as [present Hp]; [by eapply list_elem_of_lookup_2|].
    rewrite Hp. simpl. by eexists.
Qed.

Lemma for_each_seq_total_invariant {S : Type} (P : nat -> S -> Prop)
    (body : S -> nat -> outcome S) (start len : nat) (s : S) :
  P start s ->
  (forall (i : nat) (t : S), (start <= i < start + len)%nat -> P i t ->
     exists t' : S, body t i = Done t' /\ P (Datatypes.S i) t') ->
  exists s' : S, for_each body (seq start len) s = Done s' /\ P (start + len)%nat s'.
Proof.
  revert start s. induction len as [|len IH]; intros start s Hs Hbody; simpl.
  - exists s. by rewrite Nat.add_0_r.
  - destruct (Hbody start s) as (t & Ht & HP); [lia|done|]. rewrite Ht. simpl.
    replace (start + Datatypes.S len)%nat with (Datatypes.S start + len)%nat by lia.
    apply IH; [done|]. intros i t' Hi. apply Hbody. lia.
Qed.

(** A loop over a range whose body returns, keeping an invariant, or raises
    for the one reason [R]. *)
Lemma for_each_seq_unless {S : Type} (P : nat -> S -> Prop) (R : Prop)
    (body : S -> nat -> outcome S) (start len : nat) (s : S) :
  P start s ->
  (forall (i : nat) (t : S), (start <= i < start + len)%nat -> P i t ->
     (exists t' : S, body t i = Done t' /\ P (Datatypes.S i) t') \/
     (body t i = Raised /\ R)) ->
  (exists s' : S, for_each body (seq start len) s = Done s' /\ P (start + len)%nat s') \/
  (for_each body (seq start len) s = Raised /\ R).
Proof.
  revert start s. induction len as [|len IH]; intros start s Hs Hbody; simpl.
  - left. exists s. by rewrite Nat.add_0_r.
  - destruct (Hbody start s) as [(t & Ht & HP)|[Ht HR]]; [lia|done| |].
    + rewrite Ht. simpl.
      replace (start + Datatypes.S len)%nat with (Datatypes.S start + len)%nat by lia.
      apply IH; [done|]. intros i t' Hi. apply Hbody. lia.
    + right. by rewrite Ht.
Qed.

Section TileLoopReturns.
Context {M : MathLib} {B : Box2D}.

(** One round of the loop over the lanes returns, unless Box2D refuses the
    quad it has just computed: the corners a row that is an end or a start
    reads are those of a shape Box2D has built before. *)
Lemma lane_tile_unless (self : Env) (j : nat) (ob : Z) (s : Segment) (st : Tiles)
    (lane : nat) (row : SegmentInfo) :
  info self !! j = Some row -> track self !! j = Some s ->
  (lane < 2)%nat -> (lane < Z.to_nat (num_lanes self))%nat ->
  Forall (fun row => length (i_lanes row) = 2%nat) (info self) ->
  existsb (fun t : Track => negb (length t =? 0)%nat) (tracks self) = true ->
  (i_end row || i_start row = true -> corners st <> None) ->
  corners_built st ->
  (exists st' : Tiles,
     lane_tile self j ob (snd s) (fst s) st lane = Done st' /\
     (corners st <> None -> corners st' <> None) /\
     (i_lanes row !! lane = Some true -> corners st' <> None) /\
     corners_built st') \/
  (lane_tile self j ob (snd s) (fst s) st lane = Raised /\ refused_tile self).
Proof.
  intros Hrow Hs Hlane Hlane' Hall Htracks Hbound Hbuilt. unfold lane_tile.
  assert (Hj : (j < length (info self))%nat) by (by eapply lookup_lt_Some).
  rewrite py_get_nat, Hrow by done. simpl.
  assert (Hlen : length (i_lanes row) = 2%nat).
  { rewrite Forall_forall in Hall. apply Hall. by eapply list_elem_of_lookup_2. }
  rewrite py_get_nat by lia.
  destruct (i_lanes row !! lane) as [present|] eqn:Hp;
    [|apply lookup_ge_None in Hp; lia].
  simpl. destruct present; simpl; [|left; by exists st].
  rewrite Htracks. simpl.
  destruct (negb (i_end row) && negb (i_start row)) eqn:Hflag.
  - destruct (first_of_lane_total (info self) j lane Hj Hlane Hall) as [first Hfirst].
    destruct (last_of_lane_total (info self) j lane Hj Hlane Hall) as [last Hlast].
    rewrite Hfirst. simpl. rewrite Hlast. simpl.
    destruct (polygonShape _) eqn:Hshape; simpl.
    + left. eexists. split; [reflexivity|]. split; [done|]. split; [done|].
      intros q [= <-]. exact Hshape.
    + right. split; [done|]. exists j, lane, s, first, last.
      split; [done|]. split; [done|]. exact Hshape.
  - simpl. destruct (corners st) as [[[[road1_l road1_r] road2_l] road2_r]|] eqn:Hc.
    + simpl. pose proof (Hbuilt _ Hc) as Hshape. simpl in Hshape. rewrite Hshape.
      simpl. left. eexists. split; [reflexivity|].
      split; [done|]. split; [done|]. intros q [= <-]. by apply Hbuilt.
    + exfalso. apply Hbound; [|done]. by destruct (i_end row), (i_start row).
Qed.

Lemma row_tiles_unless (self : Env) (obstacles : list Z) (st : Tiles) (j : nat)
    (row : SegmentInfo) :
  (num_lanes self = 1 \/ num_lanes self = 2)%Z ->
  info self !! j = Some row ->
  (j < length (track self))%nat -> (j < length obstacles)%nat ->
  Forall (fun row => length (i_lanes row) = 2%nat) (info self) ->
  existsb (fun t : Track => negb (length t =? 0)%nat) (tracks self) = true ->
  (i_end row || i_start row = true -> corners st <> None) ->
  corners_built st ->
  (exists st' : Tiles,
     row_tiles self obstacles st j = Done st' /\
     (corners st <> None -> corners st' <> None) /\
     ((1 <= lanes_present (Z.to_nat (num_lanes self)) row)%nat -> corners st' <> None) /\
     corners_built st') \/
  (row_tiles self obstacles st j = Raised /\ refused_tile self).
Proof.
  intros Hn Hrow Hj Hobs Hall Htracks Hbound Hbuilt. unfold row_tiles.
  destruct (obstacles !! j) as [ob|] eqn:Hob; [|apply lookup_ge_None in Hob; lia].
  simpl. rewrite py_get_nat by done.
  destruct (track self !! j) as [s|] eqn:Hs; [|apply lookup_ge_None in Hs; lia].
  simpl.
  assert (Hn2 : (Z.to_nat (num_lanes self) <= 2)%nat) by lia.
  destruct (for_each_seq_unless
              (fun k x => (corners st <> None -> corners x <> None) /\
                          ((1 <= lanes_present k row)%nat -> corners x <> None) /\
                          corners_built x)
              (refused_tile self)
              (lane_tile self j ob (snd s) (fst s)) 0 (Z.to_nat (num_lanes self)) st)
    as [(st' & Hst' & Hkeep & Hnew & Hbuilt')|[Hraised Hrefused]].
  - split; [done|]. split; [|done]. unfold lanes_present. simpl. lia.
  - intros k x Hk (Hkeep & Hnew & Hbx).
    destruct (lane_tile_unless self j ob s x k row)
      as [(x' & Hx' & Hkeep' & Hnew' & Hbx')|[Hraised Hrefused]];
      [done|done|lia|lia|done|done| |done| |].
    { intros Hf. apply Hkeep. by apply Hbound. }
    + left. exists x'. split; [done|]. split; [by intros ?; apply Hkeep', Hkeep|].
      split; [|done].
      assert (Hlen : length (i_lanes row) = 2%nat).
      { rewrite Forall_forall in Hall. apply Hall. by eapply list_elem_of_lookup_2. }
      destruct (i_lanes row !! k) as [present|] eqn:Hp;
        [|apply lookup_ge_None in Hp; lia].
      rewrite (lanes_present_S _ _ _ Hp). destruct present.
      * intros _. by apply Hnew'.
      * rewrite Nat.add_0_r. intros H1. by apply Hkeep', Hnew.
    + right. by split.
  - left. exists st'. by split.
  - right. by split.
Qed.

(** On a well-formed environment (one row of [info] per segment, two lane
    entries per row, a first row that is neither an end nor a start and has
    a lane) the tile loop returns, unless Box2D refuses the quad of a
    segment. *)
Lemma create_tiles_unless (self : Env) (obstacles : list Z)
    (polys0 : list (Polygon * list Q)) :
  (num_lanes self = 1 \/ num_lanes self = 2)%Z ->
  length (info self) = length (track self) ->
  (length (track self) <= length obstacles)%nat ->
  Forall (fun row => length (i_lanes row) = 2%nat) (info self) ->
  existsb (fun t : Track => negb (length t =? 0)%nat) (tracks self) = true ->
  (forall row : SegmentInfo, info self !! 0%nat = Some row ->
     i_end row || i_start row = false /\
     (1 <= lanes_present (Z.to_nat (num_lanes self)) row)%nat) ->
  (exists st : Tiles, create_tiles self obstacles polys0 = Done st) \/
  (create_tiles self obstacles polys0 = Raised /\ refused_tile self).
Proof.
  intros Hn Hlen Hobs Hall Htracks Hrow0. unfold create_tiles.
  destruct (for_each_seq_unless
              (fun j x => ((0 < j)%nat -> corners x <> None) /\ corners_built x)
              (refused_tile self)
              (row_tiles self obstacles) 0 (length (track self))
              (mkTiles polys0 [] None))
    as [(st & Hst & _)|[Hraised Hrefused]];
    [split; [intros; lia|by intros q]| |left; by exists st|right; by split].
  intros j x Hj [Hx Hbx].
  destruct (info self !! j) as [row|] eqn:Hrow; [|apply lookup_ge_None in Hrow; lia].
  destruct (row_tiles_unless self obstacles x j row)
    as [(x' & Hx' & Hkeep & Hnew & Hbx')|[Hraised Hrefused]];
    [done|done|lia|lia|done|done| |done| |].
  - intros Hflag. apply Hx. destruct j as [|j]; [|lia].
    destruct (Hrow0 row Hrow) as [Hf _]. congruence.
  - left. exists x'. split; [done|]. split; [|done]. intros _. destruct j as [|j].
    + apply Hnew. by destruct (Hrow0 row Hrow).
    + apply Hkeep, Hx. lia.
  - right. by split.
Qed.

End TileLoopReturns.
Section TilesAfterAnnotator.
Context {M : MathLib} {B : Box2D}.

(** The first row of [info] belongs to the principal track and is neither an
    end nor a start. *)
Lemma _create_info_first_row (self self' : Env) (t0 : Track) (rest : list Track)
    (row : SegmentInfo) :
  tracks self = t0 :: rest -> t0 <> [] -> (length rest <= 1)%nat ->
  _create_info self = Done self' ->
  info self' !! 0%nat = Some row ->
  i_end row = false /\ i_start row = false.
Proof.
  intros Hts Hne Hrest H Hrow.
  assert (Hcols : exists n : nat,
            (i_end <$> info self') !! 0%nat = Some false /\
            (i_start <$> info self') !! 0%nat = Some false \/ n = 0%nat /\ False).
  { exists 1%nat. left. destruct rest as [|t1 [|? ?]]; [| |simpl in Hrest; lia].
    - unfold _create_info in H. rewrite Hts in H. simpl in H.
      inv_bind H. rename r into idx. inv_bind H. rename r into info2. injection H as <-.
      cbn [info with_info] in *.
      assert (He : i_end <$> info2 = i_end <$> replicate (length t0 + 0) info_zero).
      { eapply (for_each_invariant
                  (fun x => i_end <$> x = i_end <$> replicate (length t0 + 0) info_zero));
          [reflexivity| |exact Hstep0].
        intros a t t' Hinv Hb. rewrite <- Hinv.
        apply or_raise_Done in Hb. eapply py_update_column; [|exact Hb]. done. }
      assert (Hs : i_start <$> info2 = i_start <$> replicate (length t0 + 0) info_zero).
      { eapply (for_each_invariant
                  (fun x => i_start <$> x = i_start <$> replicate (length t0 + 0) info_zero));
          [reflexivity| |exact Hstep0].
        intros a t t' Hinv Hb. rewrite <- Hinv.
        apply or_raise_Done in Hb. eapply py_update_column; [|exact Hb]. done. }
      rewrite He, Hs, !fmap_replicate. destruct t0; [done|]. by split.
    - destruct (_create_info_stages _ _ _ _ Hts H)
        as (info1 & idx & _ & _ & _ & He1 & Hs1 & He2 & Hs2).
      rewrite He2, Hs2, He1, Hs1. destruct t0; [done|]. by split. }
  destruct Hcols as (_ & [[He Hs]|[_ []]]).
  rewrite list_lookup_fmap, Hrow in He, Hs. simpl in He, Hs.
  split; congruence.
Qed.

Lemma _set_lanes_lanes_only (self self' : Env) (gl gl' : RandomState) :
  _set_lanes self gl = Done (self', gl') ->
  num_lanes self' = num_lanes self /\
  lanes_only (info self) (info self') /\
  ((num_lanes self <= 1)%Z -> self' = self).
Proof.
  assert (Hrefl : lanes_only (info self) (info self)).
  { split; [done|]. intros k r r' Hk Hk'. rewrite Hk in Hk'. injection Hk' as <-.
    by destruct r. }
  unfold _set_lanes.
  destruct (Z.ltb_spec 0 (num_lanes_changes self)) as [H0|H0];
    destruct (Z.ltb_spec 1 (num_lanes self)) as [H1|H1]; simpl.
  2-4: intros [= <- <-]; split; [done|]; split; [done|]; done.
  intros H. inv_bind H. destruct r as [changes g].
  inv_bind H. destruct r as [[[rm lane] info'] gl2]. injection H as <- <-.
  apply set_lanes_loop_frame in Hstep0 as (Honly & _).
  split; [done|]. split; [done|]. intros ?. lia.
Qed.

(** X18.  After [_create_info] and [_set_lanes] on one or two tracks, the
    first of them not empty, with one or two lanes configured and an
    obstacle draw for every segment, the tile loop raises for one reason
    only: Box2D refuses the quad computed for a segment.  No index is out
    of range, and the corners are bound whenever a row that is an end or a
    start reads them, since the first row belongs to the principal track
    and makes a tile; the corners such a row reads are those of a shape
    Box2D has built. *)
Theorem create_tiles_raises_in_box2d_only (self self1 self2 : Env) (gl gl' : RandomState)
    (t0 : Track) (rest : list Track) (obstacles : list Z) (polys0 : list (Polygon * list Q)) :
  tracks self = t0 :: rest -> t0 <> [] -> (length rest <= 1)%nat ->
  (num_lanes self = 1 \/ num_lanes self = 2)%Z ->
  (length (track self) <= length obstacles)%nat ->
  _create_info self = Done self1 ->
  _set_lanes self1 gl = Done (self2, gl') ->
  (exists st : Tiles, create_tiles self2 obstacles polys0 = Done st) \/
  (create_tiles self2 obstacles polys0 = Raised /\ refused_tile self2).
Proof.
  intros Hts Hne Hrest Hn Hobs Hinfo Hset.
  pose proof (_create_info_length _ _ Hinfo) as [Hlen Htrack].
  pose proof (_create_info_lanes _ _ Hinfo) as Hlanes.
  pose proof (_set_lanes_lanes_ok _ _ _ _ Hlanes Hset) as Hok.
  pose proof (_set_lanes_keeps_tracks _ _ _ _ Hset) as [Htracks2 Htrack2].
  assert (Hself1 : num_lanes self1 = num_lanes self /\ tracks self1 = tracks self).
  { unfold _create_info in Hinfo. inv_bind Hinfo. inv_bind Hinfo. inv_bind Hinfo.
    by injection Hinfo as <-. }
  destruct Hself1 as [Hnl1 Hts1].
  destruct (_set_lanes_lanes_only _ _ _ _ Hset) as (Hnl2 & [Hlen2 Honly] & Hoff).
  apply create_tiles_unless.
  - rewrite Hnl2, Hnl1. done.
  - rewrite Hlen2, Hlen, Htrack2, Htrack. done.
  - rewrite Htrack2, Htrack. done.
  - eapply Forall_impl; [exact Hok|]. by intros row [-> |[-> | ->]].
  - rewrite Htracks2, Hts1, Hts. simpl. destruct t0; [done|]. done.
  - intros row Hrow.
    assert (Hrow1 : exists row1, info self1 !! 0%nat = Some row1).
    { apply lookup_lt_is_Some_2. apply lookup_lt_Some in Hrow. lia. }
    destruct Hrow1 as [row1 Hrow1].
    destruct (_create_info_first_row _ _ _ _ _ Hts Hne Hrest Hinfo Hrow1) as [He Hs].
    pose proof (Honly _ _ _ Hrow1 Hrow) as Heq.
    split; [rewrite Heq; simpl; by rewrite He, Hs|].
    rewrite Hnl2, Hnl1. destruct Hn as [Hn|Hn]; rewrite Hn.
    + rewrite Hoff in Hrow by lia. rewrite Hrow1 in Hrow. injection Hrow as <-.
      rewrite Forall_forall in Hlanes.
      unfold lanes_present. rewrite (Hlanes row1) by (by eapply list_elem_of_lookup_2).
      simpl. lia.
    + change (Z.to_nat 2) with 2%nat. apply lanes_ok_present.
      rewrite Forall_forall in Hok. apply Hok. by eapply list_elem_of_lookup_2.
Qed.

End TilesAfterAnnotator.

Lemma create_tiles_raises_in_box2d_only_witness :
  (exists st : Tiles,
     create_tiles (M := series_math) (B := sample_box2d) sample_lanes_env
                  [0; 1; 0; 0; 0]%Z [] = Done st) \/
  (create_tiles (M := series_math) (B := sample_box2d) sample_lanes_env
                [0; 1; 0; 0; 0]%Z [] = Raised /\
   refused_tile (M := series_math) (B := sample_box2d) sample_lanes_env).
Proof.
  destruct (_set_lanes sample_info_env odd_source) as [[self2 gl1]| |] eqn:E;
    [|vm_compute in E; discriminate E..].
  assert (Hself2 : self2 = sample_lanes_env)
    by (unfold sample_lanes_env; by rewrite E).
  rewrite <- Hself2.
  apply (create_tiles_raises_in_box2d_only (M := series_math) (B := sample_box2d)
           sample_env sample_info_env self2 odd_source gl1 sample_track0 [sample_track1]).
  - reflexivity.
  - discriminate.
  - simpl. lia.
  - right. reflexivity.
  - simpl. lia.
  - vm_compute. reflexivity.
  - exact E.
Defined.
(** ** A lane on every segment *)

Section LanePresence.
Context {M : MathLib}.

(** C4: after [_create_info] and [_set_lanes], whatever the configuration
    and the draws of the two random sources, [info] has exactly one row for
    each segment of the tracks and of [self.track], and every segment has a
    lane left: [_create_info] gives each row the lanes [[True, True]], and
    after [_set_lanes] the [lanes] list of the row of each segment is one
    of [[True, True]], [[False, True]] and [[True, False]]. *)
Theorem every_segment_keeps_a_lane (self self1 self2 : Env) (gl gl' : RandomState) :
  _create_info self = Done self1 ->
  _set_lanes self1 gl = Done (self2, gl') ->
  track self2 = track self /\
  length (info self1) = sum_list (map length (tracks self)) /\
  Forall (fun row => i_lanes row = [true; true]) (info self1) /\
  length (info self2) = sum_list (map length (tracks self)) /\
  length (info self2) = length (track self) /\
  (forall (i : nat) (segment : Segment), track self !! i = Some segment ->
     exists row : SegmentInfo,
       info self2 !! i = Some row /\ lanes_ok row /\ In true (i_lanes row)) /\
  Forall (fun row => lanes_ok row /\ In true (i_lanes row)) (info self2).
Proof.
  intros Hinfo Hset.
  pose proof (_create_info_length _ _ Hinfo) as [Hlen Htrack].
  pose proof (_create_info_lanes _ _ Hinfo) as Hlanes.
  pose proof (_create_info_lanes_column _ _ Hinfo) as Hcol.
  pose proof (_set_lanes_lanes_ok _ _ _ _ Hlanes Hset) as Hok.
  pose proof (_set_lanes_keeps_tracks _ _ _ _ Hset) as [_ Htrack2].
  destruct (_set_lanes_lanes_only _ _ _ _ Hset) as (_ & [Hlen2 _] & _).
  assert (Hsum : length (info self1) = sum_list (map length (tracks self))).
  { apply (f_equal length) in Hcol. by rewrite length_fmap, length_replicate in Hcol. }
  split; [congruence|]. split; [done|]. split; [done|].
  split; [congruence|]. split; [congruence|]. split.
  - intros i segment Hi.
    destruct (lookup_lt_is_Some_2 (info self2) i) as [row Hrow].
    { rewrite Hlen2, Hlen. by eapply lookup_lt_Some. }
    exists row. split; [done|].
    rewrite Forall_forall in Hok.
    assert (Hrow_ok : lanes_ok row) by (apply Hok; by eapply list_elem_of_lookup_2).
    split; [done|]. by apply lanes_ok_has_lane.
  - eapply Forall_impl; [exact Hok|]. intros row Hrow. split; [done|].
    by apply lanes_ok_has_lane.
Qed.

End LanePresence.

Lemma every_segment_keeps_a_lane_witness :
  length (info sample_lanes_env) = 5%nat /\
  forall (i : nat) (segment : Segment), track sample_env !! i = Some segment ->
    exists row : SegmentInfo,
      info sample_lanes_env !! i = Some row /\ lanes_ok row /\ In true (i_lanes row).
Proof.
  destruct (every_segment_keeps_a_lane (M := series_math)
              sample_env sample_info_env sample_lanes_env odd_source
              (fun n => odd_source (1 + n)%nat))
    as (_ & _ & _ & Hrows & _ & Hseg & _).
  - vm_compute. reflexivity.
  - vm_compute. reflexivity.
  - split; [exact Hrows|exact Hseg].
Defined.

(** ** The configuration *)

(** X19.  [set_config] (lines 146-164) keeps the configuration in the ranges
    it accepts, whatever its arguments, and calling it again with the same
    arguments changes nothing. *)
Theorem set_config_keeps_valid (self : Env) (nt nl nc : Z) (po : Q) :
  valid_config self ->
  valid_config (set_config self nt nl nc po) /\
  set_config (set_config self nt nl nc po) nt nl nc po = set_config self nt nl nc po.
Proof.
  intros (Ht & Hl & Hc & Hp0 & Hp1). split.
  - unfold valid_config, set_config. cbn [num_tracks num_lanes num_lanes_changes prob_obstacle].
    split; [|split; [|split]].
    + destruct (Z.ltb_spec 0 nt), (Z.leb_spec nt 2); simpl; try done; lia.
    + destruct (Z.ltb_spec 0 nl), (Z.leb_spec nl 2); simpl; try done; lia.
    + destruct (Z.leb_spec 0 nc); simpl; [lia|done].
    + destruct (Qgeb po 0 && Qle_bool po 1) eqn:E; [|done].
      apply andb_prop in E as [E0 E1]. apply Qle_bool_iff in E1.
      unfold Qgeb in E0. apply Qle_bool_iff in E0. done.
  - unfold set_config. cbn [num_tracks num_lanes num_lanes_changes prob_obstacle np_random
                            start_alpha tracks track info intersections].
    f_equal.
    + by destruct (0 <=? nc)%Z.
    + by destruct ((0 <? nt)%Z && (nt <=? 2)%Z).
    + by destruct ((0 <? nl)%Z && (nl <=? 2)%Z).
    + by destruct (Qgeb po 0 && Qle_bool po 1).
Qed.

Lemma set_config_keeps_valid_witness :
  valid_config (set_config sample_env 5 1 (-1) 0.5).
Proof.
  apply (set_config_keeps_valid sample_env 5 1 (-1) 0.5).
  unfold valid_config. simpl. repeat split; try lia; try (by right); by vm_compute.
Defined.
(** ** The obstacle draws *)

Lemma random_sample_word (g g' : RandomState) :
  g 0%nat = g' 0%nat -> (random_sample g).1 = (random_sample g').1.
Proof. unfold random_sample, next_word. cbn [fst]. by intros ->. Qed.

Lemma binomial1_draw (g : RandomState) (p : Q) :
  0 <= p -> p <= 1 ->
  exists o : Z,
    binomial1 g p = Done (o, fun k => g (S k)) /\
    (o = 0 \/ o = 1)%Z /\
    (o = 1%Z <-> draws_obstacle p (random_sample g).1).
Proof.
  intros H0 H1. unfold binomial1, draws_obstacle.
  assert (E0 : Qltb p 0 = false).
  { unfold Qltb. apply negb_false_iff. by apply Qle_bool_iff. }
  assert (E1 : Qgtb p 1 = false).
  { unfold Qgtb, Qltb. apply negb_false_iff. by apply Qle_bool_iff. }
  rewrite E0, E1. cbn [orb].
  destruct (random_sample g) as [u g'] eqn:Eu.
  assert (Hg : g' = fun k => g (S k)).
  { unfold random_sample, next_word in Eu. by injection Eu as _ <-. }
  subst g'. cbn [fst].
  destruct (Qle_bool p 0.5) eqn:Eh.
  - apply Qle_bool_iff in Eh. destruct (Qgtb u (1 - p)) eqn:Eg.
    + apply Qgtb_true in Eg. exists 1%Z. split; [done|]. split; [by right|].
      split; [intros _; by left|done].
    + apply Qgtb_false in Eg. exists 0%Z. split; [done|]. split; [by left|].
      split; [done|]. intros [[_ Hu]|[Hp _]]; lra.
  - assert (Hp : 0.5 < p).
    { apply Qnot_le_lt. intros Hle. apply Qle_bool_iff in Hle. congruence. }
    destruct (Qle_bool u p) eqn:Eg.
    + apply Qle_bool_iff in Eg. exists 1%Z. split; [done|]. split; [by right|].
      split; [intros _; by right|done].
    + assert (Hu : p < u).
      { apply Qnot_le_lt. intros Hle. apply Qle_bool_iff in Hle. congruence. }
      exists 0%Z. split; [done|]. split; [by left|].
      split; [done|]. intros [[Hp' _]|[_ Hu']]; lra.
Qed.

Lemma binomial1_raises (g : RandomState) (p : Q) :
  p < 0 \/ 1 < p -> binomial1 g p = Raised.
Proof.
  intros Hp. unfold binomial1.
  assert (E : Qltb p 0 || Qgtb p 1 = true).
  { apply orb_true_iff. unfold Qgtb, Qltb.
    destruct Hp as [Hp|Hp]; [left|right]; apply negb_true_iff;
      destruct (Qle_bool _ _) eqn:E; try done; apply Qle_bool_iff in E; lra. }
  by rewrite E.
Qed.

(** X20.  The obstacle draws of the tile loop (lines 405-406).  With a
    probability in [[0, 1]], where [set_config] keeps it, there is one draw
    per segment, each 0 or 1, the draw of the segment [j] decided by the
    word [j] of the process-wide source alone, which gives one word per
    segment; the probability 0 draws no obstacle, the probability 1 draws
    one on every segment.  With a probability outside [[0, 1]] the first
    draw raises, so that the loop returns on a track without segments
    only. *)
Theorem obstacles_drawn (p : Q) (n : nat) (gl : RandomState) :
  (0 <= p -> p <= 1 ->
   exists (obstacles : list Z) (gl' : RandomState),
     draw_obstacles p n gl = Done (obstacles, gl') /\
     length obstacles = n /\
     Forall (fun o => o = 0%Z \/ o = 1%Z) obstacles /\
     (forall k : nat, gl' k = gl (n + k)%nat) /\
     (forall (j : nat) (o : Z), obstacles !! j = Some o ->
        (o = 1%Z <-> draws_obstacle p (random_sample (fun k => gl (j + k)%nat)).1)) /\
     (p == 0 -> obstacles = replicate n 0%Z) /\
     (p == 1 -> obstacles = replicate n 1%Z)) /\
  (p < 0 \/ 1 < p ->
   draw_obstacles p n gl = if (n =? 0)%nat then Done ([], gl) else Raised).
Proof.
  split.
  - intros H0 H1. unfold draw_obstacles.
    destruct (for_each_seq_total_invariant
                (fun i (st : list Z * RandomState) =>
                   length st.1 = i /\
                   (forall (j : nat) (o : Z), st.1 !! j = Some o ->
                      (o = 0 \/ o = 1)%Z /\
                      (o = 1%Z <->
                       draws_obstacle p (random_sample (fun k => gl (j + k)%nat)).1)) /\
                   (forall k : nat, st.2 k = gl (i + k)%nat))
                (fun (st : list Z * RandomState) (_ : nat) =>
                   let '(acc, gl) := st in
                   '(o, gl) ← binomial1 gl p; Done (acc ++ [o], gl))
                0 n ([], gl)) as ([obstacles gl'] & Hrun & Hlen & Hdraw & Hg).
    + cbn [fst snd]. split; [done|]. split; [intros j o [=]|done].
    + intros i [acc g] _ (Hlen & Hdraw & Hg). cbn [fst snd] in *.
      destruct (binomial1_draw g p H0 H1) as (o & Hb & Ho & Hiff).
      rewrite Hb. simpl. eexists. split; [reflexivity|]. cbn [fst snd].
      split; [rewrite length_app; simpl; lia|]. split.
      * intros j o' Hj. destruct (decide (j < i)%nat) as [Hlt|Hge].
        -- rewrite lookup_app_l in Hj by lia. by apply Hdraw.
        -- rewrite lookup_app_r in Hj by lia.
           destruct (j - length acc)%nat as [|d] eqn:Ed; [|done].
           injection Hj as <-. assert (j = i) as -> by lia. split; [done|].
           pose proof (random_sample_word (fun k => gl (i + k)%nat) g) as E.
           enough (Hgoal : o = 1%Z <->
                           draws_obstacle p (random_sample (fun k => gl (i + k)%nat)).1)
             by exact Hgoal.
           rewrite E; [done|]. by rewrite Hg.
      * intros k. rewrite Hg. f_equal. lia.
    + cbn [fst snd] in *. change (0 + n)%nat with n in *.
      exists obstacles, gl'. split; [done|]. split; [done|].
      split; [apply Forall_lookup; intros j o Hj; by apply (Hdraw j)|].
      split; [done|]. split; [intros j o Hj; by apply (Hdraw j)|].
      assert (Hunit : forall j : nat,
                0 <= (random_sample (fun k => gl (j + k)%nat)).1 /\
                (random_sample (fun k => gl (j + k)%nat)).1 < 1)
        by (intros j; apply random_sample_unit).
      split.
      * intros Hp. apply list_eq. intros j. destruct (obstacles !! j) as [o|] eqn:Hj.
        -- assert (Hlt : (j < n)%nat) by (rewrite <- Hlen; by eapply lookup_lt_Some).
           rewrite lookup_replicate_2 by done. f_equal.
           destruct (Hdraw j o Hj) as [[-> | ->] Hiff]; [done|].
           exfalso. destruct Hiff as [Hiff _]. specialize (Hunit j).
           destruct (Hiff eq_refl) as [[_ Hu]|[Hq _]]; lra.
        -- apply lookup_ge_None in Hj. symmetry. apply lookup_ge_None.
           rewrite length_replicate. lia.
      * intros Hp. apply list_eq. intros j. destruct (obstacles !! j) as [o|] eqn:Hj.
        -- assert (Hlt : (j < n)%nat) by (rewrite <- Hlen; by eapply lookup_lt_Some).
           rewrite lookup_replicate_2 by done. f_equal.
           destruct (Hdraw j o Hj) as [[-> | ->] Hiff]; [|done].
           exfalso. destruct Hiff as [_ Hiff]. specialize (Hunit j).
           assert (E : 0%Z = 1%Z); [|done].
           apply Hiff. right. lra.
        -- apply lookup_ge_None in Hj. symmetry. apply lookup_ge_None.
           rewrite length_replicate. lia.
  - intros Hp. unfold draw_obstacles. destruct n as [|n]; [done|].
    simpl. by rewrite (binomial1_raises gl p Hp).
Qed.
(** ** The clock and the zoom *)

Lemma step_clock (s s' : Game) (action : option (Q * Q * Q)) (w : WorldStep) (r : Q)
    (done : bool) :
  step s action w = Done (s', r, done) -> t s' = t s + 1.0 / FPS.
Proof.
  intros H. unfold step in H. inv_bind H. rename r0 into s1.
  apply contacts_scoring in Hstep as (_ & _ & Ht & _).
  destruct action as [a|].
  - destruct (hull_position w) as [x y].
    destruct (Qgtb (Qabs x) PLAYFIELD || Qgtb (Qabs y) PLAYFIELD);
      injection H as <- _ _; simpl; by rewrite Ht.
  - injection H as <- _ _. simpl. by rewrite Ht.
Qed.

Lemma play_clock (a : Q * Q * Q) (frames : list WorldStep) (s s' : Game)
    (total total' : Q) (steps steps' : nat) (done : bool) :
  play s a frames total steps = Done (s', total', steps', done) ->
  (steps <= steps')%nat /\
  t s' == t s + inject_Z (Z.of_nat (steps' - steps)) / FPS.
Proof.
  revert s total steps. induction frames as [|w frames IH]; intros s total steps H.
  - simpl in H. injection H as Hs Ht Hn Hd. subst s' steps'. split; [lia|].
    rewrite Nat.sub_diag. change (inject_Z (Z.of_nat 0)) with 0. unfold Qdiv. ring.
  - cbn [play] in H. inv_bind H. destruct r as [[s1 r] d].
    apply step_clock in Hstep.
    assert (Hone : t s1 == t s + 1 / FPS) by (rewrite Hstep; unfold Qdiv; ring).
    destruct d.
    + injection H as Hs Ht Hn Hd. subst s' steps'. split; [lia|].
      replace (S steps - steps)%nat with 1%nat by lia. exact Hone.
    + apply IH in H as [Hle Hclock]. split; [lia|]. rewrite Hclock, Hone.
      replace (Z.of_nat (steps' - steps)) with (Z.of_nat (steps' - S steps) + 1)%Z by lia.
      rewrite inject_Z_plus. change (inject_Z 1) with 1. unfold Qdiv. ring.
Qed.

(** X21.  The clock of [step] and the zoom of [render] (lines 538-547 and
    578): every frame adds [1/FPS] to the time of the environment; the zoom
    is [0.1*SCALE] at time 0, never decreases as the frames go by, stays
    between [0.1*SCALE] and [ZOOM*SCALE], and is [ZOOM*SCALE] from the
    fiftieth frame on. *)
Theorem zoom_animation (a : Q * Q * Q) (frames : list WorldStep) (s s' : Game)
    (total total' : Q) (steps steps' : nat) (done : bool) :
  0 <= t s ->
  play s a frames total steps = Done (s', total', steps', done) ->
  t s' == t s + inject_Z (Z.of_nat (steps' - steps)) / FPS /\
  render_zoom 0 == 0.1 * SCALE /\
  render_zoom (t s) <= render_zoom (t s') /\
  0.1 * SCALE <= render_zoom (t s') /\ render_zoom (t s') <= ZOOM * SCALE /\
  ((50 <= steps' - steps)%nat -> render_zoom (t s') == ZOOM * SCALE).
Proof.
  intros Ht0 H. apply play_clock in H as [Hle Hclock].
  set (n := inject_Z (Z.of_nat (steps' - steps))) in *.
  assert (Hn : 0 <= n).
  { unfold n. change 0 with (inject_Z 0). rewrite <- Zle_Qle. lia. }
  assert (Hstep : t s <= t s').
  { rewrite Hclock. unfold Qdiv, FPS. change (/ 50) with (1 # 50). lra. }
  assert (Hzoom : forall x : Q,
            (x <= 0 -> render_zoom x == 0.1 * SCALE * (1 - x) + ZOOM * SCALE * x) /\
            (0 <= x -> x <= 1 ->
             render_zoom x == 0.1 * SCALE * (1 - x) + ZOOM * SCALE * x) /\
            (1 <= x -> render_zoom x == ZOOM * SCALE)).
  { intros x. unfold render_zoom. split; [|split].
    - intros Hx. rewrite (Q.max_l (1 - x) 0), (Q.min_l x 1) by lra. reflexivity.
    - intros Hx0 Hx1. rewrite (Q.max_l (1 - x) 0), (Q.min_l x 1) by lra. reflexivity.
    - intros Hx. rewrite (Q.max_r (1 - x) 0), (Q.min_r x 1) by lra. ring. }
  assert (Hconst : 0.1 * SCALE == 6 # 10 /\ ZOOM * SCALE == 162 # 10)
    by (split; by vm_compute).
  destruct Hconst as [Hlo Hhi].
  assert (Hval : forall x : Q, 0 <= x ->
            (x <= 1 -> render_zoom x == (6 # 10) * (1 - x) + (162 # 10) * x) /\
            (1 <= x -> render_zoom x == 162 # 10)).
  { intros x Hx. destruct (Hzoom x) as (_ & Hmid & Htop). split.
    - intros Hx1. rewrite (Hmid Hx Hx1), Hlo, Hhi. reflexivity.
    - intros Hx1. by rewrite (Htop Hx1). }
  split; [done|]. split.
  { destruct (Hval 0 ltac:(lra)) as [H0 _]. rewrite H0 by lra. rewrite Hlo. ring. }
  assert (Ht1 : 0 <= t s') by lra.
  destruct (Hval (t s) Ht0) as [Hs_lo Hs_hi]. destruct (Hval (t s') Ht1) as [Hs'_lo Hs'_hi].
  rewrite Hlo, Hhi.
  destruct (Qlt_le_dec (t s) 1) as [Hs1|Hs1]; destruct (Qlt_le_dec (t s') 1) as [Hs'1|Hs'1].
  - rewrite Hs_lo, Hs'_lo by lra. split; [lra|]. split; [lra|]. split; [lra|].
    intros H50. exfalso.
    assert (50 <= n) by (unfold n; change 50 with (inject_Z 50); rewrite <- Zle_Qle; lia).
    rewrite Hclock in Hs'1. unfold Qdiv, FPS in Hs'1. change (/ 50) with (1 # 50) in Hs'1. lra.
  - rewrite Hs_lo, Hs'_hi by lra. split; [lra|]. split; [lra|]. split; [lra|]. done.
  - lra.
  - rewrite Hs_hi, Hs'_hi by lra. split; [lra|]. split; [lra|]. split; [lra|]. done.
Qed.

Lemma zoom_animation_witness :
  exists (s' : Game) (total' : Q) (steps' : nat) (done : bool),
    play sample_game (0, 1, 0) sample_frames 0 0 = Done (s', total', steps', done) /\
    render_zoom (t sample_game) <= render_zoom (t s').
Proof.
  destruct (play sample_game (0, 1, 0) sample_frames 0 0)
    as [[[[s' total'] steps'] done]| |] eqn:E; [|vm_compute in E; discriminate E..].
  exists s', total', steps', done. split; [reflexivity|].
  destruct (zoom_animation (0, 1, 0) sample_frames sample_game s' 0 total' 0%nat steps' done)
    as (_ & _ & H & _).
  - by vm_compute.
  - exact E.
  - exact H.
Defined.
(** ** The side of the lane removed *)

Lemma set_lane_side (changes : list Z) (info : list SegmentInfo) (i : nat)
    (st st' : Z * Z * list SegmentInfo * RandomState) :
  Forall (fun row => i_lanes row = [true; true]) info ->
  lanes_side changes info i st -> set_lane changes st i = Done st' ->
  lanes_side changes info (S i) st'.
Proof.
  destruct st as [[[rm_lane lane] info1] gl1].
  intros Hinit (Hrm & Hlane & Hrest & Hprev & Hpairs) H.
  unfold set_lane in H.
  set (change := existsb (Z.eqb (Z.of_nat i)) changes) in H.
  set (rm := ((rm_lane + (if change then 1 else 0)) mod 2)%Z) in H.
  assert (Hrm1 : (rm = 0 \/ rm = 1)%Z).
  { unfold rm. pose proof (Z.mod_pos_bound (rm_lane + (if change then 1 else 0)) 2). lia. }
  assert (Hin : change = true <-> In (Z.of_nat i) changes) by apply existsb_eqb_In.
  inv_bind H. destruct r as [lane' gl2].
  assert (Hlane' : (lane' = 0 \/ lane' = 1)%Z /\ (change = false -> lane' = lane)).
  { destruct change; simpl in Hstep.
    - destruct (rm =? 1)%Z.
      + apply randint_range in Hstep. split; [lia|done].
      + injection Hstep as <- _. by split.
    - injection Hstep as <- _. by split. }
  destruct Hlane' as [Hlane' Hsame].
  inv_bind H. rename r into row. apply py_get_of_nat in Hstep0.
  inv_bind H. rename r into info2. inv_bind H. rename r into row2.
  apply py_get_of_nat in Hstep2. injection H as <-.
  assert (Hrow0 : info !! i = Some row) by (by rewrite <- Hrest).
  assert (Hfresh : i_lanes row = [true; true]).
  { rewrite Forall_forall in Hinit. apply Hinit. by eapply list_elem_of_lookup_2. }
  assert (Hlt : (i < length info1)%nat) by (by eapply lookup_lt_Some).
  assert (Hinfo2 : (rm = 0%Z /\ info2 = info1) \/
                   (rm = 1%Z /\
                    info2 = <[i := set_i_lanes (without_lane lane') row]> info1)).
  { destruct (Z.eqb_spec rm 0) as [E|E].
    - injection Hstep1 as <-. by left.
    - right. split; [lia|]. inv_bind Hstep1.
      apply or_raise_Done, py_set_of_nat in Hstep1 as [_ ->].
      match goal with
      | Hl : py_set (i_lanes row) lane' false = Some _ |- _ =>
          rewrite Hfresh in Hl; unfold py_set in Hl; rewrite py_index_spec in Hl;
          unfold without_lane;
          destruct Hlane' as [-> | ->]; simpl in Hl; by injection Hl as <-
      end. }
  assert (Hrow2 : i_lanes row2 = (if (rm =? 0)%Z then [true; true] else without_lane lane') /\
                  info2 !! i = Some row2).
  { split; [|done]. destruct Hinfo2 as [[-> ->]|[-> ->]].
    - rewrite Hstep0 in Hstep2. injection Hstep2 as <-. done.
    - rewrite list_lookup_insert_eq in Hstep2 by done. by injection Hstep2 as <-. }
  destruct Hrow2 as [Hlanes2 Hrow2].
  assert (Hother : forall k : nat, k <> i -> info2 !! k = info1 !! k).
  { intros k Hk. destruct Hinfo2 as [[_ ->]|[_ ->]]; [done|].
    by rewrite list_lookup_insert_ne. }
  split; [by destruct (_ || _); [left|]|]. split; [done|].
  split; [intros k Hk; rewrite Hother by lia; apply Hrest; lia|]. split.
  - intros Hrm2. exists row2. replace (S i - 1)%nat with i by lia.
    split; [lia|]. split; [done|]. rewrite Hlanes2.
    destruct (i_end row2 || i_start row2); [done|].
    rewrite Hrm2. done.
  - intros k r r' Hk Hnot Hr Hr' Hne.
    destruct (decide (S k = i)) as [E|E].
    + subst i. rewrite Hrow2 in Hr'. injection Hr' as <-.
      rewrite Hother in Hr by lia.
      assert (Hno : change = false).
      { destruct change; [|done]. destruct Hnot. by apply Hin. }
      rewrite Hlanes2 in Hne |- *.
      destruct (Z.eqb_spec rm 0) as [?|Hrm0]; [done|].
      assert (Hrm_lane : rm_lane = 1%Z).
      { unfold rm in Hrm0, Hrm1. rewrite Hno in Hrm0, Hrm1.
        rewrite Z.add_0_r in Hrm0, Hrm1. destruct Hrm as [-> | ->]; [done|done]. }
      destruct (Hprev Hrm_lane) as (row1 & _ & Hrow1 & Hl1).
      replace (S k - 1)%nat with k in Hrow1 by lia.
      rewrite Hr in Hrow1. injection Hrow1 as <-.
      by rewrite Hl1, (Hsame Hno).
    + rewrite Hother in Hr, Hr' by lia. eapply (Hpairs k); [lia|done..].
Qed.

(** X22.  The lane [_set_lanes] removes keeps its side along a stretch: on
    an [info] fresh from [_create_info], a row that was not drawn into
    [changes] and has lost a lane has lost the same lane as the row before
    it. *)
Theorem _set_lanes_side_kept (self self' : Env) (gl gl' g : RandomState)
    (changes : list Z) (k : nat) (row row' : SegmentInfo) :
  (0 < num_lanes_changes self)%Z -> (1 < num_lanes self)%Z ->
  Forall (fun row => i_lanes row = [true; true]) (info self) ->
  randint_size (np_random self) 0 (Z.of_nat (length (track self)))
               (Z.to_nat (num_lanes_changes self)) = Done (changes, g) ->
  _set_lanes self gl = Done (self', gl') ->
  (S k < length (track self))%nat -> ~ In (Z.of_nat (S k)) changes ->
  info self' !! k = Some row -> info self' !! S k = Some row' ->
  i_lanes row' <> [true; true] ->
  i_lanes row' = i_lanes row.
Proof.
  intros H0 H1 Hinit Hch H Hk Hnot Hrow Hrow' Hne. unfold _set_lanes in H.
  replace (0 <? num_lanes_changes self)%Z with true in H by (symmetry; by apply Z.ltb_lt).
  replace (1 <? num_lanes self)%Z with true in H by (symmetry; by apply Z.ltb_lt).
  rewrite Hch in H. simpl in H.
  inv_bind H. destruct r as [[[rm lane] info'] gl2]. injection H as <- _.
  apply (for_each_seq_invariant (lanes_side changes (info self))) in Hstep.
  - destruct Hstep as (_ & _ & _ & _ & Hpairs). simpl in Hrow, Hrow'.
    eapply (Hpairs k); [simpl; lia|done..].
  - split; [by left|]. split; [by left|]. split; [done|]. split; [done|].
    intros j r r' Hj. lia.
  - intros i t t' _. by apply set_lane_side.
Qed.

Lemma _set_lanes_side_kept_witness :
  exists (self' : Env) (gl' : RandomState) (row row' : SegmentInfo),
    _set_lanes sample_three_env odd_source = Done (self', gl') /\
    info self' !! 3%nat = Some row /\ info self' !! 4%nat = Some row' /\
    i_lanes row' = i_lanes row.
Proof.
  destruct (_set_lanes sample_three_env odd_source) as [[self' gl']| |] eqn:E;
    [|vm_compute in E; discriminate E..].
  destruct (info self' !! 3%nat) as [row|] eqn:E3;
    [|vm_compute in E; injection E as <- _; discriminate E3].
  destruct (info self' !! 4%nat) as [row'|] eqn:E4;
    [|vm_compute in E; injection E as <- _; discriminate E4].
  exists self', gl', row, row'. split; [reflexivity|]. split; [exact E3|].
  split; [exact E4|].
  apply (_set_lanes_side_kept sample_three_env self' odd_source gl' three_source
           [3; 3; 3]%Z 3 row row').
  - reflexivity.
  - reflexivity.
  - vm_compute. repeat constructor.
  - vm_compute. reflexivity.
  - exact E.
  - vm_compute. lia.
  - simpl. intros [H|[H|[H|H]]]; try discriminate H; exact H.
  - exact E3.
  - exact E4.
  - vm_compute in E. injection E as <- _. vm_compute in E4. injection E4 as <-.
    discriminate.
Defined.
(** ** The destination of the walker *)

Lemma scan_checkpoints_ahead (cps : list Checkpoint) (alpha : Q) (fuel dest_i : nat)
    (failed : bool) (d : nat) (dest : Checkpoint) :
  scan_checkpoints fuel cps alpha dest_i = Done (failed, d, dest) ->
  (dest_i <= d)%nat /\
  (forall (j : nat) (cp : Checkpoint),
     (dest_i <= j < d)%nat -> cps !! (j mod length cps)%nat = Some cp -> cp_alpha cp < alpha) /\
  (failed = false -> cps !! (d mod length cps)%nat = Some dest /\ alpha <= cp_alpha dest).
Proof.
  revert dest_i. induction fuel as [|fuel IH]; intros dest_i H; [done|]. simpl in H.
  inv_bind H. rename r into cp0. destruct (Qle_bool alpha (cp_alpha cp0)) eqn:Hle.
  - injection H as <- <- <-. split; [lia|]. split; [intros j cp Hj; lia|].
    intros _. split; [done|]. by apply Qle_bool_iff.
  - assert (Hlt : cp_alpha cp0 < alpha).
    { apply Qnot_le_lt. intros Hc. apply Qle_bool_iff in Hc. congruence. }
    assert (Hskip : forall (j : nat) (cp : Checkpoint),
              (dest_i <= j < S dest_i)%nat -> cps !! (j mod length cps)%nat = Some cp ->
              cp_alpha cp < alpha).
    { intros j cp Hj Hcp. assert (j = dest_i) as -> by lia. congruence. }
    destruct (Nat.eqb_spec (S dest_i mod length cps) 0) as [H0|_].
    + injection H as <- <- _. split; [lia|]. split; [done|]. done.
    + apply IH in H as (Hd & Hpast & Hdest). split; [lia|]. split; [|done].
      intros j cp Hj Hcp. destruct (decide (j = dest_i)) as [->|Hne].
      * apply (Hskip dest_i); [lia|done].
      * apply (Hpast j); [lia|done].
Qed.

(** X23.  The destination search of the walker (lines 220-231), when it
    returns: the destination is the checkpoint under the cursor and its
    angle is not behind the angle the walker is left with, which is the
    angle it came with less a whole number of turns; the cursor has only
    moved forward, past checkpoints whose angle is below the angle the
    walker came with. *)
Theorem find_destination_ahead (cps : list Checkpoint) (fuel : nat) (alpha : Q)
    (dest_i : nat) (alpha' : Q) (d : nat) (dest : Checkpoint) :
  find_destination fuel cps alpha dest_i = Done (alpha', d, dest) ->
  cps !! (d mod length cps)%nat = Some dest /\
  alpha' <= cp_alpha dest /\
  (exists k : nat, alpha' == alpha - inject_Z (Z.of_nat k) * (2 * pi)) /\
  (dest_i <= d)%nat /\
  (forall (j : nat) (cp : Checkpoint),
     (dest_i <= j < d)%nat -> cps !! (j mod length cps)%nat = Some cp -> cp_alpha cp < alpha).
Proof.
  revert alpha dest_i. induction fuel as [|fuel IH]; intros alpha dest_i H; [done|].
  cbn [find_destination] in H. inv_bind H. destruct r as [[failed d0] dest0].
  apply scan_checkpoints_ahead in Hstep as (Hd0 & Hpast & Hdest).
  destruct failed; simpl in H.
  - apply IH in H as (Hcp & Hle & (k & Hk) & Hd & Hpast').
    pose proof pi_positive as Hpi.
    split; [done|]. split; [done|]. split.
    { exists (S k). rewrite Hk, Nat2Z.inj_succ. unfold Z.succ. rewrite inject_Z_plus.
      change (inject_Z 1) with 1. ring. }
    split; [lia|]. intros j cp Hj Hjcp.
    destruct (decide (j < d0)%nat) as [Hlt|Hge].
    + apply (Hpast j); [lia|done].
    + assert (cp_alpha cp < alpha - 2 * pi) by (apply (Hpast' j); [lia|done]). lra.
  - injection H as <- <- <-. destruct (Hdest eq_refl) as [Hcp Hle].
    split; [done|]. split; [done|]. split.
    { exists 0%nat. change (inject_Z (Z.of_nat 0)) with 0. ring. }
    split; [done|]. done.
Qed.

Lemma find_destination_ahead_witness :
  exists (alpha' : Q) (d : nat) (dest : Checkpoint),
    find_destination 20 sample_checkpoints 1 0 = Done (alpha', d, dest) /\
    alpha' <= cp_alpha dest.
Proof.
  destruct (find_destination 20 sample_checkpoints 1 0) as [[[alpha' d] dest]| |] eqn:E;
    [|vm_compute in E; discriminate E..].
  exists alpha', d, dest. split; [reflexivity|].
  destruct (find_destination_ahead _ _ _ _ _ _ _ E) as (_ & H & _). exact H.
Defined.
